(** * Lead generator: batch enrichment, reconciliation and qualification

    A shallow embedding of [src/lead_gen.py]: the Python dictionaries that
    carry contact records and API response entries, the string helpers the
    code relies on, [ZoomInfoEnricher.enrich_contact_batch] with its
    authentication step, [ZoomInfoEnricher.get_company_for_contacts],
    [ContactQualifier.qualify_contact], and the two orchestrators
    ([LeadGenerator.process_contact_list] and [main.process_file], with its
    loop over the batches and its loop over the attempts at a file).

    Strings are ASCII strings: [str.strip], [str.lower] and [str.isupper] are
    modelled on the ASCII range. *)

From Stdlib Require Import ZArith QArith Lia List Bool String Ascii.
From stdpp Require Import base list strings pretty.
Import ListNotations.

Local Open Scope string_scope.
Local Open Scope Z_scope.
Local Open Scope list_scope.

(** ** Python strings *)

Module PyStr.

(** [str.isspace] on one ASCII character: TAB..CR, FS..US and the space. *)
Definition is_space (c : ascii) : bool :=
  let n := nat_of_ascii c in
  ((9 <=? n)%nat && (n <=? 13)%nat) || ((28 <=? n)%nat && (n <=? 32)%nat).

Definition is_upper (c : ascii) : bool :=
  let n := nat_of_ascii c in (65 <=? n)%nat && (n <=? 90)%nat.

Definition is_digit (c : ascii) : bool :=
  let n := nat_of_ascii c in (48 <=? n)%nat && (n <=? 57)%nat.

Definition lower_char (c : ascii) : ascii :=
  if is_upper c then ascii_of_nat (nat_of_ascii c + 32) else c.

(** [s.lower()] *)
Fixpoint lower (s : string) : string :=
  match s with
  | EmptyString => EmptyString
  | String c s' => String (lower_char c) (lower s')
  end.

Fixpoint lstrip (s : string) : string :=
  match s with
  | EmptyString => EmptyString
  | String c s' => if is_space c then lstrip s' else s
  end.

Fixpoint rstrip (s : string) : string :=
  match s with
  | EmptyString => EmptyString
  | String c s' =>
      match rstrip s' with
      | EmptyString => if is_space c then EmptyString else String c EmptyString
      | r => String c r
      end
  end.

(** [s.strip()] *)
Definition strip (s : string) : string := rstrip (lstrip s).

(** [s.lstrip(ch)] for a one-character argument. *)
Fixpoint lstrip_char (ch : ascii) (s : string) : string :=
  match s with
  | EmptyString => EmptyString
  | String c s' => if Ascii.eqb c ch then lstrip_char ch s' else s
  end.

(** [s.startswith(p)] *)
Definition startswith (p s : string) : bool := String.prefix p s.

(** [needle in hay] *)
Fixpoint contains (needle hay : string) : bool :=
  String.prefix needle hay
  || match hay with
     | EmptyString => false
     | String _ hay' => contains needle hay'
     end.

(** [s[n:]] *)
Fixpoint drop_prefix (n : nat) (s : string) : string :=
  match n, s with
  | O, _ => s
  | S _, EmptyString => EmptyString
  | S n', String _ s' => drop_prefix n' s'
  end.

(** [s.replace(old, new)] for a non-empty [old]: occurrences are replaced
    from left to right without overlap. [skip] counts the characters of
    the occurrence being consumed. *)
Fixpoint replace_from (old new : string) (skip : nat) (s : string) : string :=
  match s with
  | EmptyString => EmptyString
  | String c s' =>
      match skip with
      | S k => replace_from old new k s'
      | O =>
          if String.prefix old s
          then String.append new (replace_from old new (String.length old - 1) s')
          else String c (replace_from old new O s')
      end
  end.

Definition replace (old new s : string) : string := replace_from old new O s.

(** [s.split(sep)] for a one-character separator. *)
Fixpoint split (sep : ascii) (s : string) : list string :=
  match s with
  | EmptyString => [EmptyString]
  | String c s' =>
      if Ascii.eqb c sep then EmptyString :: split sep s'
      else match split sep s' with
           | p :: ps => String c p :: ps
           | [] => [String c EmptyString]
           end
  end.

Definition digit_val (c : ascii) : Z := Z.of_nat (nat_of_ascii c) - 48.

(** The digit part of [int(s)]: decimal digits, single underscores allowed
    between two digits. [prev] tells whether the previous character was a
    digit. *)
Fixpoint int_digits (acc : Z) (prev : bool) (s : string) : option Z :=
  match s with
  | EmptyString => if prev then Some acc else None
  | String c s' =>
      if is_digit c then int_digits (10 * acc + digit_val c) true s'
      else if Ascii.eqb c "_" && prev then int_digits acc false s'
      else None
  end.

(** [int(s)]: [None] stands for [ValueError]. *)
Definition int (s : string) : option Z :=
  match strip s with
  | EmptyString => None
  | String c r =>
      if Ascii.eqb c "+" then int_digits 0 false r
      else if Ascii.eqb c "-" then option_map Z.opp (int_digits 0 false r)
      else int_digits 0 false (String c r)
  end.

(** [str(n)] for an integer. *)
Definition of_Z (n : Z) : string := pretty n.

End PyStr.

(** ** Python values and dictionaries *)

(** JSON-like values: what a CSV cell or a decoded response body can hold.
    A dictionary keeps its insertion order, as Python's does. *)
#[warnings="-register-all"]
Inductive value : Type :=
| VNone
| VBool (b : bool)
| VNum (n : Z)
| VStr (s : string)
| VList (l : list value)
| VDict (d : list (string * value)).

Definition dict : Type := list (string * value).

(** Python truthiness. *)
Definition truthy (v : value) : bool :=
  match v with
  | VNone => false
  | VBool b => b
  | VNum n => negb (n =? 0)
  | VStr s => negb (String.eqb s "")
  | VList l => match l with [] => false | _ => true end
  | VDict d => match d with [] => false | _ => true end
  end.

Definition nonempty {A} (l : list A) : bool :=
  match l with [] => false | _ => true end.

Definition str_truthy (s : string) : bool := negb (String.eqb s "").

(** [a or b] *)
Definition py_or (a b : value) : value := if truthy a then a else b.

Module Dict.

(** [d.get(k)] *)
Fixpoint get (k : string) (d : dict) : option value :=
  match d with
  | [] => None
  | (k', v) :: d' => if String.eqb k' k then Some v else get k d'
  end.

(** [k in d] *)
Definition mem (k : string) (d : dict) : bool :=
  match get k d with Some _ => true | None => false end.

(** [d.get(k, default)] *)
Definition get_default (k : string) (default : value) (d : dict) : value :=
  match get k d with Some v => v | None => default end.

(** [d[k] = v]: an existing key keeps its position, a new key goes last. *)
Fixpoint set (k : string) (v : value) (d : dict) : dict :=
  match d with
  | [] => [(k, v)]
  | (k', v') :: d' =>
      if String.eqb k' k then (k, v) :: d' else (k', v') :: set k v d'
  end.

(** The dictionary left by [d.pop(k)]. *)
Definition remove (k : string) (d : dict) : dict :=
  List.filter (fun kv => negb (String.eqb (fst kv) k)) d.

(** [{**a, **b}] *)
Definition merge (a b : dict) : dict :=
  fold_left (fun acc kv => set (fst kv) (snd kv) acc) b a.

Definition keys (d : dict) : list string := List.map fst d.

End Dict.

(** Error-propagating sequencing: [None] stands for a raised exception. *)
Notation "'try' x <- c1 'in' c2" :=
  (match c1 with Some x => c2 | None => None end)
  (at level 10, x name, c1 at level 100, c2 at level 200).

(** ** The outside world: the HTTP channel and the clock *)

(** What [requests.post] can do: answer with a status, a body and its JSON
    decoding ([None] when [response.json()] raises), or raise. *)
Inductive http_outcome : Type :=
| Reply (status : Z) (json : option value) (text : string)
| TransportError (msg : string).

Record request : Type := mkRequest {
  req_url : string;
  req_authorization : option string;
  req_json : value
}.

(** The clock is in milliseconds. [inbox] scripts the answers of the remote
    service, one per call; once it is exhausted the channel is down.
    [sent] logs the requests made. *)
Record world : Type := mkWorld {
  now : Z;
  inbox : list http_outcome;
  sent : list request
}.

Definition post (r : request) (w : world) : http_outcome * world :=
  match inbox w with
  | [] => (TransportError "connection failed", mkWorld (now w) [] (sent w ++ [r]))
  | o :: rest => (o, mkWorld (now w) rest (sent w ++ [r]))
  end.

(** [time.sleep], in milliseconds. *)
Definition sleep (ms : Z) (w : world) : world :=
  mkWorld (now w + ms) (inbox w) (sent w).

(** ** ZoomInfoEnricher *)

(** The fields of a [ZoomInfoEnricher]. A credential that is [None] or empty
    is the empty string: the code only tests them for truth. *)
Record enricher : Type := mkEnricher {
  api_key : string;
  api_username : string;
  api_password : string;
  auth_token : value;
  token_expiry : option Z;
  headers : option string
}.

Definition base_url : string := "https://api.zoominfo.com/v1".

(** The camel-case to snake-case scan of lines 284, 291 and 396. *)
Fixpoint snake_chars (key : string) : string :=
  match key with
  | EmptyString => EmptyString
  | String c key' =>
      if PyStr.is_upper c
      then String "_" (String (PyStr.lower_char c) (snake_chars key'))
      else String c (snake_chars key')
  end.

Definition snake_key (key : string) : string :=
  PyStr.lstrip_char "_" (snake_chars key).

Definition company_keys : list string :=
  ["companyName"; "companyDomain"; "companyId"; "industry";
   "companyRevenue"; "companyEmployees"; "companyLocation"].

(** One turn of the loop of lines 282-285 over the pair
    (enriched, company_info). *)
Definition hoist_step (st : dict * dict) (key : string) : dict * dict :=
  match Dict.get key (fst st) with
  | Some v =>
      (Dict.remove key (fst st),
       Dict.set (PyStr.replace "company_" "" (snake_key key)) v (snd st))
  | None => st
  end.

(** Lines 281-287: the state in which the matched response entry is left. *)
Definition hoist_company (enriched : dict) : dict :=
  let st := fold_left hoist_step company_keys (enriched, []) in
  if nonempty (snd st) then Dict.set "company" (VDict (snd st)) (fst st)
  else fst st.

(** Lines 288-294. *)
Definition standardize (enriched : dict) : dict :=
  fold_left
    (fun acc kv =>
       if String.eqb (fst kv) "company" then Dict.set (fst kv) (snd kv) acc
       else Dict.set (snake_key (fst kv)) (snd kv) acc)
    enriched [].

(** The external-to-local direction of the field mapper (lines 281-294). *)
Definition from_external (payload : dict) : dict :=
  standardize (hoist_company payload).

Definition flag_unenriched (contact : dict) : dict :=
  Dict.set "zi_enriched" (VBool false) contact.

(** Lines 295-296. *)
Definition merge_enriched (contact standardized : dict) : dict :=
  Dict.set "zi_enriched" (VBool true) (Dict.merge contact standardized).

(** [(v or '').strip().lower()]; [None] when [strip] is called on a value
    that is not a string. *)
Definition norm_field (o : option value) : option string :=
  match py_or (default VNone o) (VStr "") with
  | VStr s => Some (PyStr.lower (PyStr.strip s))
  | _ => None
  end.

Definition name_key : Type := string * string.

Definition name_key_eqb (a b : name_key) : bool :=
  String.eqb (fst a) (fst b) && String.eqb (snd a) (snd b).

(** [results_by_name], [results_by_email] and the response entries they
    refer to. The lookups hold positions in [entries]: the entries are
    shared objects, and the merge of lines 281-287 changes them in place. *)
Record index : Type := mkIndex {
  by_name : list (name_key * list nat);
  by_email : list (string * nat);
  entries : list dict
}.

Fixpoint name_lookup (k : name_key) (m : list (name_key * list nat)) : option (list nat) :=
  match m with
  | [] => None
  | (k', js) :: m' => if name_key_eqb k' k then Some js else name_lookup k m'
  end.

(** Lines 253-255. *)
Fixpoint name_append (k : name_key) (j : nat) (m : list (name_key * list nat))
  : list (name_key * list nat) :=
  match m with
  | [] => [(k, [j])]
  | (k', js) :: m' =>
      if name_key_eqb k' k then (k', js ++ [j]) :: m'
      else (k', js) :: name_append k j m'
  end.

Fixpoint email_lookup (k : string) (m : list (string * nat)) : option nat :=
  match m with
  | [] => None
  | (k', j) :: m' => if String.eqb k' k then Some j else email_lookup k m'
  end.

Fixpoint email_set (k : string) (j : nat) (m : list (string * nat)) : list (string * nat) :=
  match m with
  | [] => [(k, j)]
  | (k', j') :: m' =>
      if String.eqb k' k then (k, j) :: m' else (k', j') :: email_set k j m'
  end.

(** One turn of the loop of lines 247-258. *)
Definition index_entry (ix : index) (r : value) : option index :=
  match r with
  | VDict d =>
      try first <- norm_field (Dict.get "firstName" d) in
      try last <- norm_field (Dict.get "lastName" d) in
      try email <- norm_field (Dict.get "email" d) in
      let j := length (entries ix) in
      Some (mkIndex
              (name_append (first, last) j (by_name ix))
              (if str_truthy email then email_set email j (by_email ix)
               else by_email ix)
              (entries ix ++ [d]))
  | _ => None
  end.

Fixpoint build_index (results : list value) (ix : index) : option index :=
  match results with
  | [] => Some ix
  | r :: results' => try ix' <- index_entry ix r in build_index results' ix'
  end.

Definition entry (store : list dict) (j : nat) : dict := default [] (store !! j).

(** Lines 271-275. *)
Fixpoint scan_email (store : list dict) (email : string) (js : list nat)
  : option (option nat) :=
  match js with
  | [] => Some None
  | j :: js' =>
      try r_email <- norm_field (Dict.get "email" (entry store j)) in
      if String.eqb r_email email then Some (Some j)
      else scan_email store email js'
  end.

Definition entry_truthy (store : list dict) (m : option nat) : bool :=
  match m with
  | Some j => nonempty (entry store j)
  | None => false
  end.

(** Lines 261-278: the response entry chosen for a contact, if any. *)
Definition find_match (ix : index) (store : list dict) (contact : dict)
  : option (option nat) :=
  try first <- norm_field (Dict.get "first_name" contact) in
  try last <- norm_field (Dict.get "last_name" contact) in
  try email <- norm_field (Dict.get "email" contact) in
  try by_nm <- match name_lookup (first, last) (by_name ix) with
                | Some [j] => Some (Some j)
                | Some js =>
                    if (1 <? length js)%nat && str_truthy email
                    then scan_email store email js
                    else Some None
                | None => Some None
                end in
  Some (if negb (entry_truthy store by_nm) && str_truthy email
        then match email_lookup email (by_email ix) with
             | Some j => Some j
             | None => by_nm
             end
        else by_nm).

(** One turn of the loop of lines 259-301: the entries after the turn, the
    contact after the turn, and the record appended to [enriched_contacts]. *)
Definition reconcile_contact (ix : index) (store : list dict) (contact : dict)
  : option (list dict * dict * dict) :=
  try m <- find_match ix store contact in
  match m with
  | Some j =>
      if nonempty (entry store j) then
        let enriched := hoist_company (entry store j) in
        Some (<[j := enriched]> store, contact,
              merge_enriched contact (standardize enriched))
      else Some (store, flag_unenriched contact, flag_unenriched contact)
  | None => Some (store, flag_unenriched contact, flag_unenriched contact)
  end.

(** The loop of lines 259-301. The first component is the contacts as the
    loop leaves them, also when a turn raises; the second is
    [enriched_contacts], or [None] when a turn raised. *)
Fixpoint reconcile_loop (ix : index) (store : list dict) (contacts : list dict)
  : list dict * option (list dict) :=
  match contacts with
  | [] => ([], Some [])
  | contact :: rest =>
      match reconcile_contact ix store contact with
      | None => (contact :: rest, None)
      | Some (store', contact', out) =>
          let r := reconcile_loop ix store' rest in
          (contact' :: fst r, option_map (cons out) (snd r))
      end
  end.

(** What [for r in results] iterates over, after [len(results)] of line 241
    has been taken; [None] when [len] raises. *)
Definition iter_results (results : value) : option (list value) :=
  match results with
  | VList l => Some l
  | VDict d => Some (List.map (fun kv => VStr (fst kv)) d)
  | VStr s => Some (List.map (fun c => VStr (String c EmptyString)) (list_ascii_of_string s))
  | _ => None
  end.

(** [enriched_data.get("results", [])] of a decoded body, as the loop of
    line 247 iterates over it; [None] when the body is not JSON, is not a
    dictionary, or [len] raises. *)
Definition results_of (json : option value) : option (list value) :=
  match json with
  | Some (VDict enriched_data) =>
      iter_results (Dict.get_default "results" (VList []) enriched_data)
  | _ => None
  end.

(** Lines 240-302, the body run on a status-200 answer. *)
Definition reconcile (contacts : list dict) (json : option value)
  : list dict * option (list dict) :=
  match results_of json with
  | Some results =>
      match build_index results (mkIndex [] [] []) with
      | Some ix => reconcile_loop ix (entries ix) contacts
      | None => (contacts, None)
      end
  | None => (contacts, None)
  end.

(** The normalized (first, last) key of a response entry and of a contact
    (lines 248-252 and 261-263). *)
Definition entry_key (r : dict) : option name_key :=
  try first <- norm_field (Dict.get "firstName" r) in
  try last <- norm_field (Dict.get "lastName" r) in
  Some (first, last).

Definition contact_key (contact : dict) : option name_key :=
  try first <- norm_field (Dict.get "first_name" contact) in
  try last <- norm_field (Dict.get "last_name" contact) in
  Some (first, last).

(** Decimal reading of the digits of a string, other characters skipped. *)
Fixpoint digits_value_from (acc : Z) (s : string) : Z :=
  match s with
  | EmptyString => acc
  | String c s' =>
      digits_value_from (if PyStr.is_digit c then 10 * acc + PyStr.digit_val c else acc) s'
  end.

Definition digits_value (s : string) : Z := digits_value_from 0 s.

(** A plain or comma-separated integer: only digits and commas, and at
    least one digit. *)
Fixpoint digits_and_commas (s : string) : bool :=
  match s with
  | EmptyString => true
  | String c s' => (PyStr.is_digit c || Ascii.eqb c ",") && digits_and_commas s'
  end.

Fixpoint has_digit (s : string) : bool :=
  match s with
  | EmptyString => false
  | String c s' => PyStr.is_digit c || has_digit s'
  end.

Definition size_number (s : string) : bool := digits_and_commas s && has_digit s.

(** Stand-ins for the two library functions the model leaves open, used
    where a concrete run is evaluated: a URL splitter that takes what lies
    between [//] and the next [/], and a fixed [str()] of compound values. *)
Fixpoint until_slash (s : string) : string :=
  match s with
  | EmptyString => EmptyString
  | String c s' => if Ascii.eqb c "/" then EmptyString else String c (until_slash s')
  end.

Fixpoint after_double_slash (s : string) : string :=
  match s with
  | EmptyString => EmptyString
  | String c s' =>
      if String.prefix "//" s then until_slash (PyStr.drop_prefix 2 s)
      else after_double_slash s'
  end.

Definition simple_netloc (url : string) : option string :=
  Some (after_double_slash url).

Definition simple_repr (v : value) : string := "<object>".

(** ** Sample records and worlds *)

Definition key_enricher : enricher := mkEnricher "KEY" "" "" VNone None None.

Definition login_enricher : enricher := mkEnricher "" "user" "secret" VNone None None.

Definition jane_x : dict :=
  [("first_name", VStr "Jane"); ("last_name", VStr "Doe"); ("email", VStr "jane@x.com")].

Definition jane_y : dict :=
  [("first_name", VStr "Jane"); ("last_name", VStr "Doe"); ("email", VStr "jd@y.com")].

(** A record with a company and nothing else: no name, email or phone. *)
Definition acme_only : dict := [("company_name", VStr "Acme")].

Definition titled_contact : dict :=
  [("first_name", VStr "Jane"); ("title", VStr "CTO"); ("phone", VStr "555-0100")].

Definition email_only : dict := [("email", VStr "a@b.com")].

Definition jane_x_entry : dict :=
  [("firstName", VStr "Jane"); ("lastName", VStr "Doe"); ("email", VStr "jane@x.com");
   ("jobTitle", VStr "CTO"); ("companyName", VStr "Acme")].

Definition jane_y_entry : dict :=
  [("firstName", VStr "Jane"); ("lastName", VStr "Doe"); ("email", VStr "jd@y.com");
   ("jobTitle", VStr "VP")].

Definition other_entry : dict :=
  [("firstName", VStr "Xavier"); ("email", VStr "a@b.com")].

Definition results_body (results : list dict) : option value :=
  Some (VDict [("results", VList (List.map VDict results))]).

Definition world_down : world := mkWorld 0 [] [].

Definition world_answering (o : http_outcome) : world := mkWorld 0 [o] [].

Definition large_company : dict := [("company_size", VStr "1,200+")].


Definition jane_row : dict :=
  [("Name", VStr "Jane Doe"); ("Email", VStr "jane@x.com"); ("Contact Phone", VStr "")].

(** Jane Doe again, with the email of another person's entry. *)
Definition jane_ab : dict :=
  [("first_name", VStr "Jane"); ("last_name", VStr "Doe"); ("email", VStr "a@b.com")].

Definition server_error : http_outcome := Reply 500 None "Internal Server Error".

Definition unauthorized : http_outcome := Reply 401 None "Unauthorized".

(** An answer with status 200 and no result. *)
Definition no_results : http_outcome := Reply 200 (results_body []) "".


(** A login answer with a token good for an hour, and one without token. *)
Definition login_granted : http_outcome :=
  Reply 200 (Some (VDict [("token", VStr "T0"); ("expiresIn", VNum 3600)])) "".

Definition login_without_token : http_outcome := Reply 200 (Some (VDict [])) "".

(** A record with a phone number and nothing that is sent. *)
Definition phone_only : dict := [("phone", VStr "555-0100")].


(** Two records for the qualifier. *)
Definition jane_cto : dict :=
  [("first_name", VStr "Jane"); ("title", VStr "CTO"); ("email", VStr "jane@x.com");
   ("company_size", VStr "5,000")].

Definition sized_by_number : dict := [("title", VStr "CTO"); ("company_size", VNum 500)].


(** A company as the lookup returns it, and a record whose email cell is
    empty. *)
Definition company_x : dict :=
  [("domain", VStr "X.com"); ("companyName", VStr "X Corp"); ("employees", VStr "200")].

Definition company_found : http_outcome := Reply 200 (results_body [company_x]) "".

Definition jane_without_email : dict := [("first_name", VStr "Jane"); ("email", VNone)].


(** Jane Doe of y.com, who gives X Corp as her company, and a company
    known by its name only. *)
Definition jane_y_of_x : dict := jane_y ++ [("company_name", VStr "X Corp")].

Definition company_acme : dict := [("companyName", VStr "ACME"); ("industry", VStr "Tools")].


Section LeadGen.

(** Two functions of the Python library are taken as they are:
    [urlparse(url).netloc] on a string ([None] when [urlparse] raises) and
    the [str()] of a list or dictionary. *)
Variable urlparse_netloc : string -> option string.
Variable repr_compound : value -> string.

(** [str(v)], as used by the f-strings. *)
Definition py_str (v : value) : string :=
  match v with
  | VNone => "None"
  | VBool true => "True"
  | VBool false => "False"
  | VNum n => PyStr.of_Z n
  | VStr s => s
  | VList _ | VDict _ => repr_compound v
  end.

(** Lines 219-227. On a value that is not a string either [urlparse] or
    [startswith] raises, and the bare [except] keeps the raw value. *)
Definition company_domain (website : value) : value :=
  match website with
  | VStr s =>
      match urlparse_netloc s with
      | Some domain =>
          VStr (if PyStr.startswith "www." domain
                then PyStr.drop_prefix 4 domain else domain)
      | None => website
      end
  | _ => website
  end.

Definition copy_field (src dst : string) (contact payload : dict) : dict :=
  match Dict.get src contact with
  | Some v => Dict.set dst v payload
  | None => payload
  end.

(** The local-to-external direction of the field mapper: [person_payload]
    of lines 207-227. *)
Definition to_external (contact : dict) : dict :=
  let p := copy_field "first_name" "firstName" contact [] in
  let p := copy_field "last_name" "lastName" contact p in
  let p := copy_field "email" "email" contact p in
  let p := copy_field "title" "jobTitle" contact p in
  let p := copy_field "company_name" "companyName" contact p in
  match Dict.get "company_website" contact with
  | Some w => Dict.set "companyDomain" (company_domain w) p
  | None => p
  end.

(** Lines 205-229. *)
Definition batch_persons (contacts : list dict) : list dict :=
  List.filter nonempty (List.map to_external contacts).

Definition one_day_ms : Z := 86400000.

(** Whether [pd.Timedelta(seconds=n)] can be built for an integer [n]: a
    [Timedelta] holds a 64-bit count of nanoseconds, and the constructor
    raises when [n] seconds do not fit. Within these bounds the sum
    [datetime.now() + pd.Timedelta(seconds=n)] is a date that exists. *)
Definition timedelta_seconds_ok (n : Z) : bool :=
  (-9223372036 <=? n) && (n <=? 9223372036).

(** [_authenticate] (lines 153-192): the verdict, the enricher and the
    world it leaves. When [expiresIn] is no number, or a number of seconds
    that [pd.Timedelta] cannot hold, line 181 raises inside the [try]:
    the token of line 179 is kept, the expiry and the headers are as they
    were, and the verdict is [False]. *)
Definition authenticate (e : enricher) (w : world) : bool * enricher * world :=
  if truthy (auth_token e)
     && match token_expiry e with Some t => now w <? t | None => false end
  then (true, e, w)
  else if str_truthy (api_key e) then
    (true,
     mkEnricher (api_key e) (api_username e) (api_password e) (auth_token e)
       (Some (now w + one_day_ms))
       (Some (String.append "Bearer " (api_key e))),
     w)
  else
    let auth_payload :=
      VDict [("username", VStr (api_username e));
             ("password", VStr (api_password e))] in
    let r := post (mkRequest (String.append base_url "/auth") None auth_payload) w in
    match fst r with
    | Reply status json _ =>
        if status =? 200 then
          match json with
          | Some (VDict auth_data) =>
              let token := Dict.get_default "token" VNone auth_data in
              let e1 := mkEnricher (api_key e) (api_username e) (api_password e)
                          token (token_expiry e) (headers e) in
              match Dict.get_default "expiresIn" (VNum 86400) auth_data with
              | VNum expires_in =>
                  if timedelta_seconds_ok expires_in then
                    (true,
                     mkEnricher (api_key e) (api_username e) (api_password e)
                       token (Some (now (snd r) + expires_in * 1000))
                       (Some (String.append "Bearer " (py_str token))),
                     snd r)
                  else (false, e1, snd r)
              | _ => (false, e1, snd r)
              end
          | _ => (false, e, snd r)
          end
        else (false, e, snd r)
    | TransportError _ => (false, e, snd r)
    end.

(** What a call of [enrich_contact_batch] leaves: the list it returns, the
    caller's contact records after the call (the same objects, possibly
    changed in place), the enricher and the world. *)
Record enrich_result : Type := mkResult {
  returned : list dict;
  contacts_after : list dict;
  enricher_after : enricher;
  world_after : world
}.

(** Lines 200-238: authentication, payload and request. The outcome is
    [None] when the function returns before any request is made (lines
    202 and 232). *)
Definition send_batch (e : enricher) (contacts : list dict) (w : world)
  : option http_outcome * enricher * world :=
  let a := authenticate e w in
  if negb (fst (fst a)) then (None, snd (fst a), snd a)
  else
    let persons := batch_persons contacts in
    if negb (nonempty persons) then (None, snd (fst a), snd a)
    else
      let batch_payload := VDict [("persons", VList (List.map VDict persons))] in
      let r := post (mkRequest (String.append base_url "/person/bulk")
                       (headers (snd (fst a))) batch_payload) (snd a) in
      (Some (fst r), snd (fst a), snd r).

(** Lines 305-306 and 310-311. *)
Definition flag_all (contacts : list dict) : list dict :=
  List.map flag_unenriched contacts.

(** [enrich_contact_batch] (lines 194-312). Every path of the function
    ends in a [return]: the request and all that follows sit in a [try]
    whose handler returns, and nothing before it raises on a list of
    dictionaries. *)
Definition enrich_contact_batch (e : enricher) (contacts : list dict) (w : world)
  : enrich_result :=
  let s := send_batch e contacts w in
  let e1 := snd (fst s) in
  let w1 := snd s in
  match fst (fst s) with
  | None => mkResult contacts contacts e1 w1
  | Some (Reply status json _) =>
      if status =? 200 then
        match reconcile contacts json with
        | (contacts', Some enriched_contacts) =>
            mkResult enriched_contacts contacts' e1 w1
        | (contacts', None) =>
            mkResult (flag_all contacts') (flag_all contacts') e1 w1
        end
      else mkResult (flag_all contacts) (flag_all contacts) e1 w1
  | Some (TransportError _) =>
      mkResult (flag_all contacts) (flag_all contacts) e1 w1
  end.

(** ** ContactQualifier *)

Record qualifier : Type := mkQualifier {
  title_keywords : list string;
  department_keywords : list string;
  min_company_size : Z;
  max_company_size : Z;
  target_industries : list string;
  target_locations : list string
}.

(** [ContactQualifier.__init__] (lines 418-431): the lists are lowered. *)
Definition new_qualifier (titles departments : list string) (min_size max_size : Z)
    (industries locations : list string) : qualifier :=
  mkQualifier (List.map PyStr.lower titles) (List.map PyStr.lower departments)
    min_size max_size
    (List.map PyStr.lower industries) (List.map PyStr.lower locations).

(** The three counters of [qualify_contact]. *)
Record tally : Type := mkTally {
  score : Z;
  max_score : Z;
  reasons : list string
}.

Definition counted (t : tally) : tally :=
  mkTally (score t) (max_score t + 1) (reasons t).

Definition scored (reason : string) (t : tally) : tally :=
  mkTally (score t + 1) (max_score t) (reasons t ++ [reason]).

Definition noted (reason : string) (t : tally) : tally :=
  mkTally (score t) (max_score t) (reasons t ++ [reason]).

Fixpoint concat_str (parts : list string) : string :=
  match parts with
  | [] => EmptyString
  | p :: parts' => String.append p (concat_str parts')
  end.

(** The [for ... else] loops over keywords: the first keyword found in
    [text], if any. *)
Fixpoint first_keyword (keywords : list string) (text : string) : option string :=
  match keywords with
  | [] => None
  | keyword :: keywords' =>
      if PyStr.contains keyword text then Some keyword
      else first_keyword keywords' text
  end.

(** [v.lower()]: [None] when [v] is not a string. *)
Definition lower_value (v : value) : option string :=
  match v with
  | VStr s => Some (PyStr.lower s)
  | _ => None
  end.

(** A keyword criterion: [max_score += 1], lower the text, look for a
    keyword. *)
Definition keyword_criterion (keywords : list string) (v : value)
    (hit : string -> string -> string) (miss : string -> string) (t : tally)
  : option tally :=
  try text <- lower_value v in
  Some (match first_keyword keywords text with
        | Some keyword => scored (hit text keyword) (counted t)
        | None => noted (miss text) (counted t)
        end).

(** Lines 437-446. *)
Definition title_criterion (q : qualifier) (contact_data : dict) (t : tally)
  : option tally :=
  match Dict.get "title" contact_data with
  | Some v =>
      if nonempty (title_keywords q) then
        keyword_criterion (title_keywords q) v
          (fun title keyword =>
             concat_str ["Title '"; title; "' contains keyword '"; keyword; "'"])
          (fun title =>
             concat_str ["Title '"; title; "' does not match any target keywords"])
          t
      else Some t
  | None => Some t
  end.

(** Lines 447-456. *)
Definition department_criterion (q : qualifier) (contact_data : dict) (t : tally)
  : option tally :=
  match Dict.get "department" contact_data with
  | Some v =>
      if nonempty (department_keywords q) then
        keyword_criterion (department_keywords q) v
          (fun department keyword =>
             concat_str ["Department '"; department; "' contains keyword '"; keyword; "'"])
          (fun department =>
             concat_str ["Department '"; department; "' does not match any target keywords"])
          t
      else Some t
  | None => Some t
  end.

(** [contact_data.get(top)], falling back to [contact_data["company"].get(nested)]
    when it is falsy and the record has a company dictionary
    (lines 458-460, 479-481, 493-495). *)
Definition with_company_fallback (top nested : string) (contact_data : dict) : value :=
  let v := default VNone (Dict.get top contact_data) in
  if truthy v then v
  else match Dict.get "company" contact_data with
       | Some (VDict company) => default VNone (Dict.get nested company)
       | _ => v
       end.

(** Lines 464-470 on a string: [None] stands for [ValueError]. *)
Definition parse_company_size (company_size_str : string) : option Z :=
  if PyStr.contains "-" company_size_str then
    match PyStr.split "-" company_size_str with
    | part :: _ =>
        PyStr.int (PyStr.strip (PyStr.replace "+" "" (PyStr.replace "," "" part)))
    | [] => None
    end
  else if PyStr.contains "+" company_size_str then
    PyStr.int (PyStr.strip (PyStr.replace "+" "" (PyStr.replace "," "" company_size_str)))
  else
    PyStr.int (PyStr.strip (PyStr.replace "," "" company_size_str)).

Definition size_unknown_reason (company_size_str : value) : string :=
  concat_str ["Could not determine company size from '"; py_str company_size_str; "'"].

Definition size_within_reason (company_size : Z) : string :=
  concat_str ["Company size ("; PyStr.of_Z company_size; ") is within target range"].

Definition size_outside_reason (company_size : Z) : string :=
  concat_str ["Company size ("; PyStr.of_Z company_size; ") is outside target range"].

(** Lines 461-477 for a truthy [company_size_str]. A list or dictionary
    has no [split] or [replace] ([AttributeError], caught); on a number
    the [in] test raises [TypeError], which is not caught. *)
Definition size_criterion_on (q : qualifier) (company_size_str : value) (t : tally)
  : option tally :=
  match company_size_str with
  | VStr s =>
      Some (match parse_company_size s with
            | Some company_size =>
                if (min_company_size q <=? company_size)
                   && (company_size <=? max_company_size q)
                then scored (size_within_reason company_size) (counted t)
                else noted (size_outside_reason company_size) (counted t)
            | None => noted (size_unknown_reason company_size_str) (counted t)
            end)
  | VList _ | VDict _ => Some (noted (size_unknown_reason company_size_str) (counted t))
  | _ => None
  end.

(** Lines 457-477. *)
Definition size_criterion (q : qualifier) (contact_data : dict) (t : tally)
  : option tally :=
  let company_size_str := with_company_fallback "company_size" "employees" contact_data in
  if truthy company_size_str then size_criterion_on q company_size_str t
  else Some t.

(** Lines 478-491. *)
Definition industry_criterion (q : qualifier) (contact_data : dict) (t : tally)
  : option tally :=
  let industry_str := with_company_fallback "company_industry" "industry" contact_data in
  if truthy industry_str && nonempty (target_industries q) then
    keyword_criterion (target_industries q) industry_str
      (fun industry target =>
         concat_str ["Industry '"; industry; "' matches target '"; target; "'"])
      (fun industry =>
         concat_str ["Industry '"; industry; "' does not match any target industries"])
      t
  else Some t.

(** Lines 492-507. *)
Definition location_criterion (q : qualifier) (contact_data : dict) (t : tally)
  : option tally :=
  let location_str := with_company_fallback "company_location" "location" contact_data in
  let location_str :=
    if truthy location_str then location_str
    else default VNone (Dict.get "location" contact_data) in
  if truthy location_str && nonempty (target_locations q) then
    keyword_criterion (target_locations q) location_str
      (fun location target =>
         concat_str ["Location '"; location; "' matches target '"; target; "'"])
      (fun location =>
         concat_str ["Location '"; location; "' does not match any target locations"])
      t
  else Some t.

(** [needle in v] for a string [needle]; [None] stands for [TypeError]. *)
Definition py_in (needle : string) (v : value) : option bool :=
  match v with
  | VStr s => Some (PyStr.contains needle s)
  | VList l =>
      Some (existsb (fun x => match x with
                              | VStr s => String.eqb s needle
                              | _ => false
                              end) l)
  | VDict d => Some (Dict.mem needle d)
  | _ => None
  end.

(** Lines 508-514. *)
Definition email_criterion (contact_data : dict) (t : tally) : option tally :=
  match Dict.get "email" contact_data with
  | Some v =>
      if truthy v then
        try has_at <- py_in "@" v in
        Some (if has_at : bool
              then scored "Contact has a valid email address" (counted t)
              else noted "Contact's email address appears invalid" (counted t))
      else Some t
  | None => Some t
  end.

(** The [qualification] entry of the result. [percentage_score] is the
    exact quotient, of which Python holds the nearest float; for the
    scores that can occur (at most six criteria) the float is at least 60
    exactly when the quotient is. *)
Record verdict : Type := mkVerdict {
  v_score : Z;
  v_max_score : Z;
  v_percentage_score : Q;
  v_reasons : list string;
  v_qualified : bool
}.

Definition verdict_of (t : tally) : verdict :=
  let percentage := if 0 <? max_score t
                    then Qmult (score t # Z.to_pos (max_score t)) (100 # 1)
                    else (0 # 1) in
  mkVerdict (score t) (max_score t) percentage (reasons t)
    (Qle_bool (60 # 1) percentage).

(** [qualify_contact] (lines 433-524): the copy of [contact_data] and the
    verdict stored under its key [qualification]; [None] when a criterion
    raises. *)
Definition qualify_contact (q : qualifier) (contact_data : dict)
  : option (dict * verdict) :=
  try t <- title_criterion q contact_data (mkTally 0 0 []) in
  try t <- department_criterion q contact_data t in
  try t <- size_criterion q contact_data t in
  try t <- industry_criterion q contact_data t in
  try t <- location_criterion q contact_data t in
  try t <- email_criterion contact_data t in
  Some (contact_data, verdict_of t).

(** ** The orchestrators *)

(** A call of the enricher as its caller sees it: a list comes back, or an
    exception with its message. *)
Inductive call_result : Type :=
| Returned (enriched_batch : list dict)
| Raised (message : string).

Definition validation_message : string :=
  "No name, email, or phone found after enrichment.".

Definition batch_error (message : string) : string :=
  String.append "Batch enrichment error: " message.

(** Lines 729-740 and 565-578: the output row of one enriched record;
    [None] stands for the [ValueError] of lines 735 and 573. *)
Definition extract_output (enriched : dict) : option dict :=
  let first := py_or (Dict.get_default "first_name" (VStr "") enriched)
                     (Dict.get_default "First Name" (VStr "") enriched) in
  let last := py_or (Dict.get_default "last_name" (VStr "") enriched)
                    (Dict.get_default "Last Name" (VStr "") enriched) in
  let name := PyStr.strip (concat_str [py_str first; " "; py_str last]) in
  let email := py_or (Dict.get_default "email" (VStr "") enriched)
                     (Dict.get_default "Email" (VStr "") enriched) in
  let phone := py_or (py_or (Dict.get_default "phone" (VStr "") enriched)
                            (Dict.get_default "DirectPhone" (VStr "") enriched))
                     (Dict.get_default "Contact Phone" (VStr "") enriched) in
  if negb (str_truthy name || truthy email || truthy phone) then None
  else Some [("Name", VStr name); ("Email", email); ("Contact Phone", phone)].

(** An error record: the contact and the reason. The contact is the
    caller's object as it stands when the record is appended; nothing
    changes it afterwards. *)
Definition error_record : Type := (dict * string)%type.

(** Lines 758-762 and 597-600: the row written for an error record. *)
Definition error_row (err : error_record) : dict :=
  Dict.set "error" (VStr (snd err)) (fst err).

Section Orchestrator.

(** The enricher the orchestrators drive: a state [W] (the enricher
    object and the world) and the effect of [enrich_contact_batch] on it,
    which yields the call's result and the batch's records as the call
    leaves them. [None] is the [LeadGenerator] without enricher. *)
Context {W : Type}.
Variable enricher_call : option (list dict -> W -> call_result * list dict * W).
Variable pause : Z -> W -> W.

(** Lines 724-727 and 549-553. *)
Definition call_enricher (batch : list dict) (w : W) : call_result * list dict * W :=
  match enricher_call with
  | Some enrich => enrich batch w
  | None => (Returned batch, batch, w)
  end.

(** *** main.process_file *)

(** The loop of lines 728-740: rows are appended to [processed_contacts]
    until a record raises. *)
Fixpoint extract_rows (pairs : list (dict * dict)) (processed_contacts : list dict)
  : list dict * option string :=
  match pairs with
  | [] => (processed_contacts, None)
  | (_, enriched) :: pairs' =>
      match extract_output enriched with
      | Some row => extract_rows pairs' (processed_contacts ++ [row])
      | None => (processed_contacts, Some validation_message)
      end
  end.

Record file_state : Type := mkFileState {
  processed_contacts : list dict;
  errors : list error_record;
  file_world : W
}.

(** One run of the [try] body of lines 724-742. *)
Record attempt_result : Type := mkAttempt {
  failure : option string;
  attempt_batch : list dict;
  attempt_state : file_state
}.

Definition attempt (batch : list dict) (st : file_state) : attempt_result :=
  let c := call_enricher batch (file_world st) in
  let batch' := snd (fst c) in
  match fst (fst c) with
  | Returned enriched_batch =>
      let r := extract_rows (combine batch' enriched_batch) (processed_contacts st) in
      mkAttempt (snd r) batch' (mkFileState (fst r) (errors st) (snd c))
  | Raised message =>
      mkAttempt (Some message) batch'
        (mkFileState (processed_contacts st) (errors st) (snd c))
  end.

Definition after_sleep (ms : Z) (st : file_state) : file_state :=
  mkFileState (processed_contacts st) (errors st) (pause ms (file_world st)).

Definition demote_batch (message : string) (batch : list dict) (st : file_state)
  : file_state :=
  mkFileState (processed_contacts st)
    (errors st ++ List.map (fun contact => (contact, batch_error message)) batch)
    (file_world st).

(** What the loop over [batch_attempt] leaves. [attempts] counts the
    turns that were run. *)
Record batch_result : Type := mkBatchResult {
  batch_success : bool;
  attempts : nat;
  batch_after : list dict;
  state_after : file_state
}.

(** Lines 722-752: [turns] is the number of values [range] has left,
    [batch_attempt] the current one. *)
Fixpoint batch_attempts (retries : Z) (turns : nat) (batch_attempt : Z)
    (done : nat) (batch : list dict) (st : file_state) : batch_result :=
  match turns with
  | O => mkBatchResult false done batch st
  | S turns' =>
      let a := attempt batch st in
      match failure a with
      | None => mkBatchResult true (S done) (attempt_batch a) (attempt_state a)
      | Some message =>
          if batch_attempt <? retries then
            batch_attempts retries turns' (batch_attempt + 1) (S done)
              (attempt_batch a) (after_sleep 2000 (attempt_state a))
          else
            batch_attempts retries turns' (batch_attempt + 1) (S done)
              (attempt_batch a)
              (demote_batch message (attempt_batch a) (attempt_state a))
      end
  end.

(** Lines 720-754 for one batch. *)
Definition run_batch (retries : Z) (batch : list dict) (st : file_state)
  : batch_result :=
  batch_attempts retries (Z.to_nat (retries + 1)) 0 O batch st.

(** The batch and the state in which the turn after [k] failed turns
    starts; [None] when one of these [k] turns does not fail. *)
Fixpoint after_failures (k : nat) (batch : list dict) (st : file_state)
  : option (list dict * file_state) :=
  match k with
  | O => Some (batch, st)
  | S k' =>
      let a := attempt batch st in
      match failure a with
      | Some _ =>
          after_failures k' (attempt_batch a) (after_sleep 2000 (attempt_state a))
      | None => None
      end
  end.

(** [contact_list[i:i + batch_size]] *)
Definition slice (contact_list : list dict) (i batch_size : nat) : list dict :=
  take batch_size (drop i contact_list).

(** The loop of lines 719-754 for a positive [batch_size]; [fuel] bounds
    the number of turns. *)
Fixpoint file_batches (retries : Z) (batch_size : nat) (contact_list : list dict)
    (fuel i : nat) (st : file_state) : file_state :=
  match fuel with
  | O => st
  | S fuel' =>
      if (i <? length contact_list)%nat then
        let r := run_batch retries (slice contact_list i batch_size) st in
        file_batches retries batch_size contact_list fuel' (i + batch_size)
          (after_sleep 100 (state_after r))
      else st
  end.

(** Lines 716-754: [processed_contacts] and [errors] of one pass over
    the file. [range] raises on a zero step ([None]) and is empty on a
    negative one. *)
Definition process_file (retries batch_size : Z) (contact_list : list dict) (w : W)
  : option file_state :=
  let st := mkFileState [] [] w in
  if batch_size =? 0 then None
  else if batch_size <? 0 then Some st
  else Some (file_batches retries (Z.to_nat batch_size) contact_list
               (length contact_list) O st).

(** *** LeadGenerator.process_contact_list *)

(** One turn of the loop of lines 562-584. *)
Definition contact_step (st : list dict * list error_record) (pair : dict * dict)
  : list dict * list error_record :=
  match extract_output (snd pair) with
  | Some row => (fst st ++ [row], snd st)
  | None => (fst st, snd st ++ [(fst pair, validation_message)])
  end.

(** Lines 546-586 for one batch; [more] tells whether batches remain. *)
Definition list_batch (batch : list dict) (more : bool) (st : file_state)
  : file_state :=
  let c := call_enricher batch (file_world st) in
  let batch' := snd (fst c) in
  match fst (fst c) with
  | Raised message =>
      demote_batch message batch'
        (mkFileState (processed_contacts st) (errors st) (snd c))
  | Returned enriched_batch =>
      let r := fold_left contact_step (combine batch' enriched_batch)
                 (processed_contacts st, errors st) in
      let st' := mkFileState (fst r) (snd r) (snd c) in
      if more then after_sleep 2000 st' else st'
  end.

Fixpoint list_batches (batch_size : nat) (contact_list : list dict)
    (fuel i : nat) (st : file_state) : file_state :=
  match fuel with
  | O => st
  | S fuel' =>
      if (i <? length contact_list)%nat then
        list_batches batch_size contact_list fuel' (i + batch_size)
          (list_batch (slice contact_list i batch_size)
             (i + batch_size <? length contact_list)%nat st)
      else st
  end.

(** [process_contact_list] (lines 538-604): the rows of [leads_df] and
    [self.errors]; [self_errors] is [self.errors] at the call. *)
Definition process_contact_list (contact_list : list dict) (batch_size : Z)
    (self_errors : list error_record) (w : W) : option file_state :=
  let st := mkFileState [] self_errors w in
  if batch_size =? 0 then None
  else if batch_size <? 0 then Some st
  else Some (list_batches (Z.to_nat batch_size) contact_list
               (length contact_list) O st).

End Orchestrator.

(** The orchestrators of [main]: the enricher is a [ZoomInfoEnricher]. *)
Definition zoominfo_call (batch : list dict) (s : enricher * world)
  : call_result * list dict * (enricher * world) :=
  let r := enrich_contact_batch (fst s) batch (snd s) in
  (Returned (returned r), contacts_after r, (enricher_after r, world_after r)).

Definition zoominfo_pause (ms : Z) (s : enricher * world) : enricher * world :=
  (fst s, sleep ms (snd s)).

Definition main_process_file (retries batch_size : Z) (contact_list : list dict)
    (e : enricher) (w : world) : option (@file_state (enricher * world)) :=
  process_file (Some zoominfo_call) zoominfo_pause
    retries batch_size contact_list (e, w).

Definition main_process_contact_list (contact_list : list dict) (batch_size : Z)
    (e : enricher) (w : world) : option (@file_state (enricher * world)) :=
  process_contact_list (Some zoominfo_call) zoominfo_pause
    contact_list batch_size [] (e, w).

(** ** Notions used in the statements *)

(** The response entries as the loop over the contacts may have left
    them: each is as it was received or has had its company fields
    hoisted. *)
Definition store_rel (received store : list dict) : Prop :=
  Forall2 (fun r s => s = r \/ s = hoist_company r) received store.

(** What a call leaves of a contact record: nothing changed, or the
    [zi_enriched] field set to [False]. *)
Definition kept_or_flagged (contact contact' : dict) : Prop :=
  contact' = contact \/ contact' = flag_unenriched contact.

(** The record returned for a contact, given the entries of the response:
    the unmatched or the matched form. *)
Definition enrichment_of (received : list value) (contact out : dict) : Prop :=
  out = flag_unenriched contact
  \/ exists entry, In (VDict entry) received
                   /\ out = merge_enriched contact (from_external entry).


(** Whether a response entry has the normalized name key [k]. *)
Definition key_matches (k : name_key) (r : dict) : bool :=
  match entry_key r with
  | Some k' => name_key_eqb k' k
  | None => false
  end.

(** The positions, from [offset] on, of the entries with name key [k]. *)
Fixpoint key_positions (k : name_key) (offset : nat) (rs : list dict) : list nat :=
  match rs with
  | [] => []
  | r :: rs' =>
      (if key_matches k r then [offset] else []) ++ key_positions k (S offset) rs'
  end.

(** [results_by_name] holds, for every key, the entries that have it. *)
Definition by_name_sound (ix : index) : Prop :=
  forall k, name_lookup k (by_name ix)
            = match key_positions k O (entries ix) with
              | [] => None
              | js => Some js
              end.


(** A non-success status or a transport failure (lines 303 and 308). *)
Definition request_failed (o : http_outcome) : bool :=
  match o with
  | Reply status _ _ => negb (status =? 200)
  | TransportError _ => true
  end.

(** The output rows of the records that have a name, an email or a
    phone. *)
Definition output_rows (records : list dict) : list dict :=
  flat_map (fun r => match extract_output r with
                     | Some row => [row]
                     | None => []
                     end) records.

(** The error records of the records that have none of them. *)
Definition invalid_records (pairs : list (dict * dict)) : list error_record :=
  flat_map (fun p => match extract_output (snd p) with
                     | Some _ => []
                     | None => [(fst p, validation_message)]
                     end) pairs.

(** [s] without the character [ch]. *)
Fixpoint remove_char (ch : ascii) (s : string) : string :=
  match s with
  | EmptyString => EmptyString
  | String c s' =>
      if Ascii.eqb c ch then remove_char ch s' else String c (remove_char ch s')
  end.

Definition within_range (q : qualifier) (company_size : Z) : bool :=
  (min_company_size q <=? company_size) && (company_size <=? max_company_size q).


(** The enricher holds an API key and the channel is down. *)
Definition channel_down (s : enricher * world) : Prop :=
  str_truthy (api_key (fst s)) = true /\ inbox (snd s) = [].


Fixpoint all_digits (s : string) : bool :=
  match s with
  | EmptyString => true
  | String c s' => PyStr.is_digit c && all_digits s'
  end.

Fixpoint has_char (ch : ascii) (s : string) : bool :=
  match s with
  | EmptyString => false
  | String c s' => Ascii.eqb c ch || has_char ch s'
  end.


(** Whether [(v or '').strip().lower()] goes through: the value is a
    string, is absent, or is falsy. *)
Definition normalizes (o : option value) : bool :=
  match norm_field o with
  | Some _ => true
  | None => false
  end.

(** The records of the data model: name and email fields are strings or
    absent. *)
Definition contact_fields_ok (contact : dict) : bool :=
  normalizes (Dict.get "first_name" contact)
  && normalizes (Dict.get "last_name" contact)
  && normalizes (Dict.get "email" contact).

Definition entry_fields_ok (r : dict) : bool :=
  normalizes (Dict.get "firstName" r)
  && normalizes (Dict.get "lastName" r)
  && normalizes (Dict.get "email" r).


(** ** The matching policy on the entries as received *)

(** Whether a response entry has the normalized email [em]. *)
Definition email_matches (em : string) (r : dict) : bool :=
  match norm_field (Dict.get "email" r) with
  | Some e => String.eqb e em
  | None => false
  end.

(** The last position, from [offset] on, of an entry with email [em]. *)
Fixpoint last_with_email (em : string) (offset : nat) (rs : list dict) : option nat :=
  match rs with
  | [] => None
  | r :: rs' =>
      match last_with_email em (S offset) rs' with
      | Some j => Some j
      | None => if email_matches em r then Some offset else None
      end
  end.

(** The first of the positions [js] whose entry has email [em]. *)
Fixpoint first_with_email (em : string) (rs : list dict) (js : list nat) : option nat :=
  match js with
  | [] => None
  | j :: js' =>
      if email_matches em (entry rs j) then Some j else first_with_email em rs js'
  end.

(** [results_by_email] holds, for every non-empty email, the last entry
    that has it. *)
Definition by_email_sound (ix : index) : Prop :=
  forall em, str_truthy em = true ->
             email_lookup em (by_email ix) = last_with_email em O (entries ix).

(** Lines 265-278 read on the entries as they were received: the position
    chosen for a contact with name key [k] and email [em]. *)
Definition chosen_entry (received : list dict) (k : name_key) (em : string) : option nat :=
  let by_nm :=
    match key_positions k O received with
    | [] => None
    | [j] => Some j
    | js => if str_truthy em then first_with_email em received js else None
    end in
  if negb (entry_truthy received by_nm) && str_truthy em
  then match last_with_email em O received with
       | Some j => Some j
       | None => by_nm
       end
  else by_nm.

(** Lines 279-301 read on the entries as they were received. *)
Definition reconciled (received : list dict) (contact : dict) : option dict :=
  try k <- contact_key contact in
  try em <- norm_field (Dict.get "email" contact) in
  Some (match chosen_entry received k em with
        | Some j =>
            if nonempty (entry received j)
            then merge_enriched contact (from_external (entry received j))
            else flag_unenriched contact
        | None => flag_unenriched contact
        end).


(** The key of [company_info] under which a company field is filed
    (line 284). *)
Definition company_info_key (key : string) : string :=
  PyStr.replace "company_" "" (snake_key key).

(** The request of lines 169-178. *)
Definition auth_request (e : enricher) : request :=
  mkRequest (String.append base_url "/auth") None
    (VDict [("username", VStr (api_username e)); ("password", VStr (api_password e))]).

(** The fields of a contact that go into the payload (lines 207-218). *)
Definition payload_fields : list string :=
  ["first_name"; "last_name"; "email"; "title"; "company_name"; "company_website"].


(** What a criterion of [qualify_contact] does to the counters: nothing
    when it does not apply; otherwise it counts itself, adds at most one
    point and records one reason. *)
Definition tally_step (t t' : tally) : Prop :=
  t' = t
  \/ (max_score t' = max_score t + 1
      /\ (score t' = score t \/ score t' = score t + 1)
      /\ length (reasons t') = S (length (reasons t))).

Definition tally_within (n : Z) (t : tally) : Prop :=
  0 <= score t /\ score t <= max_score t /\ max_score t <= n
  /\ Z.of_nat (length (reasons t)) = max_score t.

(** A field that is absent or holds a string. *)
Definition is_text (o : option value) : bool :=
  match o with
  | None | Some (VStr _) => true
  | Some _ => false
  end.

(** The fields [qualify_contact] reads are strings where present, those
    of the [company] dictionary included. *)
Definition qualifier_fields_ok (contact_data : dict) : bool :=
  is_text (Dict.get "title" contact_data)
  && is_text (Dict.get "department" contact_data)
  && is_text (Dict.get "company_size" contact_data)
  && is_text (Dict.get "company_industry" contact_data)
  && is_text (Dict.get "company_location" contact_data)
  && is_text (Dict.get "location" contact_data)
  && is_text (Dict.get "email" contact_data)
  && match Dict.get "company" contact_data with
     | Some (VDict company) =>
         is_text (Dict.get "employees" company)
         && is_text (Dict.get "industry" company)
         && is_text (Dict.get "location" company)
     | _ => true
     end.


(** ** ZoomInfoEnricher.get_company_for_contacts *)

(** [company_identifier] (lines 336-342): the dictionary
    [{"domain": d}] or [{"companyName": v}]. *)
Inductive company_identifier : Type :=
| ByDomain (domain : string)
| ByCompanyName (company_name : value).

Definition identifier_payload (c : company_identifier) : value :=
  match c with
  | ByDomain d => VDict [("domain", VStr d)]
  | ByCompanyName v => VDict [("companyName", v)]
  end.

(** Lines 323-325, outside any [try]: the outer [None] is the [TypeError]
    of ["@" in v] on a value that is no container, or the
    [AttributeError] of [split] on a list or dictionary that holds ["@"]. *)
Definition email_domain (contact : dict) : option (option string) :=
  match Dict.get "email" contact with
  | Some email =>
      try has_at <- py_in "@" email in
      if has_at : bool then
        match email with
        | VStr s =>
            match PyStr.split "@" s with
            | _ :: domain :: _ => Some (Some domain)
            | _ => None
            end
        | _ => None
        end
      else Some None
  | None => Some None
  end.

(** Lines 326-335. On a value that is not a string [urlparse] raises, or
    gives an empty [netloc] of bytes on which [startswith] raises: in both
    cases [website_domain] is left false in a condition. *)
Definition website_domain (contact : dict) : option string :=
  match Dict.get "company_website" contact with
  | Some (VStr s) =>
      match urlparse_netloc s with
      | Some domain =>
          Some (if PyStr.startswith "www." domain
                then PyStr.drop_prefix 4 domain else domain)
      | None => None
      end
  | _ => None
  end.

(** A domain that is true in a condition. *)
Definition usable_domain (domain : option string) : option string :=
  match domain with
  | Some d => if str_truthy d then Some d else None
  | None => None
  end.

(** Lines 322-342 for one contact. *)
Definition identify (contact : dict) : option (option company_identifier) :=
  let company_name := default VNone (Dict.get "company_name" contact) in
  try email_domain <- email_domain contact in
  Some (match usable_domain (website_domain contact) with
        | Some d => Some (ByDomain d)
        | None =>
            match usable_domain email_domain with
            | Some d => Some (ByDomain d)
            | None =>
                if truthy company_name then Some (ByCompanyName company_name)
                else None
            end
        end).

(** The loop of lines 345-353; [None] when [lower] is called on a company
    name that is not a string. *)
Fixpoint is_duplicate (companies_to_lookup : list company_identifier)
    (c : company_identifier) : option bool :=
  match companies_to_lookup with
  | [] => Some false
  | existing :: rest =>
      match existing, c with
      | ByDomain d1, ByDomain d2 =>
          if str_truthy d1 && str_truthy d2 && String.eqb d1 d2 then Some true
          else is_duplicate rest c
      | ByCompanyName v1, ByCompanyName v2 =>
          if truthy v1 && truthy v2 then
            try name1 <- lower_value v1 in
            try name2 <- lower_value v2 in
            if String.eqb name1 name2 then Some true else is_duplicate rest c
          else is_duplicate rest c
      | _, _ => is_duplicate rest c
      end
  end.

(** The loop of lines 321-356: [companies_to_lookup] and, for each contact
    in order, its entry of [contact_to_company_index], if any. [None]
    when a turn raises. *)
Fixpoint collect_companies (contacts : list dict)
    (companies_to_lookup : list company_identifier)
  : option (list company_identifier * list (option company_identifier)) :=
  match contacts with
  | [] => Some (companies_to_lookup, [])
  | contact :: contacts' =>
      try found <- identify contact in
      match found with
      | Some c =>
          try duplicate <- is_duplicate companies_to_lookup c in
          try r <- collect_companies contacts'
                     (if duplicate : bool then companies_to_lookup
                      else companies_to_lookup ++ [c]) in
          Some (fst r, Some c :: snd r)
      | None =>
          try r <- collect_companies contacts' companies_to_lookup in
          Some (fst r, None :: snd r)
      end
  end.

(** Lines 360-362: slices of [max_batch_size] identifiers. *)
Fixpoint company_batches (fuel : nat) (companies : list company_identifier)
  : list (list company_identifier) :=
  match fuel with
  | O => []
  | S fuel' =>
      match companies with
      | [] => []
      | _ => take 100 companies :: company_batches fuel' (drop 100 companies)
      end
  end.

Definition company_request (e : enricher) (batch : list company_identifier) : request :=
  mkRequest (String.append base_url "/company/bulk") (headers e)
    (VDict [("companies", VList (List.map identifier_payload batch))]).

(** Lines 372-378: what a response adds to [all_company_results]; nothing
    on another status, on a transport failure and when the body is not
    JSON, is no dictionary or has results that cannot be iterated over. *)
Definition company_batch_results (o : http_outcome) : list value :=
  match o with
  | Reply status json _ =>
      if status =? 200 then default [] (results_of json) else []
  | TransportError _ => []
  end.

(** The loop of lines 364-378. *)
Fixpoint lookup_batches (e : enricher) (batches : list (list company_identifier))
    (all_company_results : list value) (w : world) : list value * world :=
  match batches with
  | [] => (all_company_results, w)
  | batch :: batches' =>
      let r := post (company_request e batch) w in
      lookup_batches e batches'
        (all_company_results ++ company_batch_results (fst r)) (snd r)
  end.

(** Lines 379 and 380, outside any [try]: the dictionary from the lowered
    [key] field to the result that holds it, the last one winning.
    [None] when a result is no dictionary or a field that is true in a
    condition is not a string. *)
Fixpoint index_companies (key : string) (all_company_results : list value)
    (acc : dict) : option dict :=
  match all_company_results with
  | [] => Some acc
  | VDict c :: rest =>
      if truthy (default VNone (Dict.get key c)) then
        try k <- lower_value (Dict.get_default key (VStr "") c) in
        index_companies key rest (Dict.set k (VDict c) acc)
      else index_companies key rest acc
  | _ :: _ => None
  end.

(** Lines 383-392: [company_data]; the outer [None] when [lower] is called
    on a company name that is not a string. *)
Definition find_company (companies_by_domain companies_by_name : dict)
    (c : company_identifier) : option (option value) :=
  match c with
  | ByDomain d => Some (Dict.get (PyStr.lower d) companies_by_domain)
  | ByCompanyName v =>
      try name <- lower_value v in
      Some (Dict.get name companies_by_name)
  end.

(** Lines 400-409: a field of the contact is filled in when it is absent
    and the company has the information. *)
Definition fill_absent (field : string) (v : option value) (contact : dict) : dict :=
  match v with
  | Some v => if Dict.mem field contact then contact else Dict.set field v contact
  | None => contact
  end.

(** Lines 394-409. *)
Definition attach_company (company_data contact : dict) : dict :=
  let company_info :=
    fold_left (fun acc kv => Dict.set (snake_key (fst kv)) (snd kv) acc)
      company_data [] in
  let contact := Dict.set "company" (VDict company_info) contact in
  let contact := Dict.set "company_enriched" (VBool true) contact in
  let contact := fill_absent "company_name" (Dict.get "company_name" company_info) contact in
  let contact :=
    fill_absent "company_website"
      (option_map (fun d => VStr (String.append "https://" (py_str d)))
         (Dict.get "domain" company_info))
      contact in
  let contact := fill_absent "company_industry" (Dict.get "industry" company_info) contact in
  let contact := fill_absent "company_size" (Dict.get "employees" company_info) contact in
  fill_absent "company_location" (Dict.get "location" company_info) contact.

(** Lines 411 and 413. *)
Definition flag_company (contact : dict) : dict :=
  Dict.set "company_enriched" (VBool false) contact.

(** The loop of lines 381-413 over the caller's records: the records as
    the loop leaves them, and whether it ran to its end. When a turn
    raises, its record and those after it are as they were. *)
Fixpoint assign_companies (companies_by_domain companies_by_name : dict)
    (contacts : list dict) (index : list (option company_identifier))
  : list dict * bool :=
  match contacts, index with
  | contact :: contacts', found :: index' =>
      match found with
      | Some c =>
          match find_company companies_by_domain companies_by_name c with
          | Some company_data =>
              let contact' :=
                match company_data with
                | Some (VDict d) =>
                    if nonempty d then attach_company d contact
                    else flag_company contact
                | _ => flag_company contact
                end in
              let r := assign_companies companies_by_domain companies_by_name
                         contacts' index' in
              (contact' :: fst r, snd r)
          | None => (contacts, false)
          end
      | None =>
          let r := assign_companies companies_by_domain companies_by_name
                     contacts' index' in
          (flag_company contact :: fst r, snd r)
      end
  | _, _ => (contacts, true)
  end.

(** What a call of [get_company_for_contacts] leaves: the list returned
    ([None] when the call raises), which is the caller's list, the
    caller's records after the call, the enricher and the world. *)
Record company_result : Type := mkCompanyResult {
  company_returned : option (list dict);
  company_contacts_after : list dict;
  company_enricher_after : enricher;
  company_world_after : world
}.

(** [get_company_for_contacts] (lines 314-414). *)
Definition get_company_for_contacts (e : enricher) (contacts : list dict) (w : world)
  : company_result :=
  let a := authenticate e w in
  let e1 := snd (fst a) in
  if negb (fst (fst a)) then mkCompanyResult (Some contacts) contacts e1 (snd a)
  else
    match collect_companies contacts [] with
    | None => mkCompanyResult None contacts e1 (snd a)
    | Some (companies_to_lookup, index) =>
        if negb (nonempty companies_to_lookup)
        then mkCompanyResult (Some contacts) contacts e1 (snd a)
        else
          let r := lookup_batches e1
                     (company_batches (length companies_to_lookup) companies_to_lookup)
                     [] (snd a) in
          match index_companies "domain" (fst r) [],
                index_companies "companyName" (fst r) [] with
          | Some companies_by_domain, Some companies_by_name =>
              let d := assign_companies companies_by_domain companies_by_name
                         contacts index in
              mkCompanyResult (if snd d then Some (fst d) else None) (fst d) e1 (snd r)
          | _, _ => mkCompanyResult None contacts e1 (snd r)
          end
    end.


(** The fields [get_company_for_contacts] may write: the first two are
    assigned, the others filled in when absent. *)
Definition filled_fields : list string :=
  ["company_name"; "company_website"; "company_industry"; "company_size";
   "company_location"].

Definition company_fields : list string :=
  "company" :: "company_enriched" :: filled_fields.

(** A record before and after [get_company_for_contacts]: the fields
    outside [company_fields] are as they were, and so are those of
    [filled_fields] that the record had. *)
Definition company_frame (contact contact' : dict) : Prop :=
  (forall k, ~ In k company_fields -> Dict.get k contact' = Dict.get k contact)
  /\ (forall k v, In k filled_fields -> Dict.get k contact = Some v ->
                  Dict.get k contact' = Some v).

(** The flag of a record after the last loop: [False], or [True] with the
    company's dictionary. *)
Definition company_flagged (contact : dict) : Prop :=
  Dict.get "company_enriched" contact = Some (VBool false)
  \/ (Dict.get "company_enriched" contact = Some (VBool true)
      /\ exists company_info, Dict.get "company" contact = Some (VDict company_info)).


(** The fields the first loop of [get_company_for_contacts] handles
    without a [try] are strings where present. *)
Definition company_lookup_fields_ok (contact : dict) : bool :=
  is_text (Dict.get "email" contact) && is_text (Dict.get "company_name" contact).

(** An identifier by name whose name is a string. *)
Definition named_by_text (c : company_identifier) : Prop :=
  match c with
  | ByDomain _ => True
  | ByCompanyName v => exists s, v = VStr s
  end.


(** ** The file-level loop of [process_file] *)

(** The message of the [ValueError] that [range] raises on a zero step
    (line 719). *)
Definition range_step_message : string := "range() arg 3 must not be zero".

(** What [process_file] reports for a file (lines 783-789) and writes:
    the rows of the output file, written when there is at least one
    (lines 781-782), and the rows of the error file (lines 765 and 779). *)
Record file_report : Type := mkFileReport {
  report_processed : Z;
  report_errors : Z;
  enriched_file : option (list dict);
  error_file : option (list dict)
}.

(** Lines 755-767, after a pass over the file that did not raise. *)
Definition file_success_report {W : Type} (st : @file_state W) : file_report :=
  mkFileReport (Z.of_nat (length (processed_contacts st)))
    (Z.of_nat (length (errors st)))
    (if nonempty (processed_contacts st) then Some (processed_contacts st) else None)
    (if nonempty (errors st) then Some (List.map error_row (errors st)) else None).

(** Lines 774-780, after the last pass raised. *)
Definition file_failure_report (message : string) (contact_list : list dict)
  : file_report :=
  mkFileReport 0 (Z.of_nat (length contact_list)) None
    (Some (List.map (fun row => Dict.merge row [("error", VStr message)]) contact_list)).

(** The loop of lines 712-780: [turns] is the number of values [range]
    has left, [attempt] the current one. A pass raises only through
    [range] on a zero batch size, before any call of the enricher; file
    input and output are taken not to fail. *)
Fixpoint file_attempts {W : Type}
    (enricher_call : option (list dict -> W -> call_result * list dict * W))
    (pause : Z -> W -> W) (retries batch_size : Z) (contact_list : list dict)
    (turns : nat) (attempt : Z) (w : W) : file_report * W :=
  match turns with
  | O => (mkFileReport 0 0 None None, w)
  | S turns' =>
      match process_file enricher_call pause retries batch_size contact_list w with
      | Some st => (file_success_report st, file_world st)
      | None =>
          if attempt <? retries then
            file_attempts enricher_call pause retries batch_size contact_list
              turns' (attempt + 1) (pause 2000 w)
          else (file_failure_report range_step_message contact_list, w)
      end
  end.

(** [process_file] of [main] (lines 701-789) on the records of a file. *)
Definition process_file_report {W : Type}
    (enricher_call : option (list dict -> W -> call_result * list dict * W))
    (pause : Z -> W -> W) (retries batch_size : Z) (contact_list : list dict) (w : W)
  : file_report * W :=
  file_attempts enricher_call pause retries batch_size contact_list
    (Z.to_nat (retries + 1)) 0 w.

Definition main_process_file_report (retries batch_size : Z) (contact_list : list dict)
    (e : enricher) (w : world) : file_report * (enricher * world) :=
  process_file_report (Some zoominfo_call) zoominfo_pause
    retries batch_size contact_list (e, w).

(** The records accounted for: output rows and error records. *)
Definition accounted {W : Type} (st : @file_state W) : nat :=
  (length (processed_contacts st) + length (errors st))%nat.


(** * Properties *)

(** ** Dictionaries *)

Lemma get_set_eq k v d : Dict.get k (Dict.set k v d) = Some v.
Proof.
  induction d as [|[k' v'] d IH]; simpl.
  - now rewrite String.eqb_refl.
  - destruct (String.eqb k' k) eqn:E; simpl.
    + now rewrite String.eqb_refl.
    + now rewrite E.
Qed.

Lemma get_set_ne k k' v d : k <> k' -> Dict.get k' (Dict.set k v d) = Dict.get k' d.
Proof.
  intros Hne. induction d as [|[k0 v0] d IH]; simpl.
  - destruct (String.eqb k k') eqn:E; [|reflexivity].
    apply String.eqb_eq in E. contradiction.
  - destruct (String.eqb k0 k) eqn:E; simpl.
    + apply String.eqb_eq in E. subst k0.
      destruct (String.eqb k k') eqn:E'; [|reflexivity].
      apply String.eqb_eq in E'. contradiction.
    + now rewrite IH.
Qed.

Lemma set_set_same k v d : Dict.set k v (Dict.set k v d) = Dict.set k v d.
Proof.
  induction d as [|[k' v'] d IH]; simpl.
  - now rewrite String.eqb_refl.
  - destruct (String.eqb k' k) eqn:E; simpl.
    + now rewrite String.eqb_refl.
    + now rewrite E, IH.
Qed.

Lemma set_nonempty k v d : nonempty (Dict.set k v d) = true.
Proof. destruct d as [|[k' v'] d]; simpl; [reflexivity|]. now destruct (String.eqb k' k). Qed.

Lemma get_remove_eq k d : Dict.get k (Dict.remove k d) = None.
Proof.
  induction d as [|[k' v'] d IH]; simpl; [reflexivity|].
  destruct (String.eqb k' k) eqn:E; simpl; [assumption|].
  now rewrite E.
Qed.

Lemma get_remove_ne k k' d : k <> k' -> Dict.get k' (Dict.remove k d) = Dict.get k' d.
Proof.
  intros Hne. induction d as [|[k0 v0] d IH]; simpl; [reflexivity|].
  destruct (String.eqb k0 k) eqn:E; simpl.
  - apply String.eqb_eq in E. subst k0.
    destruct (String.eqb k k') eqn:E'; [|assumption].
    apply String.eqb_eq in E'. contradiction.
  - now rewrite IH.
Qed.

Lemma remove_absent k d : Dict.get k d = None -> Dict.remove k d = d.
Proof.
  induction d as [|[k' v'] d IH]; simpl; [reflexivity|].
  destruct (String.eqb k' k) eqn:E; [discriminate|].
  intros H. simpl. now rewrite IH.
Qed.

(** ** The field mapper *)

Lemma fold_hoist_absent keys d info :
  (forall k, In k keys -> Dict.get k d = None) ->
  fold_left hoist_step keys (d, info) = (d, info).
Proof.
  induction keys as [|key keys IH]; intros H; simpl; [reflexivity|].
  unfold hoist_step at 2. simpl.
  rewrite (H key) by (now left).
  apply IH. intros k Hk. apply H. now right.
Qed.

Lemma fold_hoist_fst keys d info :
  fst (fold_left hoist_step keys (d, info))
  = fold_left (fun acc key => Dict.remove key acc) keys d.
Proof.
  revert d info. induction keys as [|key keys IH]; intros d info; simpl; [reflexivity|].
  unfold hoist_step at 2. simpl.
  destruct (Dict.get key d) eqn:E.
  - apply IH.
  - rewrite (remove_absent key d E). apply IH.
Qed.

Lemma get_fold_remove_in keys k d :
  In k keys -> Dict.get k (fold_left (fun acc key => Dict.remove key acc) keys d) = None.
Proof.
  revert d. induction keys as [|key keys IH]; intros d Hin; simpl; [destruct Hin|].
  destruct (string_dec key k) as [->|Hne].
  - clear IH Hin. generalize (get_remove_eq k d).
    generalize (Dict.remove k d). clear d.
    induction keys as [|key' keys IH]; intros d Hd; simpl; [assumption|].
    apply IH. destruct (string_dec key' k) as [->|Hne].
    + apply get_remove_eq.
    + now rewrite get_remove_ne.
  - apply IH. destruct Hin as [Heq|Hin]; [contradiction|assumption].
Qed.

Lemma get_fold_remove_out keys k d :
  ~ In k keys -> Dict.get k (fold_left (fun acc key => Dict.remove key acc) keys d) = Dict.get k d.
Proof.
  revert d. induction keys as [|key keys IH]; intros d Hout; simpl; [reflexivity|].
  rewrite IH by (intros Hin; apply Hout; now right).
  apply get_remove_ne. intros ->. apply Hout. now left.
Qed.

Lemma fold_hoist_info_nonempty keys d info :
  nonempty info = true -> nonempty (snd (fold_left hoist_step keys (d, info))) = true.
Proof.
  revert d info. induction keys as [|key keys IH]; intros d info H; simpl; [assumption|].
  unfold hoist_step at 2. simpl.
  destruct (Dict.get key d); [|now apply IH].
  apply IH. apply set_nonempty.
Qed.

Lemma fold_hoist_info_empty keys d :
  nonempty (snd (fold_left hoist_step keys (d, []))) = false ->
  fold_left hoist_step keys (d, []) = (d, []).
Proof.
  revert d. induction keys as [|key keys IH]; intros d H; simpl in *; [reflexivity|].
  unfold hoist_step at 2 in H. unfold hoist_step at 2. simpl in *.
  destruct (Dict.get key d) eqn:E.
  - rewrite fold_hoist_info_nonempty in H; [discriminate|reflexivity].
  - now apply IH.
Qed.

(** No company key is left at the top level of a hoisted entry. *)
Lemma hoist_company_clears k d :
  In k company_keys -> Dict.get k (hoist_company d) = None.
Proof.
  intros Hin. unfold hoist_company.
  assert (Hne : "company" <> k).
  { intros <-. simpl in Hin. intuition discriminate. }
  destruct (nonempty _).
  - rewrite get_set_ne by assumption.
    rewrite fold_hoist_fst. now apply get_fold_remove_in.
  - rewrite fold_hoist_fst. now apply get_fold_remove_in.
Qed.

(** Hoisting an entry a second time changes nothing: this is what a
    response entry matched by two contacts goes through. *)
Lemma hoist_company_idempotent d : hoist_company (hoist_company d) = hoist_company d.
Proof.
  unfold hoist_company at 1.
  rewrite fold_hoist_absent; [reflexivity|].
  intros k Hk. now apply hoist_company_clears.
Qed.

Lemma hoist_company_nonempty d : nonempty (hoist_company d) = nonempty d.
Proof.
  unfold hoist_company.
  destruct (nonempty (snd (fold_left hoist_step company_keys (d, [])))) eqn:E.
  - rewrite set_nonempty. destruct d; [discriminate E|reflexivity].
  - now rewrite (fold_hoist_info_empty _ _ E).
Qed.

Lemma hoist_company_get k d :
  ~ In k company_keys -> k <> "company" ->
  Dict.get k (hoist_company d) = Dict.get k d.
Proof.
  intros Hout Hne. unfold hoist_company.
  destruct (nonempty _).
  - rewrite get_set_ne by congruence.
    rewrite fold_hoist_fst. now apply get_fold_remove_out.
  - rewrite fold_hoist_fst. now apply get_fold_remove_out.
Qed.

Lemma from_external_hoisted d : from_external (hoist_company d) = from_external d.
Proof. unfold from_external. now rewrite hoist_company_idempotent. Qed.

(** C2, as the code has it: the round trip through the field mapper gives
    [first_name], [last_name] and [email] back under their own names and
    with their values; [title] comes back under the key [job_title], not
    under [title]; [phone], which is never sent, does not come back. *)
Theorem field_mapper_round_trip (r : dict) :
  let back := from_external (to_external r) in
  Dict.get "first_name" back = Dict.get "first_name" r /\
  Dict.get "last_name" back = Dict.get "last_name" r /\
  Dict.get "email" back = Dict.get "email" r /\
  Dict.get "job_title" back = Dict.get "title" r /\
  Dict.get "title" back = None /\
  Dict.get "phone" back = None.
Proof.
  unfold to_external, copy_field.
  destruct (Dict.get "first_name" r) as [v1|];
    destruct (Dict.get "last_name" r) as [v2|];
    destruct (Dict.get "email" r) as [v3|];
    destruct (Dict.get "title" r) as [v4|];
    destruct (Dict.get "company_name" r) as [v5|];
    destruct (Dict.get "company_website" r) as [v6|];
    cbv zeta; repeat split; reflexivity.
Qed.

(** ** The reconciler *)

Lemma store_rel_refl l : store_rel l l.
Proof. induction l; constructor; auto. Qed.

Lemma store_rel_lookup received store j s :
  store_rel received store -> store !! j = Some s ->
  exists r, received !! j = Some r /\ (s = r \/ s = hoist_company r).
Proof.
  intros H. revert j. induction H as [|r s' received store Hrs H IH]; intros j Hj.
  - discriminate.
  - destruct j as [|j]; simpl in *.
    + injection Hj as <-. eauto.
    + apply IH. assumption.
Qed.

Lemma store_rel_insert received store j :
  store_rel received store ->
  store_rel received (<[j := hoist_company (entry store j)]> store).
Proof.
  intros H. revert j. induction H as [|r s received store Hrs H IH]; intros j.
  - constructor.
  - destruct j as [|j]; simpl.
    + constructor; [|assumption]. right. unfold entry. simpl.
      destruct Hrs as [->| ->]; [reflexivity|apply hoist_company_idempotent].
    + constructor; [assumption|]. apply IH.
Qed.

Lemma entry_nonempty_lookup store j :
  nonempty (entry store j) = true -> store !! j = Some (entry store j).
Proof.
  unfold entry. destruct (store !! j); simpl; [reflexivity|discriminate].
Qed.

Lemma store_rel_from_external received store j :
  store_rel received store -> nonempty (entry store j) = true ->
  exists r, received !! j = Some r /\ nonempty r = true
            /\ from_external (entry store j) = from_external r.
Proof.
  intros H Hne.
  destruct (store_rel_lookup _ _ _ _ H (entry_nonempty_lookup _ _ Hne)) as (r & Hr & Hs).
  exists r. split; [assumption|].
  destruct Hs as [Hs|Hs]; rewrite Hs in *.
  - auto.
  - rewrite hoist_company_nonempty in Hne. split; [assumption|].
    apply from_external_hoisted.
Qed.

Lemma flag_flag contact : flag_unenriched (flag_unenriched contact) = flag_unenriched contact.
Proof. apply set_set_same. Qed.

(** One turn of the loop: the contact is matched and left alone, or
    unmatched and flagged. *)
Lemma reconcile_contact_cases ix received store contact store' contact' out :
  store_rel received store ->
  reconcile_contact ix store contact = Some (store', contact', out) ->
  store_rel received store'
  /\ ((contact' = contact
       /\ exists j r, received !! j = Some r /\ nonempty r = true
                      /\ find_match ix store contact = Some (Some j)
                      /\ out = merge_enriched contact (from_external r))
      \/ (contact' = flag_unenriched contact /\ out = flag_unenriched contact)).
Proof.
  intros Hrel. unfold reconcile_contact.
  destruct (find_match ix store contact) as [[j|]|] eqn:Hm; [| |discriminate].
  - destruct (nonempty (entry store j)) eqn:Hne; intros [= <- <- <-].
    + split; [now apply store_rel_insert|]. left. split; [reflexivity|].
      destruct (store_rel_from_external _ _ _ Hrel Hne) as (r & Hr & Hrne & Hfe).
      exists j, r. repeat split; try assumption.
      f_equal. exact Hfe.
    + split; [assumption|]. now right.
  - intros [= <- <- <-]. split; [assumption|]. now right.
Qed.

Lemma lookup_In {A} (l : list A) j x : l !! j = Some x -> In x l.
Proof.
  revert j. induction l as [|y l IH]; intros [|j] H; simpl in *; try discriminate.
  - injection H as ->. now left.
  - right. eauto.
Qed.

(** The loop over the contacts: what it leaves of the contacts, and what
    it returns when no turn raises. *)
Lemma reconcile_loop_shape ix received store contacts :
  store_rel received store ->
  Forall2 kept_or_flagged contacts (fst (reconcile_loop ix store contacts))
  /\ forall outs, snd (reconcile_loop ix store contacts) = Some outs ->
       Forall2 (enrichment_of (List.map VDict received)) contacts outs.
Proof.
  revert store. induction contacts as [|contact contacts IH]; intros store Hrel; simpl.
  - split; [constructor|]. intros outs [= <-]. constructor.
  - destruct (reconcile_contact ix store contact) as [[[store' contact'] out]|] eqn:Hc; simpl.
    + destruct (reconcile_contact_cases _ _ _ _ _ _ _ Hrel Hc) as [Hrel' Hcase].
      destruct (IH store' Hrel') as [IH1 IH2].
      split.
      * constructor; [|assumption].
        destruct Hcase as [[-> _]|[-> _]]; [now left|now right].
      * intros outs Houts.
        destruct (snd (reconcile_loop ix store' contacts)) as [outs'|]; [|discriminate].
        injection Houts as <-. constructor; [|now apply IH2].
        destruct Hcase as [[_ (j & r & Hr & _ & _ & ->)]|[_ ->]]; [right|now left].
        exists r. split; [|reflexivity].
        apply in_map. eapply lookup_In; eassumption.
    + split; [|discriminate].
      clear. induction (contact :: contacts); constructor; [now left|assumption].
Qed.

Lemma index_entry_entries ix r ix' :
  index_entry ix r = Some ix' ->
  exists d, r = VDict d /\ entries ix' = entries ix ++ [d].
Proof.
  unfold index_entry. destruct r; try discriminate.
  destruct (norm_field (Dict.get "firstName" d)); [|discriminate].
  destruct (norm_field (Dict.get "lastName" d)); [|discriminate].
  destruct (norm_field (Dict.get "email" d)); [|discriminate].
  intros [= <-]. simpl. eauto.
Qed.

(** When the index is built, the entries are the results, in order. *)
Lemma build_index_entries results ix ix' :
  build_index results ix = Some ix' ->
  List.map VDict (entries ix') = List.map VDict (entries ix) ++ results.
Proof.
  revert ix. induction results as [|r results IH]; intros ix; simpl.
  - intros [= <-]. now rewrite app_nil_r.
  - destruct (index_entry ix r) as [ix1|] eqn:E; [|discriminate].
    intros H. rewrite (IH _ H).
    destruct (index_entry_entries _ _ _ E) as (d & -> & ->).
    rewrite map_app. simpl. now rewrite <- app_assoc.
Qed.

Lemma flag_all_kept contacts contacts' :
  Forall2 kept_or_flagged contacts contacts' ->
  flag_all contacts' = flag_all contacts.
Proof.
  induction 1 as [|c c' cs cs' Hc H IH]; simpl; [reflexivity|].
  rewrite IH. f_equal. destruct Hc as [->| ->]; [reflexivity|apply flag_flag].
Qed.

Lemma flag_all_flagged contacts : Forall2 kept_or_flagged contacts (flag_all contacts).
Proof. induction contacts; constructor; [now right|assumption]. Qed.

Lemma kept_all contacts : Forall2 kept_or_flagged contacts contacts.
Proof. induction contacts; constructor; [now left|assumption]. Qed.


(** The body run on a status-200 answer. *)
Lemma reconcile_shape contacts json :
  Forall2 kept_or_flagged contacts (fst (reconcile contacts json))
  /\ forall outs, snd (reconcile contacts json) = Some outs ->
       Forall2 (enrichment_of (default [] (results_of json))) contacts outs.
Proof.
  unfold reconcile.
  destruct (results_of json) as [results|]; simpl; [|split; [apply kept_all|discriminate]].
  destruct (build_index results (mkIndex [] [] [])) as [ix|] eqn:E;
    simpl; [|split; [apply kept_all|discriminate]].
  pose proof (build_index_entries _ _ _ E) as Hent. simpl in Hent. rewrite <- Hent.
  apply reconcile_loop_shape, store_rel_refl.
Qed.

Lemma contacts_kept_or_flagged e contacts w :
  Forall2 kept_or_flagged contacts (contacts_after (enrich_contact_batch e contacts w)).
Proof.
  unfold enrich_contact_batch.
  destruct (fst (fst (send_batch e contacts w))) as [[status json text|msg]|]; simpl.
  - destruct (status =? 200).
    + destruct (reconcile_shape contacts json) as [Hkept _].
      destruct (reconcile contacts json) as [contacts' [outs|]]; simpl in *.
      * assumption.
      * rewrite (flag_all_kept _ _ Hkept). apply flag_all_flagged.
    + apply flag_all_flagged.
  - apply flag_all_flagged.
  - apply kept_all.
Qed.

(** C7, as the code has it: a call of [enrich_contact_batch] leaves every
    input record either as it was or with its [zi_enriched] field set to
    [False]; nothing else is added, removed or changed, and the value of
    every other field is the one it had. When the function returns before
    any request is made, no record is touched. *)
Theorem enrich_contact_batch_frame e contacts w :
  Forall2 kept_or_flagged contacts (contacts_after (enrich_contact_batch e contacts w))
  /\ Forall2 (fun contact contact' =>
               forall k, k <> "zi_enriched" -> Dict.get k contact' = Dict.get k contact)
       contacts (contacts_after (enrich_contact_batch e contacts w))
  /\ (fst (fst (send_batch e contacts w)) = None ->
      contacts_after (enrich_contact_batch e contacts w) = contacts).
Proof.
  split; [apply contacts_kept_or_flagged|]. split.
  - generalize (contacts_kept_or_flagged e contacts w).
    generalize (contacts_after (enrich_contact_batch e contacts w)).
    intros after H. induction H as [|c c' cs cs' Hc H IH]; constructor; [|assumption].
    intros k Hk. destruct Hc as [->| ->]; [reflexivity|].
    unfold flag_unenriched. apply get_set_ne. congruence.
  - intros Hnone. unfold enrich_contact_batch. now rewrite Hnone.
Qed.

(** ** Matching by name *)

Lemma name_key_eqb_eq a b : name_key_eqb a b = true <-> a = b.
Proof.
  destruct a as [a1 a2], b as [b1 b2]. unfold name_key_eqb. simpl.
  rewrite andb_true_iff, !String.eqb_eq. split.
  - intros [-> ->]. reflexivity.
  - intros [= -> ->]. auto.
Qed.

Lemma name_key_eqb_refl a : name_key_eqb a a = true.
Proof. now apply name_key_eqb_eq. Qed.

Lemma name_lookup_append k k' j m :
  name_lookup k (name_append k' j m)
  = if name_key_eqb k' k
    then Some (match name_lookup k m with Some js => js ++ [j] | None => [j] end)
    else name_lookup k m.
Proof.
  induction m as [|[k0 js0] m IH]; simpl.
  - reflexivity.
  - destruct (name_key_eqb k0 k') eqn:E0; simpl.
    + apply name_key_eqb_eq in E0. subst k0.
      destruct (name_key_eqb k' k); reflexivity.
    + destruct (name_key_eqb k0 k) eqn:E1; [|assumption].
      apply name_key_eqb_eq in E1. subst k0.
      destruct (name_key_eqb k' k) eqn:E2; [|reflexivity].
      apply name_key_eqb_eq in E2. subst k'.
      rewrite name_key_eqb_refl in E0. discriminate.
Qed.

Lemma key_positions_app k offset rs rs' :
  key_positions k offset (rs ++ rs')
  = key_positions k offset rs ++ key_positions k (offset + length rs) rs'.
Proof.
  revert offset. induction rs as [|r rs IH]; intros offset; simpl.
  - now rewrite Nat.add_0_r.
  - rewrite IH, <- app_assoc. do 3 f_equal. lia.
Qed.

Lemma index_entry_sound ix r ix' :
  index_entry ix r = Some ix' -> by_name_sound ix -> by_name_sound ix'.
Proof.
  unfold index_entry. destruct r; try discriminate.
  destruct (norm_field (Dict.get "firstName" d)) as [first|] eqn:E1; [|discriminate].
  destruct (norm_field (Dict.get "lastName" d)) as [last|] eqn:E2; [|discriminate].
  destruct (norm_field (Dict.get "email" d)); [|discriminate].
  intros [= <-] Hs k. simpl.
  rewrite name_lookup_append, key_positions_app, (Hs k). simpl.
  unfold key_matches, entry_key. rewrite E1, E2.
  destruct (name_key_eqb (first, last) k).
  - destruct (key_positions k 0 (entries ix)) eqn:E; simpl; reflexivity.
  - simpl. now rewrite app_nil_r.
Qed.

Lemma build_index_sound results ix ix' :
  build_index results ix = Some ix' -> by_name_sound ix -> by_name_sound ix'.
Proof.
  revert ix. induction results as [|r results IH]; intros ix; simpl.
  - now intros [= <-].
  - destruct (index_entry ix r) as [ix1|] eqn:E; [|discriminate].
    intros H Hs. eapply IH; [eassumption|]. eapply index_entry_sound; eassumption.
Qed.

Lemma key_positions_none k offset rs :
  (forall j r, rs !! j = Some r -> key_matches k r = false) ->
  key_positions k offset rs = [].
Proof.
  revert offset. induction rs as [|r rs IH]; intros offset H; simpl; [reflexivity|].
  rewrite (H O r) by reflexivity. simpl.
  apply IH. intros j r' Hj. apply (H (S j)). assumption.
Qed.

Lemma key_positions_unique k offset rs j r :
  rs !! j = Some r -> key_matches k r = true ->
  (forall j' r', j' <> j -> rs !! j' = Some r' -> key_matches k r' = false) ->
  key_positions k offset rs = [(offset + j)%nat].
Proof.
  revert offset j. induction rs as [|r0 rs IH]; intros offset j Hj Hk Hothers.
  - discriminate.
  - destruct j as [|j]; simpl in *.
    + injection Hj as ->. rewrite Hk. simpl.
      rewrite key_positions_none.
      * now rewrite Nat.add_0_r.
      * intros j' r' Hj'. apply (Hothers (S j')); [discriminate|assumption].
    + rewrite (Hothers O r0) by (discriminate || reflexivity). simpl.
      rewrite (IH (S offset) j); [f_equal; lia|assumption|assumption|].
      intros j' r' Hne Hj'. apply (Hothers (S j')); [congruence|assumption].
Qed.

(** A contact whose name key has one entry, and that entry not empty, is
    matched to it, whatever the emails. *)
Lemma find_match_unique ix store contact k j m :
  name_lookup k (by_name ix) = Some [j] ->
  contact_key contact = Some k ->
  nonempty (entry store j) = true ->
  find_match ix store contact = Some m ->
  m = Some j.
Proof.
  unfold contact_key, find_match. intros Hlook Hkey Hne.
  destruct (norm_field (Dict.get "first_name" contact)) as [first|]; [|discriminate].
  destruct (norm_field (Dict.get "last_name" contact)) as [last|]; [|discriminate].
  injection Hkey as <-.
  destruct (norm_field (Dict.get "email" contact)) as [email|]; [|discriminate].
  rewrite Hlook. unfold entry_truthy. rewrite Hne. simpl.
  now intros [= <-].
Qed.

(** The turn of the loop that handles the contact at position [i]. *)
Lemma reconcile_loop_lookup ix received contacts :
  forall store outs i contact,
  store_rel received store ->
  snd (reconcile_loop ix store contacts) = Some outs ->
  contacts !! i = Some contact ->
  exists store_i store' contact' out,
    store_rel received store_i
    /\ reconcile_contact ix store_i contact = Some (store', contact', out)
    /\ outs !! i = Some out.
Proof.
  induction contacts as [|c contacts IH]; intros store outs i contact Hrel Houts Hi.
  - discriminate.
  - simpl in Houts.
    destruct (reconcile_contact ix store c) as [[[store' c'] out]|] eqn:Hc; [|discriminate].
    simpl in Houts.
    destruct (snd (reconcile_loop ix store' contacts)) as [outs'|] eqn:Hrest; [|discriminate].
    injection Houts as <-.
    destruct i as [|i]; simpl in Hi.
    + injection Hi as ->. exists store, store', c', out. auto.
    + destruct (reconcile_contact_cases _ _ _ _ _ _ _ Hrel Hc) as [Hrel' _].
      destruct (IH store' outs' i contact Hrel' Hrest Hi) as (s & s' & c'' & o & H1 & H2 & H3).
      exists s, s', c'', o. auto.
Qed.

Lemma map_VDict_lookup (l : list dict) results j d :
  List.map VDict l = results -> results !! j = Some (VDict d) -> l !! j = Some d.
Proof.
  intros <-. revert j. induction l as [|x l IH]; intros [|j] H; simpl in *; try discriminate.
  - now injection H as ->.
  - auto.
Qed.

Lemma map_VDict_lookup_inv (l : list dict) j d :
  l !! j = Some d -> List.map VDict l !! j = Some (VDict d).
Proof.
  revert j. induction l as [|x l IH]; intros [|j] H; simpl in *; try discriminate.
  - now injection H as ->.
  - auto.
Qed.

(** C6, as the code has it: when the reconciliation runs to its end and
    exactly one response entry shares the contact's normalized (first,
    last) key, and that entry is not the empty dictionary, the contact is
    matched to that entry, whatever the emails of the contact and of the
    other entries. *)
Theorem unique_name_match contacts json results outs i contact j matched k :
  results_of json = Some results ->
  snd (reconcile contacts json) = Some outs ->
  contacts !! i = Some contact ->
  results !! j = Some (VDict matched) ->
  contact_key contact = Some k ->
  entry_key matched = Some k ->
  (forall j' other, j' <> j -> results !! j' = Some (VDict other) ->
                    entry_key other <> Some k) ->
  nonempty matched = true ->
  outs !! i = Some (merge_enriched contact (from_external matched)).
Proof.
  intros Hres Houts Hi Hj Hck Hek Hothers Hne.
  unfold reconcile in Houts. rewrite Hres in Houts.
  destruct (build_index results (mkIndex [] [] [])) as [ix|] eqn:Hix; [|discriminate].
  pose proof (build_index_entries _ _ _ Hix) as Hent. simpl in Hent.
  assert (Hsound : by_name_sound ix).
  { eapply build_index_sound; [eassumption|]. intros k'. reflexivity. }
  assert (Hlook : name_lookup k (by_name ix) = Some [j]).
  { rewrite Hsound.
    rewrite (key_positions_unique k O (entries ix) j matched).
    - reflexivity.
    - eapply map_VDict_lookup; eassumption.
    - unfold key_matches. rewrite Hek. apply name_key_eqb_refl.
    - intros j' r' Hne' Hj'. unfold key_matches.
      destruct (entry_key r') as [k'|] eqn:Ek; [|reflexivity].
      destruct (name_key_eqb k' k) eqn:E; [|reflexivity].
      apply name_key_eqb_eq in E. subst k'. exfalso.
      apply (Hothers j' r' Hne'); [|assumption].
      rewrite <- Hent. now apply map_VDict_lookup_inv. }
  destruct (reconcile_loop_lookup ix (entries ix) contacts (entries ix) outs i contact
              (store_rel_refl _) Houts Hi)
    as (store_i & store' & contact' & out & Hrel & Hc & Hout).
  rewrite Hout. f_equal.
  assert (Hstore : nonempty (entry store_i j) = true
                   /\ from_external (entry store_i j) = from_external matched).
  { pose proof (map_VDict_lookup _ _ _ _ Hent Hj) as Hmj.
    clear - Hrel Hmj Hne.
    revert j Hmj. induction Hrel as [|r s received store Hrs H IH]; intros [|j] Hmj;
      simpl in *; try discriminate.
    - injection Hmj as ->. unfold entry. simpl.
      destruct Hrs as [->| ->].
      + auto.
      + now rewrite hoist_company_nonempty, from_external_hoisted.
    - apply IH. assumption. }
  destruct Hstore as [Hne_i Hfe].
  unfold reconcile_contact in Hc.
  destruct (find_match ix store_i contact) as [m|] eqn:Hm; [|discriminate].
  rewrite (find_match_unique _ _ _ _ _ _ Hlook Hck Hne_i Hm) in Hc.
  rewrite Hne_i in Hc. injection Hc as _ _ <-.
  unfold merge_enriched. do 2 f_equal. exact Hfe.
Qed.

(** ** The failure paths of the enricher *)

(** C4, as the code has it: on a non-success status or a transport
    failure [enrich_contact_batch] returns normally; what it returns is
    the input contacts, each flagged [zi_enriched = False], and its caller
    is given no failure signal. *)
Theorem failed_request_returns_flagged e contacts w outcome :
  fst (fst (send_batch e contacts w)) = Some outcome ->
  request_failed outcome = true ->
  fst (fst (zoominfo_call contacts (e, w))) = Returned (flag_all contacts)
  /\ contacts_after (enrich_contact_batch e contacts w) = flag_all contacts.
Proof.
  intros Hsend Hfail. unfold zoominfo_call, enrich_contact_batch. simpl.
  rewrite Hsend. destruct outcome as [status json text|msg]; simpl in *.
  - destruct (status =? 200); [discriminate|]. auto.
  - auto.
Qed.

Lemma unauthenticated_send e contacts w :
  fst (fst (authenticate e w)) = false ->
  fst (fst (send_batch e contacts w)) = None.
Proof. intros H. unfold send_batch. now rewrite H. Qed.

Lemma unauthenticated_call e contacts w :
  fst (fst (authenticate e w)) = false ->
  zoominfo_call contacts (e, w)
  = (Returned contacts, contacts, (snd (fst (authenticate e w)), snd (authenticate e w))).
Proof.
  intros H. unfold zoominfo_call, enrich_contact_batch. simpl.
  rewrite (unauthenticated_send e contacts w H).
  unfold send_batch. rewrite H. reflexivity.
Qed.

(** ** The retry loop of process_file *)

Section RetryLoop.

Context {W : Type}.
Variable enricher_call : option (list dict -> W -> call_result * list dict * W).
Variable pause : Z -> W -> W.


Lemma extract_rows_all pairs processed :
  Forall (fun p => extract_output (snd p) <> None) pairs ->
  extract_rows pairs processed = (processed ++ output_rows (List.map snd pairs), None).
Proof.
  intros H. revert processed.
  induction H as [|[orig enriched] pairs Hp H IH]; intros processed; simpl.
  - now rewrite app_nil_r.
  - simpl in Hp. destruct (extract_output enriched) as [row|]; [|contradiction].
    rewrite IH, <- app_assoc. reflexivity.
Qed.

Lemma attempt_errors batch (st : file_state) :
  errors (attempt_state (attempt enricher_call batch st)) = errors st.
Proof.
  unfold attempt.
  destruct (fst (fst (call_enricher enricher_call batch (file_world st)))); reflexivity.
Qed.

Lemma after_failures_errors k : forall batch (st : file_state) batch_k st_k,
  after_failures enricher_call pause k batch st = Some (batch_k, st_k) -> errors st_k = errors st.
Proof.
  induction k as [|k IH]; intros batch st batch_k st_k; simpl.
  - now intros [= _ <-].
  - destruct (failure (attempt enricher_call batch st)); [|discriminate].
    intros H. rewrite (IH _ _ _ _ H). simpl. apply attempt_errors.
Qed.

(** A turn that succeeds after [k] failed ones ends the loop. *)
Lemma batch_attempts_success retries k :
  forall turns batch_attempt done batch (st : file_state) batch_k st_k,
  after_failures enricher_call pause k batch st = Some (batch_k, st_k) ->
  failure (attempt enricher_call batch_k st_k) = None ->
  (k < turns)%nat ->
  batch_attempt + Z.of_nat turns = retries + 1 ->
  batch_attempts enricher_call pause retries turns batch_attempt done batch st
  = mkBatchResult true (S (done + k))
      (attempt_batch (attempt enricher_call batch_k st_k)) (attempt_state (attempt enricher_call batch_k st_k)).
Proof.
  induction k as [|k IH]; intros turns batch_attempt done batch st batch_k st_k Haf Hok Hlt Hsum.
  - injection Haf as <- <-.
    destruct turns as [|turns]; [lia|]. simpl. rewrite Hok.
    now rewrite Nat.add_0_r.
  - simpl in Haf.
    destruct turns as [|turns]; [lia|]. simpl.
    destruct (failure (attempt enricher_call batch st)) as [message|]; [|discriminate].
    assert (Hb : (batch_attempt <? retries) = true) by (apply Z.ltb_lt; lia).
    rewrite Hb.
    rewrite (IH turns (batch_attempt + 1) (S done) _ _ batch_k st_k Haf Hok); [|lia|lia].
    f_equal. lia.
Qed.

(** When every turn fails, the last one demotes the batch. *)
Lemma batch_attempts_exhausted retries k :
  forall batch_attempt done batch (st : file_state) batch_k st_k message,
  after_failures enricher_call pause k batch st = Some (batch_k, st_k) ->
  failure (attempt enricher_call batch_k st_k) = Some message ->
  batch_attempt + Z.of_nat (S k) = retries + 1 ->
  batch_attempts enricher_call pause retries (S k) batch_attempt done batch st
  = mkBatchResult false (S (done + k))
      (attempt_batch (attempt enricher_call batch_k st_k))
      (demote_batch message (attempt_batch (attempt enricher_call batch_k st_k))
         (attempt_state (attempt enricher_call batch_k st_k))).
Proof.
  induction k as [|k IH]; intros batch_attempt done batch st batch_k st_k message Haf Hfail Hsum.
  - injection Haf as <- <-. simpl. rewrite Hfail.
    assert (Hb : (batch_attempt <? retries) = false) by (apply Z.ltb_ge; lia).
    rewrite Hb. now rewrite Nat.add_0_r.
  - simpl in Haf.
    change (batch_attempts enricher_call pause retries (S (S k)) batch_attempt done batch st)
      with (let a := attempt enricher_call batch st in
            match failure a with
            | None => mkBatchResult true (S done) (attempt_batch a) (attempt_state a)
            | Some message =>
                if batch_attempt <? retries
                then batch_attempts enricher_call pause retries (S k) (batch_attempt + 1) (S done)
                       (attempt_batch a) (after_sleep pause 2000 (attempt_state a))
                else batch_attempts enricher_call pause retries (S k) (batch_attempt + 1) (S done)
                       (attempt_batch a)
                       (demote_batch message (attempt_batch a) (attempt_state a))
            end).
    cbv zeta.
    destruct (failure (attempt enricher_call batch st)) as [message'|]; [|discriminate].
    assert (Hb : (batch_attempt <? retries) = true) by (apply Z.ltb_lt; lia).
    rewrite Hb.
    rewrite (IH (batch_attempt + 1) (S done) _ _ batch_k st_k message Haf Hfail); [|lia].
    f_equal. lia.
Qed.

(** C3: with [retries >= 0], a batch whose turn fails [k <= retries]
    times and then succeeds is attempted [k + 1] times and no more, and
    adds no error record; a batch whose [retries + 1] turns all fail is
    attempted [retries + 1] times, and every contact of the batch is
    appended to the errors with the message of the last failure
    (prefixed by [Batch enrichment error: ]). *)
Theorem batch_retry (retries : Z) (batch : list dict) (st : file_state) :
  0 <= retries ->
  (forall k batch_k st_k,
      (Z.of_nat k <= retries) ->
      after_failures enricher_call pause k batch st = Some (batch_k, st_k) ->
      failure (attempt enricher_call batch_k st_k) = None ->
      let r := run_batch enricher_call pause retries batch st in
      batch_success r = true
      /\ attempts r = S k
      /\ state_after r = attempt_state (attempt enricher_call batch_k st_k)
      /\ errors (state_after r) = errors st)
  /\ (forall batch_r st_r message,
      after_failures enricher_call pause (Z.to_nat retries) batch st = Some (batch_r, st_r) ->
      failure (attempt enricher_call batch_r st_r) = Some message ->
      let r := run_batch enricher_call pause retries batch st in
      batch_success r = false
      /\ attempts r = S (Z.to_nat retries)
      /\ batch_after r = attempt_batch (attempt enricher_call batch_r st_r)
      /\ errors (state_after r)
         = errors st
           ++ List.map (fun contact => (contact, batch_error message)) (batch_after r)).
Proof.
  intros Hretries. split.
  - intros k batch_k st_k Hk Haf Hok r. subst r. unfold run_batch.
    rewrite (batch_attempts_success retries k _ 0 O batch st batch_k st_k Haf Hok);
      [|lia|lia].
    simpl. repeat split.
    rewrite attempt_errors. eapply after_failures_errors. eassumption.
  - intros batch_r st_r message Haf Hfail r. subst r. unfold run_batch.
    replace (Z.to_nat (retries + 1)) with (S (Z.to_nat retries)) by lia.
    rewrite (batch_attempts_exhausted retries (Z.to_nat retries) 0 O batch st
               batch_r st_r message Haf Hfail); [|lia].
    simpl. repeat split.
    rewrite attempt_errors. f_equal. eapply after_failures_errors. eassumption.
Qed.

(** A file that fits in one batch. *)
Lemma file_batches_single retries batch_size contact_list (st : file_state) :
  contact_list <> [] ->
  (length contact_list <= batch_size)%nat ->
  file_batches enricher_call pause retries batch_size contact_list
    (length contact_list) 0 st
  = after_sleep pause 100
      (state_after (run_batch enricher_call pause retries contact_list st)).
Proof.
  intros Hne Hfit.
  assert (Hslice : slice contact_list 0 batch_size = contact_list).
  { unfold slice. simpl drop. apply take_ge. lia. }
  destruct (length contact_list) as [|n] eqn:Hlen.
  - destruct contact_list; [contradiction|discriminate].
  - cbn [file_batches]. rewrite Hlen, Hslice.
    replace (0 <? S n)%nat with true by reflexivity.
    assert (Hi : (0 + batch_size <? S n)%nat = false) by (apply Nat.ltb_ge; lia).
    destruct n; cbn [file_batches]; [reflexivity|].
    rewrite Hlen, Hi. reflexivity.
Qed.

End RetryLoop.

(** ** The orchestrators of main on the enricher's failure paths *)

Lemma combine_same_snd {A} (l : list A) : List.map snd (combine l l) = l.
Proof. induction l; simpl; congruence. Qed.

Lemma combine_same_Forall {A} (P : A -> Prop) (l : list A) :
  Forall P l -> Forall (fun p => P (snd p)) (combine l l).
Proof. induction 1; simpl; constructor; assumption. Qed.

Lemma output_rows_length records :
  Forall (fun c => extract_output c <> None) records ->
  length (output_rows records) = length records.
Proof.
  induction 1 as [|c records Hc H IH]; simpl; [reflexivity|].
  destruct (extract_output c); [|contradiction].
  simpl. now rewrite IH.
Qed.

(** The rows of a batch whose records come back as they are: the records
    are emitted in order up to the first one that has no name, email or
    phone, where line 735 raises. *)
Lemma extract_rows_same contacts :
  forall processed,
  exists emitted rest,
    contacts = emitted ++ rest
    /\ Forall (fun c => extract_output c <> None) emitted
    /\ fst (extract_rows (combine contacts contacts) processed)
       = processed ++ output_rows emitted
    /\ match rest with
       | [] => snd (extract_rows (combine contacts contacts) processed) = None
       | c :: _ =>
           extract_output c = None
           /\ snd (extract_rows (combine contacts contacts) processed)
              = Some validation_message
       end.
Proof.
  induction contacts as [|c contacts IH]; intros processed.
  - exists [], []. cbn [combine extract_rows fst snd app].
    repeat split; [constructor|]. unfold output_rows. cbn [flat_map].
    now rewrite app_nil_r.
  - cbn [combine extract_rows].
    destruct (extract_output c) as [row|] eqn:Hc.
    + destruct (IH (processed ++ [row])) as (emitted & rest & -> & Hvalid & Hrows & Hrest).
      exists (c :: emitted), rest. split; [reflexivity|].
      split; [constructor; [congruence|assumption]|].
      split; [|exact Hrest].
      rewrite Hrows, <- app_assoc. f_equal.
      unfold output_rows. cbn [flat_map]. now rewrite Hc.
    + exists [], (c :: contacts). cbn [fst snd app].
      repeat split; [constructor| |assumption].
      unfold output_rows. cbn [flat_map]. now rewrite app_nil_r.
Qed.

(** C8, as the code has it: when [_authenticate] fails,
    [enrich_contact_batch] returns its input contacts as they are, as a
    normal result, for every batch. The run goes on: the turn of
    [process_file] takes the list for an enriched batch and emits the
    contacts in order, each as a success row built from its own fields, up
    to the first contact that has no name, email or phone; that contact,
    if there is one, makes the turn fail with the validation error of line
    735, as in any batch. When every contact of the batch has a name, an
    email or a phone, the batch succeeds at its first turn, without
    retry and without error record, and every contact is emitted. *)
Theorem unauthenticated_run_continues e w retries contacts
    (st : @file_state (enricher * world)) :
  fst (fst (authenticate e w)) = false ->
  0 <= retries ->
  file_world st = (e, w) ->
  fst (zoominfo_call contacts (e, w)) = (Returned contacts, contacts)
  /\ (exists emitted rest,
        contacts = emitted ++ rest
        /\ Forall (fun c => extract_output c <> None) emitted
        /\ attempt_batch (attempt (Some zoominfo_call) contacts st) = contacts
        /\ processed_contacts (attempt_state (attempt (Some zoominfo_call) contacts st))
           = processed_contacts st ++ output_rows emitted
        /\ errors (attempt_state (attempt (Some zoominfo_call) contacts st)) = errors st
        /\ match rest with
           | [] => failure (attempt (Some zoominfo_call) contacts st) = None
           | c :: _ =>
               extract_output c = None
               /\ failure (attempt (Some zoominfo_call) contacts st)
                  = Some validation_message
           end)
  /\ (Forall (fun c => extract_output c <> None) contacts ->
      let r := run_batch (Some zoominfo_call) zoominfo_pause retries contacts st in
      batch_success r = true
      /\ attempts r = 1%nat
      /\ batch_after r = contacts
      /\ processed_contacts (state_after r)
         = processed_contacts st ++ output_rows contacts
      /\ length (output_rows contacts) = length contacts
      /\ errors (state_after r) = errors st).
Proof.
  intros Hauth Hretries Hworld.
  pose proof (unauthenticated_call e contacts w Hauth) as Hcall.
  split; [now rewrite Hcall|]. split.
  - destruct (extract_rows_same contacts (processed_contacts st))
      as (emitted & rest & Hsplit & Hvalid & Hrows & Hrest).
    exists emitted, rest.
    unfold attempt, call_enricher. rewrite Hworld, Hcall.
    cbn [fst snd attempt_batch attempt_state failure processed_contacts errors].
    repeat split; assumption.
  - intros Hvalid.
    assert (Ha : attempt (Some zoominfo_call) contacts st
                 = mkAttempt None contacts
                     (mkFileState (processed_contacts st ++ output_rows contacts)
                        (errors st)
                        (snd (fst (authenticate e w)), snd (authenticate e w)))).
    { unfold attempt, call_enricher. rewrite Hworld, Hcall. simpl.
      rewrite extract_rows_all
        by (apply (combine_same_Forall (fun c => extract_output c <> None)); assumption).
      now rewrite combine_same_snd. }
    cbv zeta. unfold run_batch.
    rewrite (batch_attempts_success (Some zoominfo_call) zoominfo_pause retries O
               (Z.to_nat (retries + 1)) 0 O contacts st contacts st eq_refl);
      [| now rewrite Ha | lia | lia].
    rewrite Ha. simpl. repeat split.
    now apply output_rows_length.
Qed.

Lemma kept_or_flagged_trans a b c :
  kept_or_flagged a b -> kept_or_flagged b c -> kept_or_flagged a c.
Proof.
  unfold kept_or_flagged. intros [->| ->] [->| ->]; auto.
  right. apply flag_flag.
Qed.

Lemma kept_all_trans l1 l2 l3 :
  Forall2 kept_or_flagged l1 l2 -> Forall2 kept_or_flagged l2 l3 ->
  Forall2 kept_or_flagged l1 l3.
Proof.
  intros H. revert l3. induction H; intros l3 H3; inversion H3; subst; constructor.
  - eapply kept_or_flagged_trans; eassumption.
  - auto.
Qed.

Lemma get_default_flag k v contact :
  k <> "zi_enriched" ->
  Dict.get_default k v (flag_unenriched contact) = Dict.get_default k v contact.
Proof.
  intros H. unfold Dict.get_default, flag_unenriched.
  rewrite get_set_ne by congruence. reflexivity.
Qed.

(** The flag plays no part in the output row. *)
Lemma extract_output_flag contact :
  extract_output (flag_unenriched contact) = extract_output contact.
Proof.
  unfold extract_output.
  rewrite !get_default_flag by discriminate. reflexivity.
Qed.

Lemma extract_output_kept c c' :
  kept_or_flagged c c' -> extract_output c' = extract_output c.
Proof. intros [->| ->]; [reflexivity|apply extract_output_flag]. Qed.

Lemma authenticate_api_key e w :
  str_truthy (api_key e) = true ->
  fst (fst (authenticate e w)) = true
  /\ api_key (snd (fst (authenticate e w))) = api_key e
  /\ snd (authenticate e w) = w.
Proof.
  intros Hkey. unfold authenticate.
  destruct (truthy (auth_token e) && _); simpl; [auto|].
  rewrite Hkey. simpl. auto.
Qed.

(** With an API key and the channel down, a call returns the batch, as it
    was or flagged, and leaves the key and the channel as they are. *)
Lemma call_when_down e w batch :
  str_truthy (api_key e) = true -> inbox w = [] ->
  exists batch' e' w',
    zoominfo_call batch (e, w) = (Returned batch', batch', (e', w'))
    /\ Forall2 kept_or_flagged batch batch'
    /\ str_truthy (api_key e') = true /\ inbox w' = [].
Proof.
  intros Hkey Hdown.
  destruct (authenticate_api_key e w Hkey) as (Ha & Hk & Hw).
  unfold zoominfo_call, enrich_contact_batch, send_batch. simpl.
  rewrite Ha, Hw. simpl.
  destruct (nonempty (batch_persons batch)); simpl.
  - unfold post. rewrite Hdown. simpl.
    do 3 eexists. split; [reflexivity|].
    split; [apply flag_all_flagged|]. rewrite Hk. auto.
  - do 3 eexists. split; [reflexivity|].
    split; [apply kept_all|]. rewrite Hk. auto.
Qed.

(** ** The success accumulator across the turns of a batch *)

Section ChannelDown.

Variables (c1 c2 row : dict) (rest : list dict).
Hypothesis first_valid : extract_output c1 = Some row.
Hypothesis second_invalid : extract_output c2 = None.

(** One turn on such a batch: the row of the first record is appended,
    then the second record raises. *)
Lemma down_attempt batch (st : @file_state (enricher * world)) :
  Forall2 kept_or_flagged (c1 :: c2 :: rest) batch ->
  channel_down (file_world st) ->
  failure (attempt (Some zoominfo_call) batch st) = Some validation_message
  /\ processed_contacts (attempt_state (attempt (Some zoominfo_call) batch st))
     = processed_contacts st ++ [row]
  /\ Forall2 kept_or_flagged (c1 :: c2 :: rest)
       (attempt_batch (attempt (Some zoominfo_call) batch st))
  /\ channel_down (file_world (attempt_state (attempt (Some zoominfo_call) batch st))).
Proof.
  intros Hbatch [Hkey Hdown].
  destruct (file_world st) as [e w] eqn:Hworld. simpl in Hkey, Hdown.
  destruct (call_when_down e w batch Hkey Hdown)
    as (batch' & e' & w' & Hcall & Hkept & Hkey' & Hdown').
  unfold attempt, call_enricher. rewrite Hworld, Hcall. simpl.
  pose proof (kept_all_trans _ _ _ Hbatch Hkept) as Hall.
  inversion Hall as [|? c1' ? tl1 H1 Htl1]; subst.
  inversion Htl1 as [|? c2' ? tl2 H2 Htl2]; subst.
  simpl.
  rewrite (extract_output_kept _ _ H1), first_valid. simpl.
  rewrite (extract_output_kept _ _ H2), second_invalid. simpl.
  repeat split; assumption.
Qed.

Lemma down_after_failures k :
  forall batch (st : @file_state (enricher * world)),
  Forall2 kept_or_flagged (c1 :: c2 :: rest) batch ->
  channel_down (file_world st) ->
  exists batch_k st_k,
    after_failures (Some zoominfo_call) zoominfo_pause k batch st = Some (batch_k, st_k)
    /\ Forall2 kept_or_flagged (c1 :: c2 :: rest) batch_k
    /\ channel_down (file_world st_k)
    /\ processed_contacts st_k = processed_contacts st ++ repeat row k.
Proof.
  induction k as [|k IH]; intros batch st Hbatch Hdown.
  - exists batch, st. simpl. rewrite app_nil_r. auto.
  - destruct (down_attempt batch st Hbatch Hdown) as (Hf & Hp & Hb & Hd).
    cbn [after_failures]. rewrite Hf.
    destruct (IH (attempt_batch (attempt (Some zoominfo_call) batch st))
                (after_sleep zoominfo_pause 2000
                   (attempt_state (attempt (Some zoominfo_call) batch st))))
      as (batch_k & st_k & Haf & Hbk & Hdk & Hpk).
    + assumption.
    + destruct Hd as [Hd1 Hd2]. split; simpl; assumption.
    + exists batch_k, st_k. repeat split; try assumption; try apply Hdk.
      rewrite Hpk. unfold after_sleep. cbn [processed_contacts].
      rewrite Hp, <- app_assoc. reflexivity.
Qed.

(** C10: in [process_file], [processed_contacts] lives across the turns
    of a batch. With [retries >= 1], an API key and the channel down, a
    file whose one batch starts with a record that has an output row
    and goes on with a record that has no name, email or phone ends
    with that same row [retries + 1] times in the success sequence (at
    least twice), and with every contact of the batch in the errors. *)
Theorem success_rows_repeat_across_retries retries batch_size e w :
  1 <= retries ->
  Z.of_nat (length (c1 :: c2 :: rest)) <= batch_size ->
  str_truthy (api_key e) = true ->
  inbox w = [] ->
  exists st,
    main_process_file retries batch_size (c1 :: c2 :: rest) e w = Some st
    /\ processed_contacts st = repeat row (Z.to_nat (retries + 1))
    /\ (2 <= length (processed_contacts st))%nat
    /\ Forall2 (fun contact err =>
                  kept_or_flagged contact (fst err)
                  /\ snd err = batch_error validation_message)
         (c1 :: c2 :: rest) (errors st).
Proof.
  intros Hretries Hsize Hkey Hdown.
  unfold main_process_file, process_file.
  assert (Hz : (batch_size =? 0) = false) by (apply Z.eqb_neq; simpl length in Hsize; lia).
  assert (Hn : (batch_size <? 0) = false) by (apply Z.ltb_ge; lia).
  rewrite Hz, Hn.
  set (st0 := mkFileState [] [] (e, w)).
  set (batch := c1 :: c2 :: rest) in *.
  destruct (down_after_failures (Z.to_nat retries) batch st0 (kept_all batch))
    as (batch_r & st_r & Haf & Hbr & Hdr & Hpr); [split; assumption|].
  destruct (down_attempt batch_r st_r Hbr Hdr) as (Hf & Hp & Hb & _).
  assert (Hrun : run_batch (Some zoominfo_call) zoominfo_pause retries batch st0
                 = mkBatchResult false (S (Z.to_nat retries))
                     (attempt_batch (attempt (Some zoominfo_call) batch_r st_r))
                     (demote_batch validation_message
                        (attempt_batch (attempt (Some zoominfo_call) batch_r st_r))
                        (attempt_state (attempt (Some zoominfo_call) batch_r st_r)))).
  { unfold run_batch.
    replace (Z.to_nat (retries + 1)) with (S (Z.to_nat retries)) by lia.
    rewrite (batch_attempts_exhausted (Some zoominfo_call) zoominfo_pause retries
               (Z.to_nat retries) 0 O batch st0 batch_r st_r validation_message Haf Hf);
      [reflexivity|lia]. }
  assert (Hfile : file_batches (Some zoominfo_call) zoominfo_pause retries
                    (Z.to_nat batch_size) batch (length batch) 0 st0
                  = after_sleep zoominfo_pause 100
                      (demote_batch validation_message
                         (attempt_batch (attempt (Some zoominfo_call) batch_r st_r))
                         (attempt_state (attempt (Some zoominfo_call) batch_r st_r)))).
  { rewrite file_batches_single.
    - now rewrite Hrun.
    - discriminate.
    - lia. }
  rewrite Hfile. eexists. split; [reflexivity|].
  unfold after_sleep, demote_batch. cbn [processed_contacts errors].
  rewrite Hp, Hpr. cbn [processed_contacts st0 app].
  replace (Z.to_nat (retries + 1)) with (S (Z.to_nat retries)) by lia.
  assert (Hrep : repeat row (Z.to_nat retries) ++ [row] = repeat row (S (Z.to_nat retries))).
  { clear. induction (Z.to_nat retries) as [|n IH]; simpl; [reflexivity|]. now rewrite IH. }
  rewrite Hrep. repeat split.
  - rewrite repeat_length. lia.
  - rewrite attempt_errors.
    rewrite (after_failures_errors _ _ _ _ _ _ _ Haf). cbn [errors st0 app].
    clear - Hb. induction Hb; simpl; constructor; auto.
Qed.

End ChannelDown.

(** ** Company sizes *)

Lemma prefix_empty s : String.prefix "" s = true.
Proof. destruct s; reflexivity. Qed.

Lemma prefix_char a b s : String.prefix (String a "") (String b s) = Ascii.eqb b a.
Proof.
  simpl. destruct (ascii_dec a b) as [->|Hne].
  - now rewrite prefix_empty, Ascii.eqb_refl.
  - symmetry. apply Ascii.eqb_neq. congruence.
Qed.

Lemma append_empty_r s : String.append s "" = s.
Proof.
  induction s as [|c s IH]; [reflexivity|].
  change (String c (String.append s "") = String c s). now rewrite IH.
Qed.

Lemma replace_single ch s : PyStr.replace (String ch "") "" s = remove_char ch s.
Proof.
  unfold PyStr.replace. induction s as [|c s IH]; [reflexivity|].
  cbn [PyStr.replace_from remove_char]. rewrite prefix_char.
  destruct (Ascii.eqb c ch); simpl; now rewrite IH.
Qed.

Lemma contains_single ch s : PyStr.contains (String ch "") s = has_char ch s.
Proof.
  induction s as [|c s IH]; [reflexivity|].
  cbn [PyStr.contains has_char]. now rewrite prefix_char, IH.
Qed.

Lemma has_char_app ch s t :
  has_char ch (String.append s t) = has_char ch s || has_char ch t.
Proof.
  induction s as [|c s IH]; simpl; [reflexivity|].
  now rewrite IH, orb_assoc.
Qed.

Lemma remove_char_app ch s t :
  remove_char ch (String.append s t) = String.append (remove_char ch s) (remove_char ch t).
Proof.
  induction s as [|c s IH]; simpl; [reflexivity|].
  destruct (Ascii.eqb c ch); simpl; now rewrite IH.
Qed.

Lemma remove_char_absent ch s : has_char ch s = false -> remove_char ch s = s.
Proof.
  induction s as [|c s IH]; simpl; [reflexivity|].
  destruct (Ascii.eqb c ch); simpl; [discriminate|].
  intros H. now rewrite IH.
Qed.

Lemma has_char_remove ch ch' s :
  has_char ch s = false -> has_char ch (remove_char ch' s) = false.
Proof.
  induction s as [|c s IH]; simpl; [reflexivity|].
  destruct (Ascii.eqb c ch) eqn:E; simpl; [discriminate|].
  intros H. destruct (Ascii.eqb c ch'); simpl; [auto|].
  rewrite E. simpl. auto.
Qed.

Lemma split_first sep s rest :
  has_char sep s = false ->
  PyStr.split sep (String.append s (String sep rest)) = s :: PyStr.split sep rest.
Proof.
  induction s as [|c s IH]; simpl.
  - intros _. now rewrite Ascii.eqb_refl.
  - destruct (Ascii.eqb c sep); simpl; [discriminate|].
    intros H. now rewrite IH.
Qed.

Lemma digit_not_char c ch :
  PyStr.is_digit ch = false -> PyStr.is_digit c = true -> Ascii.eqb c ch = false.
Proof.
  intros Hch Hc. destruct (Ascii.eqb c ch) eqn:E; [|reflexivity].
  apply Ascii.eqb_eq in E. congruence.
Qed.

Lemma digit_not_space c : PyStr.is_digit c = true -> PyStr.is_space c = false.
Proof.
  unfold PyStr.is_digit, PyStr.is_space.
  generalize (nat_of_ascii c). intros n H.
  apply andb_true_iff in H. destruct H as [H1 H2].
  apply Nat.leb_le in H1. apply Nat.leb_le in H2.
  apply orb_false_iff. split; apply andb_false_iff.
  - right. apply Nat.leb_gt. lia.
  - right. apply Nat.leb_gt. lia.
Qed.

Lemma digits_and_commas_no_char ch s :
  PyStr.is_digit ch = false -> Ascii.eqb "," ch = false ->
  digits_and_commas s = true -> has_char ch s = false.
Proof.
  intros Hd Hc. induction s as [|c s IH]; simpl; [reflexivity|].
  intros H. apply andb_true_iff in H. destruct H as [Hcs Hs].
  rewrite (IH Hs), orb_false_r.
  apply orb_true_iff in Hcs. destruct Hcs as [Hcs|Hcs].
  - now apply digit_not_char.
  - apply Ascii.eqb_eq in Hcs. now subst c.
Qed.

Lemma remove_commas_digits s :
  digits_and_commas s = true -> all_digits (remove_char "," s) = true.
Proof.
  induction s as [|c s IH]; simpl; [reflexivity|].
  intros H. apply andb_true_iff in H. destruct H as [Hc Hs].
  destruct (Ascii.eqb c ",") eqn:E; simpl; [auto|].
  rewrite orb_false_r in Hc. rewrite Hc. simpl. auto.
Qed.

Lemma remove_commas_has_digit s : has_digit (remove_char "," s) = has_digit s.
Proof.
  induction s as [|c s IH]; simpl; [reflexivity|].
  destruct (Ascii.eqb c ",") eqn:E; simpl.
  - apply Ascii.eqb_eq in E. subst c. assumption.
  - now rewrite IH.
Qed.

Lemma remove_commas_value acc s :
  digits_value_from acc (remove_char "," s) = digits_value_from acc s.
Proof.
  revert acc. induction s as [|c s IH]; intros acc; simpl; [reflexivity|].
  destruct (Ascii.eqb c ",") eqn:E; simpl.
  - apply Ascii.eqb_eq in E. subst c. apply IH.
  - apply IH.
Qed.

Lemma all_digits_lstrip s : all_digits s = true -> PyStr.lstrip s = s.
Proof.
  destruct s as [|c s]; simpl; [reflexivity|].
  intros H. apply andb_true_iff in H. destruct H as [Hc _].
  now rewrite (digit_not_space c Hc).
Qed.

Lemma all_digits_rstrip s : all_digits s = true -> PyStr.rstrip s = s.
Proof.
  induction s as [|c s IH]; simpl; [reflexivity|].
  intros H. apply andb_true_iff in H. destruct H as [Hc Hs].
  rewrite (IH Hs). destruct s; [|reflexivity].
  now rewrite (digit_not_space c Hc).
Qed.

Lemma all_digits_strip s : all_digits s = true -> PyStr.strip s = s.
Proof.
  intros H. unfold PyStr.strip. rewrite (all_digits_lstrip s H).
  now apply all_digits_rstrip.
Qed.

Lemma int_digits_all acc prev s :
  all_digits s = true ->
  PyStr.int_digits acc prev s
  = if has_digit s || prev then Some (digits_value_from acc s) else None.
Proof.
  revert acc prev. induction s as [|c s IH]; intros acc prev; simpl.
  - intros _. destruct prev; reflexivity.
  - intros H. apply andb_true_iff in H. destruct H as [Hc Hs].
    rewrite Hc. simpl. rewrite (IH _ _ Hs). now rewrite orb_true_r.
Qed.

(** [int] reads a non-empty string of digits as its decimal value. *)
Lemma int_all_digits s :
  all_digits s = true -> has_digit s = true ->
  PyStr.int s = Some (digits_value s).
Proof.
  intros Hall Hhas. unfold PyStr.int. rewrite (all_digits_strip s Hall).
  destruct s as [|c s]; [discriminate|].
  pose proof Hall as Hall'. simpl in Hall'.
  apply andb_true_iff in Hall'. destruct Hall' as [Hc _].
  rewrite (digit_not_char c "+" eq_refl Hc), (digit_not_char c "-" eq_refl Hc).
  rewrite (int_digits_all 0 false _ Hall), Hhas. reflexivity.
Qed.

(** The lower bound read from digits and commas. *)
Lemma int_size_number s :
  size_number s = true ->
  PyStr.int (PyStr.strip (remove_char "," s)) = Some (digits_value s).
Proof.
  unfold size_number. intros H. apply andb_true_iff in H. destruct H as [Hdc Hd].
  pose proof (remove_commas_digits s Hdc) as Hall.
  rewrite (all_digits_strip _ Hall).
  rewrite int_all_digits; [|assumption|now rewrite remove_commas_has_digit].
  unfold digits_value. now rewrite remove_commas_value.
Qed.

Lemma size_number_no_hyphen s : size_number s = true -> has_char "-" s = false.
Proof.
  unfold size_number. intros H. apply andb_true_iff in H.
  now apply digits_and_commas_no_char.
Qed.

Lemma size_number_no_plus s : size_number s = true -> has_char "+" s = false.
Proof.
  unfold size_number. intros H. apply andb_true_iff in H.
  now apply digits_and_commas_no_char.
Qed.

(** The formats [parse_company_size] reads: a plain or comma-separated
    integer, the same followed by [+], and a range, of which the lower
    bound is read. *)
Lemma parse_company_size_formats lower rest :
  size_number lower = true ->
  parse_company_size lower = Some (digits_value lower)
  /\ parse_company_size (String.append lower "+") = Some (digits_value lower)
  /\ parse_company_size (String.append lower (String "-" rest))
     = Some (digits_value lower).
Proof.
  intros H.
  pose proof (size_number_no_hyphen lower H) as Hh.
  pose proof (size_number_no_plus lower H) as Hp.
  unfold parse_company_size. repeat split.
  - rewrite !contains_single, Hh, Hp, replace_single. now apply int_size_number.
  - rewrite !contains_single, !has_char_app, Hh, Hp. simpl.
    rewrite !replace_single, remove_char_app. simpl.
    rewrite remove_char_app. simpl.
    rewrite (remove_char_absent "+" (remove_char "," lower))
      by (now apply has_char_remove).
    rewrite append_empty_r. now apply int_size_number.
  - rewrite contains_single, has_char_app, Hh. simpl.
    rewrite split_first by assumption.
    rewrite !replace_single.
    rewrite (remove_char_absent "+" (remove_char "," lower))
      by (now apply has_char_remove).
    now apply int_size_number.
Qed.

(** C9: for a record whose [company_size] is a non-empty string, a plain
    or comma-separated integer, the same followed by [+], and a range are
    parsed to the (lower) bound; the criterion adds 1 to [max_score]; it
    adds 1 to [score] exactly when the parsed size lies within
    [min_company_size, max_company_size]; a size that does not parse adds
    nothing to [score]; in each case one reason is recorded. *)
Theorem company_size_scoring (q : qualifier) (contact : dict) (s : string) (t : tally) :
  Dict.get "company_size" contact = Some (VStr s) ->
  s <> "" ->
  (forall lower rest,
      size_number lower = true ->
      s = lower \/ s = String.append lower "+"
      \/ s = String.append lower (String "-" rest) ->
      parse_company_size s = Some (digits_value lower))
  /\ exists t',
       size_criterion q contact t = Some t'
       /\ max_score t' = max_score t + 1
       /\ match parse_company_size s with
          | Some company_size =>
              if within_range q company_size
              then score t' = score t + 1
                   /\ reasons t' = reasons t ++ [size_within_reason company_size]
              else score t' = score t
                   /\ reasons t' = reasons t ++ [size_outside_reason company_size]
          | None =>
              score t' = score t
              /\ reasons t' = reasons t ++ [size_unknown_reason (VStr s)]
          end.
Proof.
  intros Hget Hne. split.
  - intros lower rest Hlower Hs.
    destruct (parse_company_size_formats lower rest Hlower) as (H1 & H2 & H3).
    destruct Hs as [->|[->| ->]]; assumption.
  - unfold size_criterion, with_company_fallback. rewrite Hget.
    assert (Ht : truthy (VStr s) = true).
    { simpl. apply negb_true_iff. now apply String.eqb_neq. }
    change (default VNone (Some (VStr s))) with (VStr s).
    rewrite Ht. cbn iota. rewrite Ht.
    unfold size_criterion_on, within_range.
    destruct (parse_company_size s) as [company_size|].
    + destruct ((min_company_size q <=? company_size)
                && (company_size <=? max_company_size q));
        (eexists; split; [reflexivity|]; simpl; repeat split).
    + eexists; split; [reflexivity|]; simpl; repeat split.
Qed.

(** ** Validation in process_contact_list *)

(** The loop of lines 562-584 handles each record on its own: a record
    with a name, an email or a phone gives one row, any other record one
    error record, and the other records of the batch are not affected. *)
Lemma contact_steps pairs processed errs :
  fold_left contact_step pairs (processed, errs)
  = (processed ++ output_rows (List.map snd pairs), errs ++ invalid_records pairs).
Proof.
  revert processed errs. induction pairs as [|[orig enriched] pairs IH];
    intros processed errs; simpl.
  - now rewrite !app_nil_r.
  - unfold contact_step at 2. simpl.
    destruct (extract_output enriched) as [row|]; rewrite IH; simpl.
    + now rewrite <- app_assoc.
    + now rewrite <- app_assoc.
Qed.

Lemma list_batch_per_record {W : Type}
    (call : list dict -> W -> call_result * list dict * W) (pause : Z -> W -> W)
    batch (st : file_state) enriched_batch batch' w' :
  call batch (file_world st) = (Returned enriched_batch, batch', w') ->
  processed_contacts (list_batch (Some call) pause batch false st)
  = processed_contacts st ++ output_rows (List.map snd (combine batch' enriched_batch))
  /\ errors (list_batch (Some call) pause batch false st)
     = errors st ++ invalid_records (combine batch' enriched_batch).
Proof.
  intros Hcall. unfold list_batch, call_enricher. rewrite Hcall. simpl.
  rewrite contact_steps. simpl. auto.
Qed.

(** ** The reconciliation runs to its end on the records of the data model *)

Lemma normalizes_Some o : normalizes o = true -> exists s, norm_field o = Some s.
Proof. unfold normalizes. destruct (norm_field o); [eauto|discriminate]. Qed.

Lemma index_entry_ok ix r :
  entry_fields_ok r = true -> exists ix', index_entry ix (VDict r) = Some ix'.
Proof.
  unfold entry_fields_ok, index_entry. intros H.
  apply andb_true_iff in H. destruct H as [H H3].
  apply andb_true_iff in H. destruct H as [H1 H2].
  destruct (normalizes_Some _ H1) as [first ->].
  destruct (normalizes_Some _ H2) as [last ->].
  destruct (normalizes_Some _ H3) as [email ->].
  eauto.
Qed.

Lemma build_index_ok rs ix :
  Forall (fun r => entry_fields_ok r = true) rs ->
  exists ix', build_index (List.map VDict rs) ix = Some ix'.
Proof.
  intros H. revert ix. induction H as [|r rs Hr H IH]; intros ix.
  - simpl. eauto.
  - cbn [List.map build_index].
    destruct (index_entry_ok ix r Hr) as [ix1 ->]. apply IH.
Qed.

Lemma store_rel_email_ok received store j :
  Forall (fun r => entry_fields_ok r = true) received ->
  store_rel received store ->
  normalizes (Dict.get "email" (entry store j)) = true.
Proof.
  intros Hok Hrel. unfold entry.
  destruct (store !! j) as [s|] eqn:Hj; [|reflexivity].
  destruct (store_rel_lookup _ _ _ _ Hrel Hj) as (r & Hr & Hs).
  assert (Hrok : normalizes (Dict.get "email" r) = true).
  { apply lookup_In in Hr. rewrite List.Forall_forall in Hok.
    specialize (Hok r Hr). unfold entry_fields_ok in Hok.
    apply andb_true_iff in Hok. apply Hok. }
  simpl. destruct Hs as [->| ->]; [assumption|].
  rewrite hoist_company_get; [assumption| |discriminate].
  simpl. intuition discriminate.
Qed.

Lemma scan_email_ok received store email js :
  Forall (fun r => entry_fields_ok r = true) received ->
  store_rel received store ->
  exists m, scan_email store email js = Some m.
Proof.
  intros Hok Hrel. induction js as [|j js IH]; simpl; [eauto|].
  destruct (normalizes_Some _ (store_rel_email_ok received store j Hok Hrel)) as [e ->].
  destruct (String.eqb e email); eauto.
Qed.

Lemma find_match_ok ix received store contact :
  Forall (fun r => entry_fields_ok r = true) received ->
  store_rel received store ->
  contact_fields_ok contact = true ->
  exists m, find_match ix store contact = Some m.
Proof.
  intros Hok Hrel Hc. unfold contact_fields_ok in Hc. unfold find_match.
  apply andb_true_iff in Hc. destruct Hc as [Hc H3].
  apply andb_true_iff in Hc. destruct Hc as [H1 H2].
  destruct (normalizes_Some _ H1) as [first ->].
  destruct (normalizes_Some _ H2) as [last ->].
  destruct (normalizes_Some _ H3) as [email ->].
  destruct (name_lookup (first, last) (by_name ix)) as [[|j [|j' js]]|]; eauto.
  destruct ((1 <? length (j :: j' :: js))%nat && str_truthy email); [|eauto].
  destruct (scan_email_ok received store email (j :: j' :: js) Hok Hrel) as [m ->].
  eauto.
Qed.

Lemma reconcile_loop_ok ix received contacts :
  Forall (fun r => entry_fields_ok r = true) received ->
  Forall (fun c => contact_fields_ok c = true) contacts ->
  forall store, store_rel received store ->
  exists outs, snd (reconcile_loop ix store contacts) = Some outs.
Proof.
  intros Hok Hcs. induction Hcs as [|c contacts Hc Hcs IH]; intros store Hrel; simpl.
  - eauto.
  - destruct (find_match_ok ix received store c Hok Hrel Hc) as [m Hm].
    destruct (reconcile_contact ix store c) as [[[store' c'] out]|] eqn:Hrc.
    + destruct (reconcile_contact_cases _ _ _ _ _ _ _ Hrel Hrc) as [Hrel' _].
      destruct (IH store' Hrel') as [outs Houts].
      simpl. rewrite Houts. simpl. eauto.
    + unfold reconcile_contact in Hrc. rewrite Hm in Hrc.
      destruct m as [j|]; [destruct (nonempty (entry store j))|]; discriminate.
Qed.

(** When the name and email fields of the contacts and of the response
    entries are strings or absent, no turn raises. *)
Lemma map_VDict_inj (l l' : list dict) : List.map VDict l = List.map VDict l' -> l = l'.
Proof.
  revert l'. induction l as [|x l IH]; intros [|y l'] H; simpl in H; try discriminate.
  - reflexivity.
  - injection H as -> H. f_equal. auto.
Qed.

Lemma reconcile_completes contacts json received :
  results_of json = Some (List.map VDict received) ->
  Forall (fun r => entry_fields_ok r = true) received ->
  Forall (fun c => contact_fields_ok c = true) contacts ->
  exists outs, snd (reconcile contacts json) = Some outs.
Proof.
  intros Hres Hok Hcs. unfold reconcile. rewrite Hres.
  destruct (build_index_ok received (mkIndex [] [] []) Hok) as [ix Hix].
  rewrite Hix.
  pose proof (build_index_entries _ _ _ Hix) as Hent. simpl in Hent.
  apply map_VDict_inj in Hent. rewrite Hent.
  apply (reconcile_loop_ok ix received contacts Hok Hcs), store_rel_refl.
Qed.

(** ** The loops over the batches end within their fuel *)

Section Fuel.

Context {W : Type}.
Variable enricher_call : option (list dict -> W -> call_result * list dict * W).
Variable pause : Z -> W -> W.

(** With a positive batch size, the length of the list is fuel enough: any
    larger amount gives the same state. *)
Lemma file_batches_fuel retries batch_size contact_list :
  (1 <= batch_size)%nat ->
  forall fuel fuel' i (st : file_state),
  (length contact_list <= i + fuel)%nat ->
  (length contact_list <= i + fuel')%nat ->
  file_batches enricher_call pause retries batch_size contact_list fuel i st
  = file_batches enricher_call pause retries batch_size contact_list fuel' i st.
Proof.
  intros Hsize. induction fuel as [|fuel IH]; intros fuel' i st H1 H2.
  - destruct fuel' as [|fuel']; [reflexivity|]. simpl.
    assert (E : (i <? length contact_list)%nat = false) by (apply Nat.ltb_ge; lia).
    now rewrite E.
  - simpl. destruct (i <? length contact_list)%nat eqn:E.
    + apply Nat.ltb_lt in E.
      destruct fuel' as [|fuel']; [lia|]. simpl.
      assert (E' : (i <? length contact_list)%nat = true) by (apply Nat.ltb_lt; lia).
      rewrite E'. apply IH; lia.
    + destruct fuel' as [|fuel']; [reflexivity|]. simpl. now rewrite E.
Qed.

Lemma list_batches_fuel batch_size contact_list :
  (1 <= batch_size)%nat ->
  forall fuel fuel' i (st : file_state),
  (length contact_list <= i + fuel)%nat ->
  (length contact_list <= i + fuel')%nat ->
  list_batches enricher_call pause batch_size contact_list fuel i st
  = list_batches enricher_call pause batch_size contact_list fuel' i st.
Proof.
  intros Hsize. induction fuel as [|fuel IH]; intros fuel' i st H1 H2.
  - destruct fuel' as [|fuel']; [reflexivity|]. simpl.
    assert (E : (i <? length contact_list)%nat = false) by (apply Nat.ltb_ge; lia).
    now rewrite E.
  - simpl. destruct (i <? length contact_list)%nat eqn:E.
    + apply Nat.ltb_lt in E.
      destruct fuel' as [|fuel']; [lia|]. simpl.
      assert (E' : (i <? length contact_list)%nat = true) by (apply Nat.ltb_lt; lia).
      rewrite E'. apply IH; lia.
    + destruct fuel' as [|fuel']; [reflexivity|]. simpl. now rewrite E.
Qed.

End Fuel.

(** ** What the turns of a batch leave of its contacts *)

Lemma zoominfo_attempt_keeps batch (st : @file_state (enricher * world)) :
  Forall2 kept_or_flagged batch (attempt_batch (attempt (Some zoominfo_call) batch st)).
Proof.
  unfold attempt, call_enricher, zoominfo_call. simpl.
  apply contacts_kept_or_flagged.
Qed.

(** Whatever the turns of a batch do, the contacts that end in the error
    records are the input contacts, up to the [zi_enriched] flag. *)
Lemma zoominfo_batch_keeps retries turns :
  forall batch_attempt done batch (st : @file_state (enricher * world)),
  Forall2 kept_or_flagged batch
    (batch_after (batch_attempts (Some zoominfo_call) zoominfo_pause retries turns
                    batch_attempt done batch st)).
Proof.
  induction turns as [|turns IH]; intros batch_attempt done batch st.
  - apply kept_all.
  - cbn [batch_attempts].
    pose proof (zoominfo_attempt_keeps batch st) as Hkept.
    destruct (failure (attempt (Some zoominfo_call) batch st)) as [message|].
    + destruct (batch_attempt <? retries);
        (eapply kept_all_trans; [exact Hkept|apply IH]).
    + exact Hkept.
Qed.

(** ** The reconciler follows the policy on the entries as received *)

Lemma email_lookup_set k k' j m :
  email_lookup k (email_set k' j m)
  = if String.eqb k' k then Some j else email_lookup k m.
Proof.
  induction m as [|[k0 j0] m IH]; simpl.
  - reflexivity.
  - destruct (String.eqb k0 k') eqn:E0; simpl.
    + apply String.eqb_eq in E0. subst k0.
      destruct (String.eqb k' k); reflexivity.
    + destruct (String.eqb k0 k) eqn:E1.
      * apply String.eqb_eq in E1. subst k0.
        rewrite String.eqb_sym, E0. reflexivity.
      * assumption.
Qed.

Lemma last_with_email_app em offset rs d :
  last_with_email em offset (rs ++ [d])
  = if email_matches em d then Some (offset + length rs)%nat
    else last_with_email em offset rs.
Proof.
  revert offset. induction rs as [|r rs IH]; intros offset; simpl.
  - rewrite Nat.add_0_r. reflexivity.
  - rewrite IH. destruct (email_matches em d).
    + f_equal. lia.
    + reflexivity.
Qed.

Lemma index_entry_email_sound ix r ix' :
  index_entry ix r = Some ix' -> by_email_sound ix -> by_email_sound ix'.
Proof.
  unfold index_entry. destruct r; try discriminate.
  destruct (norm_field (Dict.get "firstName" d)) as [first|]; [|discriminate].
  destruct (norm_field (Dict.get "lastName" d)) as [last|]; [|discriminate].
  destruct (norm_field (Dict.get "email" d)) as [email|] eqn:E; [|discriminate].
  intros [= <-] Hs em Hem. simpl.
  rewrite last_with_email_app, <- (Hs em Hem).
  unfold email_matches. rewrite E.
  destruct (str_truthy email) eqn:Ht.
  - rewrite email_lookup_set. reflexivity.
  - unfold str_truthy in Ht, Hem. apply negb_false_iff, String.eqb_eq in Ht. subst email.
    apply negb_true_iff in Hem. rewrite String.eqb_sym, Hem. reflexivity.
Qed.

Lemma build_index_email_sound results ix ix' :
  build_index results ix = Some ix' -> by_email_sound ix -> by_email_sound ix'.
Proof.
  revert ix. induction results as [|r results IH]; intros ix; simpl.
  - now intros [= <-].
  - destruct (index_entry ix r) as [ix1|] eqn:E; [|discriminate].
    intros H Hs. eapply IH; [eassumption|]. eapply index_entry_email_sound; eassumption.
Qed.

(** The results that can be indexed are dictionaries whose name and email
    fields are strings or absent. *)
Lemma build_index_dicts results ix ix' :
  build_index results ix = Some ix' ->
  exists rs, results = List.map VDict rs
             /\ Forall (fun r => entry_fields_ok r = true) rs.
Proof.
  revert ix. induction results as [|r results IH]; intros ix; simpl.
  - intros _. exists []. split; [reflexivity|constructor].
  - destruct (index_entry ix r) as [ix1|] eqn:E; [|discriminate].
    intros H. destruct (IH _ H) as (rs & -> & Hok).
    unfold index_entry in E. destruct r; try discriminate.
    exists (d :: rs). split; [reflexivity|]. constructor; [|assumption].
    unfold entry_fields_ok, normalizes.
    destruct (norm_field (Dict.get "firstName" d)); [|discriminate].
    destruct (norm_field (Dict.get "lastName" d)); [|discriminate].
    destruct (norm_field (Dict.get "email" d)); [|discriminate].
    reflexivity.
Qed.

Lemma entry_rel received store j :
  store_rel received store ->
  entry store j = entry received j \/ entry store j = hoist_company (entry received j).
Proof.
  intros H. revert j. induction H as [|r s received store Hrs H IH]; intros j.
  - left. reflexivity.
  - destruct j as [|j]; [|apply IH].
    unfold entry. simpl. destruct Hrs as [->| ->]; auto.
Qed.

Lemma entry_rel_email received store j :
  store_rel received store ->
  Dict.get "email" (entry store j) = Dict.get "email" (entry received j).
Proof.
  intros H. destruct (entry_rel received store j H) as [->| ->]; [reflexivity|].
  apply hoist_company_get; [|discriminate].
  simpl. intuition discriminate.
Qed.

Lemma entry_rel_nonempty received store j :
  store_rel received store ->
  nonempty (entry store j) = nonempty (entry received j).
Proof.
  intros H. destruct (entry_rel received store j H) as [->| ->]; [reflexivity|].
  apply hoist_company_nonempty.
Qed.

Lemma entry_rel_from_external received store j :
  store_rel received store ->
  from_external (entry store j) = from_external (entry received j).
Proof.
  intros H. destruct (entry_rel received store j H) as [->| ->]; [reflexivity|].
  apply from_external_hoisted.
Qed.

Lemma entry_email_normalizes received j :
  Forall (fun r => entry_fields_ok r = true) received ->
  normalizes (Dict.get "email" (entry received j)) = true.
Proof.
  intros Hok. unfold entry.
  destruct (received !! j) as [r|] eqn:Hj; [|reflexivity].
  apply lookup_In in Hj. rewrite List.Forall_forall in Hok.
  specialize (Hok r Hj). unfold entry_fields_ok in Hok.
  apply andb_true_iff in Hok. apply Hok.
Qed.

Lemma scan_email_policy received store em js :
  store_rel received store ->
  Forall (fun r => entry_fields_ok r = true) received ->
  scan_email store em js = Some (first_with_email em received js).
Proof.
  intros Hrel Hok. induction js as [|j js IH]; simpl; [reflexivity|].
  rewrite (entry_rel_email received store j Hrel).
  unfold email_matches.
  destruct (normalizes_Some _ (entry_email_normalizes received j Hok)) as [e ->].
  destruct (String.eqb e em); [reflexivity|assumption].
Qed.

Lemma entry_truthy_rel received store m :
  store_rel received store -> entry_truthy store m = entry_truthy received m.
Proof.
  intros H. destruct m as [j|]; [|reflexivity]. simpl.
  now apply entry_rel_nonempty.
Qed.

(** [find_match] reads the policy off the entries as received, whatever
    the earlier turns of the loop did to them. *)
Lemma find_match_policy ix received store contact k em :
  by_name_sound ix -> by_email_sound ix -> entries ix = received ->
  store_rel received store ->
  Forall (fun r => entry_fields_ok r = true) received ->
  contact_key contact = Some k ->
  norm_field (Dict.get "email" contact) = Some em ->
  find_match ix store contact = Some (chosen_entry received k em).
Proof.
  intros Hname Hemail Hent Hrel Hok Hk Hem.
  unfold contact_key in Hk. unfold find_match, chosen_entry.
  destruct (norm_field (Dict.get "first_name" contact)) as [first|]; [|discriminate].
  destruct (norm_field (Dict.get "last_name" contact)) as [last|]; [|discriminate].
  injection Hk as <-. rewrite Hem, (Hname (first, last)), Hent.
  assert (Hsecond : forall by_nm,
             Some (if negb (entry_truthy store by_nm) && str_truthy em
                   then match email_lookup em (by_email ix) with
                        | Some j => Some j
                        | None => by_nm
                        end
                   else by_nm)
             = Some (if negb (entry_truthy received by_nm) && str_truthy em
                     then match last_with_email em O received with
                          | Some j => Some j
                          | None => by_nm
                          end
                     else by_nm)).
  { intros by_nm. rewrite (entry_truthy_rel received store by_nm Hrel).
    destruct (str_truthy em) eqn:Ht.
    - now rewrite (Hemail em Ht), Hent.
    - now rewrite andb_false_r. }
  destruct (key_positions (first, last) 0 received) as [|j [|j' js]].
  - apply Hsecond.
  - apply Hsecond.
  - change (1 <? length (j :: j' :: js))%nat with true. cbn [andb].
    destruct (str_truthy em).
    + rewrite (scan_email_policy received store em (j :: j' :: js) Hrel Hok).
      apply Hsecond.
    + apply Hsecond.
Qed.

Lemma reconcile_contact_policy ix received store contact store' contact' out :
  by_name_sound ix -> by_email_sound ix -> entries ix = received ->
  store_rel received store ->
  Forall (fun r => entry_fields_ok r = true) received ->
  reconcile_contact ix store contact = Some (store', contact', out) ->
  reconciled received contact = Some out.
Proof.
  intros Hname Hemail Hent Hrel Hok. unfold reconcile_contact, reconciled.
  destruct (contact_key contact) as [k|] eqn:Hk.
  - destruct (norm_field (Dict.get "email" contact)) as [em|] eqn:Hem.
    + rewrite (find_match_policy ix received store contact k em
                 Hname Hemail Hent Hrel Hok Hk Hem).
      destruct (chosen_entry received k em) as [j|].
      * rewrite (entry_rel_nonempty received store j Hrel).
        destruct (nonempty (entry received j)); intros [= _ _ <-]; [|reflexivity].
        unfold merge_enriched. do 3 f_equal.
        symmetry. exact (entry_rel_from_external received store j Hrel).
      * now intros [= _ _ <-].
    + unfold find_match.
      destruct (norm_field (Dict.get "first_name" contact)); [|discriminate].
      destruct (norm_field (Dict.get "last_name" contact)); [|discriminate].
      rewrite Hem. discriminate.
  - unfold find_match. unfold contact_key in Hk.
    destruct (norm_field (Dict.get "first_name" contact)); [|discriminate].
    destruct (norm_field (Dict.get "last_name" contact)); discriminate.
Qed.

Lemma reconcile_loop_policy ix received contacts :
  by_name_sound ix -> by_email_sound ix -> entries ix = received ->
  Forall (fun r => entry_fields_ok r = true) received ->
  forall store outs,
  store_rel received store ->
  snd (reconcile_loop ix store contacts) = Some outs ->
  Forall2 (fun contact out => reconciled received contact = Some out) contacts outs.
Proof.
  intros Hname Hemail Hent Hok.
  induction contacts as [|c contacts IH]; intros store outs Hrel; simpl.
  - intros [= <-]. constructor.
  - destruct (reconcile_contact ix store c) as [[[store' c'] out]|] eqn:Hc; [|discriminate].
    simpl.
    destruct (snd (reconcile_loop ix store' contacts)) as [outs'|] eqn:Hrest; [|discriminate].
    intros [= <-].
    destruct (reconcile_contact_cases _ _ _ _ _ _ _ Hrel Hc) as [Hrel' _].
    constructor.
    + exact (reconcile_contact_policy ix received store c store' c' out
               Hname Hemail Hent Hrel Hok Hc).
    + exact (IH store' outs' Hrel' Hrest).
Qed.

(** When the reconciliation runs to its end, the results are dictionaries
    and every returned record is the one the policy gives on them. *)
Lemma reconcile_policy contacts json results outs :
  results_of json = Some results ->
  snd (reconcile contacts json) = Some outs ->
  exists received,
    results = List.map VDict received
    /\ Forall (fun r => entry_fields_ok r = true) received
    /\ Forall2 (fun contact out => reconciled received contact = Some out) contacts outs.
Proof.
  intros Hres Houts. unfold reconcile in Houts. rewrite Hres in Houts.
  destruct (build_index results (mkIndex [] [] [])) as [ix|] eqn:Hix; [|discriminate].
  destruct (build_index_dicts _ _ _ Hix) as (received & -> & Hok).
  exists received. split; [reflexivity|]. split; [assumption|].
  pose proof (build_index_entries _ _ _ Hix) as Hent. simpl in Hent.
  apply map_VDict_inj in Hent.
  assert (Hname : by_name_sound ix).
  { eapply build_index_sound; [eassumption|]. intros k. reflexivity. }
  assert (Hemail : by_email_sound ix).
  { eapply build_index_email_sound; [eassumption|]. intros em _. reflexivity. }
  rewrite Hent in Houts.
  eapply reconcile_loop_policy; try eassumption. apply store_rel_refl.
Qed.

Lemma key_matches_iff k r : key_matches k r = true <-> entry_key r = Some k.
Proof.
  unfold key_matches. destruct (entry_key r) as [k'|]; split; try discriminate.
  - intros H. apply name_key_eqb_eq in H. now subst.
  - intros [= ->]. apply name_key_eqb_refl.
Qed.

Lemma email_matches_iff em r :
  email_matches em r = true <-> norm_field (Dict.get "email" r) = Some em.
Proof.
  unfold email_matches. destruct (norm_field (Dict.get "email" r)) as [e|]; split;
    try discriminate.
  - intros H. apply String.eqb_eq in H. now subst.
  - intros [= ->]. apply String.eqb_refl.
Qed.

Lemma email_matches_false em r :
  norm_field (Dict.get "email" r) <> Some em -> email_matches em r = false.
Proof.
  intros H. destruct (email_matches em r) eqn:E; [|reflexivity].
  apply email_matches_iff in E. contradiction.
Qed.

Lemma email_matches_nonempty em r :
  str_truthy em = true -> email_matches em r = true -> nonempty r = true.
Proof.
  intros Hem H. destruct r; [|reflexivity].
  change (email_matches em []) with (String.eqb "" em) in H.
  unfold str_truthy in Hem.
  apply negb_true_iff in Hem. rewrite String.eqb_sym in Hem. congruence.
Qed.

Lemma last_with_email_none em offset rs :
  (forall j r, rs !! j = Some r -> email_matches em r = false) ->
  last_with_email em offset rs = None.
Proof.
  revert offset. induction rs as [|r rs IH]; intros offset H; simpl; [reflexivity|].
  rewrite IH by (intros j r' Hj; apply (H (S j)); assumption).
  now rewrite (H O r eq_refl).
Qed.

Lemma last_with_email_at em offset rs j r :
  rs !! j = Some r -> email_matches em r = true ->
  (forall j' r', (j < j')%nat -> rs !! j' = Some r' -> email_matches em r' = false) ->
  last_with_email em offset rs = Some (offset + j)%nat.
Proof.
  revert offset j. induction rs as [|r0 rs IH]; intros offset j Hj Hm Hlater.
  - discriminate.
  - destruct j as [|j]; simpl in *.
    + injection Hj as ->.
      rewrite last_with_email_none, Hm, Nat.add_0_r; [reflexivity|].
      intros j' r' Hj'. apply (Hlater (S j')); [lia|assumption].
    + rewrite (IH (S offset) j Hj Hm).
      * f_equal. lia.
      * intros j' r' Hlt Hj'. apply (Hlater (S j')); [lia|assumption].
Qed.

Lemma entry_middle (pre : list dict) r rs : entry (pre ++ r :: rs) (length pre) = r.
Proof. unfold entry. now rewrite list_lookup_middle. Qed.

(** Among the entries with name key [k], taken in the order of the
    response, the scan stops at the first one with email [em]. *)
Lemma first_with_email_at em k received :
  forall rs pre j r,
  received = pre ++ rs ->
  rs !! j = Some r -> key_matches k r = true -> email_matches em r = true ->
  (forall j' r', (j' < j)%nat -> rs !! j' = Some r' -> key_matches k r' = true ->
                 email_matches em r' = false) ->
  first_with_email em received (key_positions k (length pre) rs)
  = Some (length pre + j)%nat.
Proof.
  induction rs as [|r0 rs IH]; intros pre j r Hrec Hj Hk Hm Hfirst.
  - discriminate.
  - destruct j as [|j]; simpl in Hj.
    + injection Hj as ->. simpl. rewrite Hk. simpl.
      rewrite Hrec, entry_middle, Hm. f_equal. lia.
    + assert (Hrec' : received = (pre ++ [r0]) ++ rs) by (now rewrite <- app_assoc).
      assert (Hlen : length (pre ++ [r0]) = S (length pre))
        by (rewrite length_app; simpl; lia).
      pose proof (IH (pre ++ [r0]) j r Hrec' Hj Hk Hm) as IH'.
      rewrite Hlen in IH'.
      assert (Hrest : first_with_email em received (key_positions k (S (length pre)) rs)
                      = Some (length pre + S j)%nat).
      { rewrite IH'; [f_equal; lia|].
        intros j' r' Hlt Hj'. apply (Hfirst (S j')); [lia|assumption]. }
      simpl. destruct (key_matches k r0) eqn:Hk0; simpl; [|exact Hrest].
      rewrite Hrec at 1. rewrite entry_middle.
      rewrite (Hfirst O r0) by (lia || auto). exact Hrest.
Qed.

Lemma key_positions_In k offset rs j r :
  rs !! j = Some r -> key_matches k r = true ->
  In (offset + j)%nat (key_positions k offset rs).
Proof.
  revert offset j. induction rs as [|r0 rs IH]; intros offset j Hj Hk.
  - discriminate.
  - simpl. apply in_or_app. destruct j as [|j]; simpl in Hj.
    + injection Hj as ->. left. rewrite Hk, Nat.add_0_r. now left.
    + right. replace (offset + S j)%nat with (S offset + j)%nat by lia.
      now apply IH.
Qed.

(** Two entries with the name key: the lookup by name is ambiguous. *)
Lemma key_positions_several k rs j1 j2 r1 r2 :
  j1 <> j2 ->
  rs !! j1 = Some r1 -> key_matches k r1 = true ->
  rs !! j2 = Some r2 -> key_matches k r2 = true ->
  exists a b js, key_positions k O rs = a :: b :: js.
Proof.
  intros Hne H1 Hk1 H2 Hk2.
  pose proof (key_positions_In k O rs j1 r1 H1 Hk1) as I1.
  pose proof (key_positions_In k O rs j2 r2 H2 Hk2) as I2.
  simpl in I1, I2.
  destruct (key_positions k O rs) as [|a [|b js]].
  - destruct I1.
  - simpl in I1, I2. exfalso. intuition congruence.
  - eauto.
Qed.

(** The record returned for the contact at position [i]. *)
Lemma reconcile_policy_lookup contacts json results outs i contact k em :
  results_of json = Some results ->
  snd (reconcile contacts json) = Some outs ->
  contacts !! i = Some contact ->
  contact_key contact = Some k ->
  norm_field (Dict.get "email" contact) = Some em ->
  exists received,
    results = List.map VDict received
    /\ outs !! i
       = Some (match chosen_entry received k em with
               | Some j =>
                   if nonempty (entry received j)
                   then merge_enriched contact (from_external (entry received j))
                   else flag_unenriched contact
               | None => flag_unenriched contact
               end).
Proof.
  intros Hres Houts Hi Hk Hem.
  destruct (reconcile_policy contacts json results outs Hres Houts)
    as (received & -> & _ & Hall).
  exists received. split; [reflexivity|].
  destruct (Forall2_lookup_l _ _ _ _ _ Hall Hi) as (out & Hout & Hspec).
  rewrite Hout. unfold reconciled in Hspec. rewrite Hk, Hem in Hspec.
  symmetry. exact Hspec.
Qed.

Lemma entry_lookup (store : list dict) j r : store !! j = Some r -> entry store j = r.
Proof. intros H. unfold entry. unfold dict in H |- *. now rewrite H. Qed.

Lemma str_truthy_ne s : s <> "" -> str_truthy s = true.
Proof.
  intros H. unfold str_truthy. apply negb_true_iff.
  destruct (String.eqb s "") eqn:E; [|reflexivity].
  apply String.eqb_eq in E. contradiction.
Qed.

Lemma key_positions_In_inv k offset rs p :
  In p (key_positions k offset rs) ->
  exists j r, p = (offset + j)%nat /\ rs !! j = Some r /\ key_matches k r = true.
Proof.
  revert offset. induction rs as [|r0 rs IH]; intros offset H; simpl in H.
  - destruct H.
  - apply in_app_or in H. destruct H as [H|H].
    + destruct (key_matches k r0) eqn:Hk; simpl in H; [|destruct H].
      destruct H as [<-|[]]. exists O, r0. rewrite Nat.add_0_r. auto.
    + destruct (IH _ H) as (j & r & -> & Hj & Hk).
      exists (S j), r. repeat split; [lia|assumption|assumption].
Qed.

Lemma first_with_email_none_in em rs js :
  (forall j, In j js -> email_matches em (entry rs j) = false) ->
  first_with_email em rs js = None.
Proof.
  induction js as [|j js IH]; intros H; simpl; [reflexivity|].
  rewrite (H j) by now left.
  apply IH. intros j' Hj'. apply H. now right.
Qed.

(** When the lookup by name gives nothing (the key is shared by no entry,
    or by several of which none has the contact's email), the entry is
    the one of the email index, for a contact that has an email. *)
Lemma chosen_entry_by_email received k em :
  (forall j r, received !! j = Some r -> key_matches k r = true ->
     exists j2 r2, j2 <> j /\ received !! j2 = Some r2 /\ key_matches k r2 = true) ->
  (str_truthy em = true ->
   forall j r, received !! j = Some r -> key_matches k r = true ->
               email_matches em r = false) ->
  chosen_entry received k em
  = if str_truthy em then last_with_email em O received else None.
Proof.
  intros Hseveral Hnone. unfold chosen_entry.
  destruct (key_positions k O received) as [|a [|b js]] eqn:Hkp.
  - simpl. destruct (str_truthy em); [|reflexivity].
    now destruct (last_with_email em O received).
  - exfalso.
    assert (Ha : In a (key_positions k O received)) by (rewrite Hkp; now left).
    destruct (key_positions_In_inv _ _ _ _ Ha) as (j & r & _ & Hj & Hk).
    destruct (Hseveral j r Hj Hk) as (j2 & r2 & Hne & Hj2 & Hk2).
    destruct (key_positions_several k received j2 j r2 r Hne Hj2 Hk2 Hj Hk)
      as (x & y & zs & Hxy).
    congruence.
  - destruct (str_truthy em) eqn:Hem; [|reflexivity].
    rewrite first_with_email_none_in.
    + simpl. now destruct (last_with_email em O received).
    + intros p Hp. rewrite <- Hkp in Hp.
      destruct (key_positions_In_inv _ _ _ _ Hp) as (j & r & Hpj & Hj & Hk).
      rewrite Nat.add_0_l in Hpj. subst p. rewrite (entry_lookup _ _ _ Hj).
      exact (Hnone eq_refl j r Hj Hk).
Qed.

(** When several entries share the name key, the entry is the first of
    them that has the contact's email. *)
Lemma chosen_entry_by_name_and_email received k em j r j2 r2 :
  str_truthy em = true ->
  received !! j = Some r -> key_matches k r = true -> email_matches em r = true ->
  (forall j' r', (j' < j)%nat -> received !! j' = Some r' -> key_matches k r' = true ->
                 email_matches em r' = false) ->
  j2 <> j -> received !! j2 = Some r2 -> key_matches k r2 = true ->
  chosen_entry received k em = Some j.
Proof.
  intros Hem Hj Hk Hm Hfirst Hne Hj2 Hk2. unfold chosen_entry.
  destruct (key_positions_several k received j j2 r r2 (not_eq_sym Hne) Hj Hk Hj2 Hk2)
    as (a & b & js & Hkp).
  pose proof (first_with_email_at em k received received [] j r eq_refl Hj Hk Hm Hfirst)
    as Hscan.
  simpl in Hscan. rewrite Hkp in Hscan. rewrite Hkp, Hem, Hscan.
  unfold entry_truthy. rewrite (entry_lookup _ _ _ Hj). simpl.
  now rewrite (email_matches_nonempty em r Hem Hm).
Qed.

(** X1. The record returned for a contact depends on the contact and on
    the response alone: the same contact, at any position of any batch
    reconciled against the same response, gets the same record, whatever
    contacts come before it and although the entries matched before it
    have been changed in place. *)
Theorem reconciliation_independent_of_batch
    contacts1 contacts2 json results outs1 outs2 i1 i2 contact :
  results_of json = Some results ->
  snd (reconcile contacts1 json) = Some outs1 ->
  snd (reconcile contacts2 json) = Some outs2 ->
  contacts1 !! i1 = Some contact ->
  contacts2 !! i2 = Some contact ->
  outs1 !! i1 = outs2 !! i2.
Proof.
  intros Hres H1 H2 Hi1 Hi2.
  destruct (reconcile_policy contacts1 json results outs1 Hres H1)
    as (received & Hrec & _ & Hall1).
  destruct (reconcile_policy contacts2 json results outs2 Hres H2)
    as (received' & Hrec' & _ & Hall2).
  assert (received' = received) as -> by (apply map_VDict_inj; congruence).
  destruct (Forall2_lookup_l _ _ _ _ _ Hall1 Hi1) as (o1 & Ho1 & Hs1).
  destruct (Forall2_lookup_l _ _ _ _ _ Hall2 Hi2) as (o2 & Ho2 & Hs2).
  rewrite Ho1, Ho2. congruence.
Qed.

(** X2. Email disambiguation (lines 269-275): when at least two response
    entries share the contact's name key and the contact has a non-empty
    normalized email, the contact is matched to the first entry, in the
    order of the response, that has both the name key and that email. *)
Theorem shared_name_resolved_by_email
    contacts json results outs i contact k em j matched j2 other2 :
  results_of json = Some results ->
  snd (reconcile contacts json) = Some outs ->
  contacts !! i = Some contact ->
  contact_key contact = Some k ->
  norm_field (Dict.get "email" contact) = Some em ->
  em <> "" ->
  results !! j = Some (VDict matched) ->
  entry_key matched = Some k ->
  norm_field (Dict.get "email" matched) = Some em ->
  (forall j' other, (j' < j)%nat -> results !! j' = Some (VDict other) ->
     entry_key other = Some k -> norm_field (Dict.get "email" other) <> Some em) ->
  j2 <> j ->
  results !! j2 = Some (VDict other2) ->
  entry_key other2 = Some k ->
  outs !! i = Some (merge_enriched contact (from_external matched)).
Proof.
  intros Hres Houts Hi Hk Hem Hne Hj Hkj Hej Hfirst Hne2 Hj2 Hk2.
  destruct (reconcile_policy_lookup contacts json results outs i contact k em
              Hres Houts Hi Hk Hem) as (received & Hrec & ->).
  symmetry in Hrec.
  pose proof (map_VDict_lookup _ _ _ _ Hrec Hj) as Hrj.
  pose proof (map_VDict_lookup _ _ _ _ Hrec Hj2) as Hrj2.
  pose proof (str_truthy_ne em Hne) as Htruthy.
  assert (Hm : email_matches em matched = true) by now apply email_matches_iff.
  rewrite (chosen_entry_by_name_and_email received k em j matched j2 other2); auto.
  - rewrite (entry_lookup _ _ _ Hrj).
    now rewrite (email_matches_nonempty em matched Htruthy Hm).
  - now apply key_matches_iff.
  - intros j' r' Hlt Hj' Hk'. apply email_matches_false.
    apply (Hfirst j' r' Hlt).
    + rewrite <- Hrec. now apply map_VDict_lookup_inv.
    + now apply key_matches_iff.
  - now apply key_matches_iff.
Qed.

(** X3. Email fallback (lines 277-278) with last-write-wins: when the
    contact's name key is shared by no response entry, or by several of
    which none has the contact's email, and the contact has a non-empty
    normalized email, the contact is matched to the last entry of the
    response that has this email, whatever the name in that entry. *)
Theorem email_fallback_takes_last_entry
    contacts json results outs i contact k em j matched :
  results_of json = Some results ->
  snd (reconcile contacts json) = Some outs ->
  contacts !! i = Some contact ->
  contact_key contact = Some k ->
  norm_field (Dict.get "email" contact) = Some em ->
  em <> "" ->
  (forall j1 other, results !! j1 = Some (VDict other) -> entry_key other = Some k ->
     exists j2 other2, j2 <> j1 /\ results !! j2 = Some (VDict other2)
                       /\ entry_key other2 = Some k) ->
  (forall j1 other, results !! j1 = Some (VDict other) -> entry_key other = Some k ->
     norm_field (Dict.get "email" other) <> Some em) ->
  results !! j = Some (VDict matched) ->
  norm_field (Dict.get "email" matched) = Some em ->
  (forall j' other, (j < j')%nat -> results !! j' = Some (VDict other) ->
     norm_field (Dict.get "email" other) <> Some em) ->
  outs !! i = Some (merge_enriched contact (from_external matched)).
Proof.
  intros Hres Houts Hi Hk Hem Hne Hseveral Hnone Hj Hej Hlast.
  destruct (reconcile_policy_lookup contacts json results outs i contact k em
              Hres Houts Hi Hk Hem) as (received & Hrec & ->).
  symmetry in Hrec.
  pose proof (map_VDict_lookup _ _ _ _ Hrec Hj) as Hrj.
  pose proof (str_truthy_ne em Hne) as Htruthy.
  assert (Hm : email_matches em matched = true) by now apply email_matches_iff.
  rewrite chosen_entry_by_email, Htruthy.
  - rewrite (last_with_email_at em O received j matched Hrj Hm).
    + simpl. rewrite (entry_lookup _ _ _ Hrj).
      now rewrite (email_matches_nonempty em matched Htruthy Hm).
    + intros j' r' Hlt Hj'. apply email_matches_false. apply (Hlast j' r' Hlt).
      rewrite <- Hrec. now apply map_VDict_lookup_inv.
  - intros j1 r1 Hj1 Hk1.
    destruct (Hseveral j1 r1) as (j2 & r2 & Hne2 & Hj2 & Hk2).
    + rewrite <- Hrec. now apply map_VDict_lookup_inv.
    + now apply key_matches_iff.
    + exists j2, r2. repeat split; [assumption| |now apply key_matches_iff].
      exact (map_VDict_lookup _ _ _ _ Hrec Hj2).
  - intros _ j1 r1 Hj1 Hk1. apply email_matches_false. apply (Hnone j1 r1).
    + rewrite <- Hrec. now apply map_VDict_lookup_inv.
    + now apply key_matches_iff.
Qed.

(** X4. No match (lines 298-301): when the contact's name key is shared by
    no response entry or by at least two, and the contact has no email or
    an email that no entry has, the contact is returned with
    [zi_enriched] set to [False] and its other fields as they were. *)
Theorem unmatched_contact_is_flagged
    contacts json results outs i contact k em :
  results_of json = Some results ->
  snd (reconcile contacts json) = Some outs ->
  contacts !! i = Some contact ->
  contact_key contact = Some k ->
  norm_field (Dict.get "email" contact) = Some em ->
  (forall j1 other, results !! j1 = Some (VDict other) -> entry_key other = Some k ->
     exists j2 other2, j2 <> j1 /\ results !! j2 = Some (VDict other2)
                       /\ entry_key other2 = Some k) ->
  (em = ""
   \/ forall j other, results !! j = Some (VDict other) ->
        norm_field (Dict.get "email" other) <> Some em) ->
  outs !! i = Some (flag_unenriched contact).
Proof.
  intros Hres Houts Hi Hk Hem Hseveral Hnone.
  destruct (reconcile_policy_lookup contacts json results outs i contact k em
              Hres Houts Hi Hk Hem) as (received & Hrec & ->).
  symmetry in Hrec.
  assert (Hfalse : str_truthy em = true ->
                   forall j r, received !! j = Some r -> email_matches em r = false).
  { intros Htruthy j r Hj. destruct Hnone as [->|Hnone]; [discriminate|].
    apply email_matches_false. apply (Hnone j r).
    rewrite <- Hrec. now apply map_VDict_lookup_inv. }
  rewrite chosen_entry_by_email.
  - destruct (str_truthy em) eqn:Htruthy; [|reflexivity].
    rewrite last_with_email_none; [reflexivity|].
    intros j r Hj. exact (Hfalse eq_refl j r Hj).
  - intros j1 r1 Hj1 Hk1.
    destruct (Hseveral j1 r1) as (j2 & r2 & Hne2 & Hj2 & Hk2).
    + rewrite <- Hrec. now apply map_VDict_lookup_inv.
    + now apply key_matches_iff.
    + exists j2, r2. repeat split; [assumption| |now apply key_matches_iff].
      exact (map_VDict_lookup _ _ _ _ Hrec Hj2).
  - intros Htruthy j r Hj _. exact (Hfalse Htruthy j r Hj).
Qed.


(** ** What a match leaves in the record (lines 281-296) *)

Lemma mem_keys k d : Dict.get k d = None <-> ~ In k (Dict.keys d).
Proof.
  induction d as [|[k' v'] d IH]; simpl.
  - split; [intros _ []|reflexivity].
  - destruct (String.eqb k' k) eqn:E.
    + apply String.eqb_eq in E. subst k'.
      split; [discriminate|]. intros H. exfalso. apply H. now left.
    + apply String.eqb_neq in E. rewrite IH. split.
      * intros H [E'|Hin]; [contradiction|exact (H Hin)].
      * intros H Hin. apply H. now right.
Qed.

Lemma set_keys k v d :
  Dict.keys (Dict.set k v d)
  = match Dict.get k d with Some _ => Dict.keys d | None => Dict.keys d ++ [k] end.
Proof.
  induction d as [|[k' v'] d IH]; simpl; [reflexivity|].
  destruct (String.eqb k' k) eqn:E; simpl.
  - apply String.eqb_eq in E. now subst k'.
  - rewrite IH. now destruct (Dict.get k d).
Qed.

Lemma set_keys_NoDup k v d :
  List.NoDup (Dict.keys d) -> List.NoDup (Dict.keys (Dict.set k v d)).
Proof.
  intros H. rewrite set_keys. destruct (Dict.get k d) eqn:E; [assumption|].
  apply mem_keys in E.
  apply List.NoDup_app; repeat split; try assumption.
  - constructor; [intros []|constructor].
  - intros x Hx [<-|[]]. contradiction.
Qed.

Lemma standardize_keys_NoDup d : List.NoDup (Dict.keys (standardize d)).
Proof.
  unfold standardize.
  assert (H : List.NoDup (Dict.keys [])) by constructor.
  revert H. generalize (@nil (string * value)).
  induction d as [|kv d IH]; intros acc H; simpl; [assumption|].
  apply IH. destruct (String.eqb (fst kv) "company"); now apply set_keys_NoDup.
Qed.

(** [{**a, **b}] when the keys of [b] are distinct, as those of a Python
    dictionary are. *)
Lemma get_merge k a b :
  List.NoDup (Dict.keys b) ->
  Dict.get k (Dict.merge a b)
  = match Dict.get k b with Some v => Some v | None => Dict.get k a end.
Proof.
  unfold Dict.merge. revert a.
  induction b as [|[k' v'] b IH]; intros a Hnd; simpl; [reflexivity|].
  simpl in Hnd. apply List.NoDup_cons_iff in Hnd. destruct Hnd as [Hout Hnd].
  rewrite (IH _ Hnd).
  destruct (String.eqb k' k) eqn:E.
  - apply String.eqb_eq in E. subst k'.
    apply mem_keys in Hout. rewrite Hout. apply get_set_eq.
  - apply String.eqb_neq in E.
    destruct (Dict.get k b); [reflexivity|]. now apply get_set_ne.
Qed.

Lemma fold_hoist_info_other keys d info s :
  ~ In s (List.map company_info_key keys) ->
  Dict.get s (snd (fold_left hoist_step keys (d, info))) = Dict.get s info.
Proof.
  revert d info. induction keys as [|key keys IH]; intros d info Hout; simpl;
    [reflexivity|].
  simpl in Hout. unfold hoist_step at 2. simpl.
  destruct (Dict.get key d).
  - rewrite IH by (intros Hin; apply Hout; now right).
    apply get_set_ne. intros E. apply Hout. now left.
  - apply IH. intros Hin. apply Hout. now right.
Qed.

Lemma fold_hoist_value keys d info key v :
  List.NoDup (List.map company_info_key keys) ->
  In key keys -> Dict.get key d = Some v ->
  Dict.get (company_info_key key) (snd (fold_left hoist_step keys (d, info))) = Some v.
Proof.
  revert d info. induction keys as [|key0 keys IH]; intros d info Hnd Hin Hget;
    [destruct Hin|].
  simpl in Hnd. apply List.NoDup_cons_iff in Hnd. destruct Hnd as [Hout Hnd].
  simpl. unfold hoist_step at 2. simpl.
  destruct (String.eqb key0 key) eqn:E.
  - apply String.eqb_eq in E. subst key0. rewrite Hget.
    rewrite fold_hoist_info_other by assumption. apply get_set_eq.
  - apply String.eqb_neq in E.
    destruct Hin as [Hin|Hin]; [contradiction|].
    destruct (Dict.get key0 d).
    + apply IH; try assumption. now rewrite get_remove_ne.
    + now apply IH.
Qed.

Lemma fold_hoist_found keys d info key v :
  In key keys -> Dict.get key d = Some v ->
  nonempty (snd (fold_left hoist_step keys (d, info))) = true.
Proof.
  revert d info. induction keys as [|key0 keys IH]; intros d info Hin Hget;
    [destruct Hin|].
  simpl. unfold hoist_step at 2. simpl.
  destruct (String.eqb key0 key) eqn:E.
  - apply String.eqb_eq in E. subst key0. rewrite Hget.
    apply fold_hoist_info_nonempty, set_nonempty.
  - apply String.eqb_neq in E.
    destruct Hin as [Hin|Hin]; [contradiction|].
    destruct (Dict.get key0 d).
    + apply fold_hoist_info_nonempty, set_nonempty.
    + now apply IH.
Qed.

Lemma company_info_keys :
  List.map (fun key => (key, company_info_key key)) company_keys
  = [("companyName", "name"); ("companyDomain", "domain"); ("companyId", "id");
     ("industry", "industry"); ("companyRevenue", "revenue");
     ("companyEmployees", "employees"); ("companyLocation", "location")].
Proof. vm_compute. reflexivity. Qed.

(** X5. Merge precedence (lines 295-296): in the record of a matched
    contact, [zi_enriched] is [True]; every other field holds the value of
    the standardized response entry when the entry has the field, and the
    contact's own value otherwise. *)
Theorem enriched_fields_override (contact enriched : dict) (k : string) :
  Dict.get k (merge_enriched contact (from_external enriched))
  = if String.eqb k "zi_enriched" then Some (VBool true)
    else match Dict.get k (from_external enriched) with
         | Some v => Some v
         | None => Dict.get k contact
         end.
Proof.
  unfold merge_enriched.
  destruct (String.eqb k "zi_enriched") eqn:E.
  - apply String.eqb_eq in E. subst k. apply get_set_eq.
  - apply String.eqb_neq in E.
    rewrite get_set_ne by congruence.
    apply get_merge. unfold from_external. apply standardize_keys_NoDup.
Qed.

(** X6. Company fields (lines 281-287): a matched response entry that has
    one of the seven company fields is left with a [company] dictionary
    that holds the field's value under its short name, and without the
    field at its top level; whatever [company] held before is replaced. *)
Theorem company_fields_are_nested (enriched : dict) (key short : string) (v : value) :
  In (key, short)
     [("companyName", "name"); ("companyDomain", "domain"); ("companyId", "id");
      ("industry", "industry"); ("companyRevenue", "revenue");
      ("companyEmployees", "employees"); ("companyLocation", "location")] ->
  Dict.get key enriched = Some v ->
  exists company_info,
    Dict.get "company" (hoist_company enriched) = Some (VDict company_info)
    /\ Dict.get short company_info = Some v
    /\ Dict.get key (hoist_company enriched) = None.
Proof.
  intros Hin Hget. rewrite <- company_info_keys in Hin.
  apply in_map_iff in Hin. destruct Hin as (key' & [= -> <-] & Hin).
  exists (snd (fold_left hoist_step company_keys (enriched, []))).
  split; [|split].
  - pose proof (fold_hoist_found company_keys enriched [] key v Hin Hget) as Hfound.
    unfold hoist_company. cbv zeta.
    destruct (nonempty _) eqn:E; [apply get_set_eq|].
    exfalso. unfold dict in Hfound, E. congruence.
  - apply fold_hoist_value; try assumption.
    assert (Hkeys : List.map company_info_key company_keys
                    = ["name"; "domain"; "id"; "industry"; "revenue"; "employees";
                       "location"]) by (vm_compute; reflexivity).
    rewrite Hkeys.
    repeat (constructor;
            [simpl; intros H; repeat (destruct H as [H|H]; [discriminate H|]);
             destruct H|]).
    constructor.
  - now apply hoist_company_clears.
Qed.


(** ** Authentication and the requests of a call *)

Lemma login_outcome e w auth_data text rest expires_in :
  truthy (auth_token e) = false ->
  str_truthy (api_key e) = false ->
  inbox w = Reply 200 (Some (VDict auth_data)) text :: rest ->
  Dict.get_default "expiresIn" (VNum 86400) auth_data = VNum expires_in ->
  timedelta_seconds_ok expires_in = true ->
  authenticate e w
  = (true,
     mkEnricher (api_key e) (api_username e) (api_password e)
       (Dict.get_default "token" VNone auth_data)
       (Some (now w + expires_in * 1000))
       (Some (String.append "Bearer "
                (py_str (Dict.get_default "token" VNone auth_data)))),
     mkWorld (now w) rest (sent w ++ [auth_request e])).
Proof.
  intros Htoken Hkey Hinbox Hexp Hfits. unfold authenticate.
  rewrite Htoken, Hkey. cbn [andb]. unfold post. rewrite Hinbox.
  cbn [fst snd]. rewrite Hexp, Hfits. reflexivity.
Qed.

Lemma to_external_nothing contact :
  (forall k, In k payload_fields -> Dict.get k contact = None) ->
  to_external contact = [].
Proof.
  intros H. unfold to_external, copy_field.
  rewrite !H by (unfold payload_fields; simpl; auto 10).
  reflexivity.
Qed.

Lemma batch_persons_nothing contacts :
  (forall contact, In contact contacts ->
     forall k, In k payload_fields -> Dict.get k contact = None) ->
  batch_persons contacts = [].
Proof.
  intros H. unfold batch_persons.
  induction contacts as [|c contacts IH]; simpl; [reflexivity|].
  rewrite (to_external_nothing c) by (apply H; now left). simpl.
  apply IH. intros c' Hc'. apply H. now right.
Qed.

Lemma world_after_send e contacts w :
  world_after (enrich_contact_batch e contacts w) = snd (send_batch e contacts w).
Proof.
  unfold enrich_contact_batch.
  destruct (fst (fst (send_batch e contacts w))) as [[status json text|msg]|];
    try reflexivity.
  destruct (status =? 200); [|reflexivity].
  now destruct (reconcile contacts json) as [contacts' [enriched_contacts|]].
Qed.

(** What [_authenticate] does to the channel: nothing, or the login
    request, the latter only without an API key. *)
Lemma authenticate_world e w :
  snd (authenticate e w) = w
  \/ (str_truthy (api_key e) = false
      /\ snd (authenticate e w) = snd (post (auth_request e) w)).
Proof.
  unfold authenticate.
  destruct (truthy (auth_token e) && _); [now left|].
  destruct (str_truthy (api_key e)); [now left|].
  right. split; [reflexivity|]. fold (auth_request e).
  destruct (fst (post (auth_request e) w)) as [status json text|msg]; [|reflexivity].
  destruct (status =? 200); [|reflexivity].
  destruct json as [[]|]; try reflexivity.
  destruct (Dict.get_default "expiresIn" (VNum 86400) _) as [| |n| | |];
    try reflexivity.
  now destruct (timedelta_seconds_ok n).
Qed.

Lemma post_world r w :
  now (snd (post r w)) = now w /\ sent (snd (post r w)) = sent w ++ [r].
Proof. unfold post. now destruct (inbox w). Qed.

(** X7. Token reuse (lines 154-155 after 179-189): after a login answered
    with status 200, a token that is true in a condition and a number of
    seconds that [pd.Timedelta] can hold (at most 9223372036 in absolute
    value), every call of [_authenticate] made before the expiry succeeds
    without any request and leaves the enricher as it is. *)
Theorem login_token_is_reused e w auth_data text rest token expires_in w' :
  truthy (auth_token e) = false ->
  str_truthy (api_key e) = false ->
  inbox w = Reply 200 (Some (VDict auth_data)) text :: rest ->
  Dict.get "token" auth_data = Some token ->
  truthy token = true ->
  Dict.get_default "expiresIn" (VNum 86400) auth_data = VNum expires_in ->
  -9223372036 <= expires_in <= 9223372036 ->
  now w' < now w + expires_in * 1000 ->
  fst (fst (authenticate e w)) = true
  /\ headers (snd (fst (authenticate e w)))
     = Some (String.append "Bearer " (py_str token))
  /\ authenticate (snd (fst (authenticate e w))) w'
     = (true, snd (fst (authenticate e w)), w').
Proof.
  intros Hnone Hkey Hinbox Htoken Htruthy Hexp Hrange Hnow.
  assert (Hfits : timedelta_seconds_ok expires_in = true).
  { unfold timedelta_seconds_ok. apply andb_true_iff. split; apply Z.leb_le; lia. }
  rewrite (login_outcome e w auth_data text rest expires_in Hnone Hkey Hinbox Hexp Hfits).
  unfold Dict.get_default. rewrite Htoken. cbn [fst snd headers].
  split; [reflexivity|]. split; [reflexivity|].
  unfold authenticate. cbn [auth_token token_expiry].
  rewrite Htruthy. cbn [andb].
  apply Z.ltb_lt in Hnow. now rewrite Hnow.
Qed.

(** X8. A login answered with status 200 and a body without [token] is
    taken for a success: the requests that follow carry the header
    [Bearer None], and since the token [None] is never reused, the next
    call of [_authenticate] logs in again. *)
Theorem login_without_token_is_accepted e w auth_data text rest w' :
  truthy (auth_token e) = false ->
  str_truthy (api_key e) = false ->
  inbox w = Reply 200 (Some (VDict auth_data)) text :: rest ->
  Dict.get "token" auth_data = None ->
  Dict.get "expiresIn" auth_data = None ->
  fst (fst (authenticate e w)) = true
  /\ headers (snd (fst (authenticate e w))) = Some "Bearer None"
  /\ sent (snd (authenticate (snd (fst (authenticate e w))) w'))
     = sent w' ++ [auth_request e].
Proof.
  intros Hnone Hkey Hinbox Htoken Hexp.
  rewrite (login_outcome e w auth_data text rest 86400 Hnone Hkey Hinbox)
    by (reflexivity || (unfold Dict.get_default; now rewrite Hexp)).
  unfold Dict.get_default. rewrite Htoken. cbn [fst snd headers].
  split; [reflexivity|]. split; [reflexivity|].
  match goal with |- context [authenticate ?e1 w'] =>
    destruct (authenticate_world e1 w') as [Hw|[_ Hw]];
    [exfalso|rewrite Hw; apply (post_world (auth_request e1) w')]
  end.
  revert Hw. unfold authenticate. cbn [auth_token api_key andb truthy].
  rewrite Hkey. unfold post.
  intros Hw. apply (f_equal sent) in Hw. revert Hw.
  set (r := mkRequest _ _ _).
  assert (Hlen : forall w1, sent w1 = sent w' ++ [r] -> sent w1 <> sent w').
  { intros w1 H1 H2. rewrite H2 in H1. apply (f_equal (@length request)) in H1.
    rewrite length_app in H1. simpl in H1. lia. }
  destruct (inbox w') as [|[status json text'|msg] rest']; cbn [fst snd];
    try (apply Hlen; reflexivity).
  destruct (status =? 200); try (apply Hlen; reflexivity).
  destruct json as [[]|]; try (apply Hlen; reflexivity).
  destruct (Dict.get_default "expiresIn" (VNum 86400) _) as [| |n| | |];
    try (apply Hlen; reflexivity).
  destruct (timedelta_seconds_ok n); apply Hlen; reflexivity.
Qed.

(** X9. The requests of a call: [enrich_contact_batch] makes at most two
    requests, the login and the bulk request in this order, and at most
    the bulk request when the enricher has an API key; it never waits. *)
Theorem enrich_contact_batch_requests e contacts w :
  now (world_after (enrich_contact_batch e contacts w)) = now w
  /\ exists login bulk,
       sent (world_after (enrich_contact_batch e contacts w)) = sent w ++ login ++ bulk
       /\ (login = [] \/ (login = [auth_request e] /\ str_truthy (api_key e) = false))
       /\ (bulk = []
           \/ exists authorization persons,
                bulk = [mkRequest (String.append base_url "/person/bulk") authorization
                          (VDict [("persons", VList (List.map VDict persons))])]
                /\ persons = batch_persons contacts /\ persons <> []).
Proof.
  rewrite world_after_send. unfold send_batch.
  assert (Hauth : now (snd (authenticate e w)) = now w
                  /\ exists login,
                       sent (snd (authenticate e w)) = sent w ++ login
                       /\ (login = []
                           \/ (login = [auth_request e]
                               /\ str_truthy (api_key e) = false))).
  { destruct (authenticate_world e w) as [->|[Hkey ->]].
    - split; [reflexivity|]. exists []. rewrite app_nil_r. auto.
    - destruct (post_world (auth_request e) w) as [Hnow Hsent].
      split; [assumption|]. exists [auth_request e]. auto. }
  destruct Hauth as (Hnow & login & Hsent & Hlogin).
  destruct (negb (fst (fst (authenticate e w)))); cbn [snd].
  { split; [assumption|]. exists login, []. rewrite app_nil_r. auto. }
  destruct (nonempty (batch_persons contacts)) eqn:Hpersons; cbn [negb snd].
  - match goal with |- context [post ?r ?w1] =>
      destruct (post_world r w1) as [Hnow' Hsent'] end.
    split; [congruence|].
    exists login. eexists. split; [rewrite Hsent', Hsent, <- app_assoc; reflexivity|].
    split; [assumption|]. right. do 2 eexists. split; [reflexivity|].
    split; [reflexivity|]. intros E. rewrite E in Hpersons. discriminate.
  - split; [assumption|]. exists login, []. rewrite app_nil_r. auto.
Qed.

(** X10. Nothing to send (lines 229-232): when no contact of the batch has
    any of the six fields that go into the payload, the call returns the
    caller's list as it is, no record flagged, and makes no bulk request:
    the channel is left as [_authenticate] left it. *)
Theorem nothing_to_send_no_request e contacts w :
  (forall contact, In contact contacts ->
     forall k, In k payload_fields -> Dict.get k contact = None) ->
  returned (enrich_contact_batch e contacts w) = contacts
  /\ contacts_after (enrich_contact_batch e contacts w) = contacts
  /\ world_after (enrich_contact_batch e contacts w) = snd (authenticate e w).
Proof.
  intros H. pose proof (batch_persons_nothing contacts H) as Hpersons.
  assert (Hsend : send_batch e contacts w
                  = (None, snd (fst (authenticate e w)), snd (authenticate e w))).
  { unfold send_batch. rewrite Hpersons. cbn [nonempty negb].
    now destruct (negb (fst (fst (authenticate e w)))). }
  unfold enrich_contact_batch. rewrite Hsend. cbn [fst snd]. auto.
Qed.


(** ** The counters of qualify_contact *)

Lemma counted_scored_step reason t : tally_step t (scored reason (counted t)).
Proof.
  right. unfold scored, counted. cbn [score max_score reasons].
  rewrite length_app. cbn [length]. repeat split; [now right|lia].
Qed.

Lemma counted_noted_step reason t : tally_step t (noted reason (counted t)).
Proof.
  right. unfold noted, counted. cbn [score max_score reasons].
  rewrite length_app. cbn [length]. repeat split; [now left|lia].
Qed.

Lemma keyword_criterion_step keywords v hit miss t t' :
  keyword_criterion keywords v hit miss t = Some t' -> tally_step t t'.
Proof.
  unfold keyword_criterion. destruct (lower_value v) as [text|]; [|discriminate].
  intros [= <-]. destruct (first_keyword keywords text).
  - apply counted_scored_step.
  - apply counted_noted_step.
Qed.

Lemma title_criterion_step q c t t' : title_criterion q c t = Some t' -> tally_step t t'.
Proof.
  unfold title_criterion. destruct (Dict.get "title" c); [|intros [= <-]; now left].
  destruct (nonempty (title_keywords q)); [|intros [= <-]; now left].
  apply keyword_criterion_step.
Qed.

Lemma department_criterion_step q c t t' :
  department_criterion q c t = Some t' -> tally_step t t'.
Proof.
  unfold department_criterion.
  destruct (Dict.get "department" c); [|intros [= <-]; now left].
  destruct (nonempty (department_keywords q)); [|intros [= <-]; now left].
  apply keyword_criterion_step.
Qed.

Lemma size_criterion_step q c t t' : size_criterion q c t = Some t' -> tally_step t t'.
Proof.
  unfold size_criterion.
  destruct (truthy (with_company_fallback "company_size" "employees" c));
    [|intros [= <-]; now left].
  unfold size_criterion_on.
  destruct (with_company_fallback "company_size" "employees" c) as [| | |s| |];
    try discriminate; intros [= <-]; try apply counted_noted_step.
  destruct (parse_company_size s) as [company_size|]; [|apply counted_noted_step].
  destruct (_ && _); [apply counted_scored_step|apply counted_noted_step].
Qed.

Lemma industry_criterion_step q c t t' :
  industry_criterion q c t = Some t' -> tally_step t t'.
Proof.
  unfold industry_criterion. destruct (_ && _); [|intros [= <-]; now left].
  apply keyword_criterion_step.
Qed.

Lemma location_criterion_step q c t t' :
  location_criterion q c t = Some t' -> tally_step t t'.
Proof.
  unfold location_criterion. cbv zeta. destruct (_ && _); [|intros [= <-]; now left].
  apply keyword_criterion_step.
Qed.

Lemma email_criterion_step c t t' : email_criterion c t = Some t' -> tally_step t t'.
Proof.
  unfold email_criterion. destruct (Dict.get "email" c) as [v|]; [|intros [= <-]; now left].
  destruct (truthy v); [|intros [= <-]; now left].
  destruct (py_in "@" v) as [[]|]; [| |discriminate]; intros [= <-].
  - apply counted_scored_step.
  - apply counted_noted_step.
Qed.

Lemma tally_within_step n t t' :
  tally_within n t -> tally_step t t' -> tally_within (n + 1) t'.
Proof.
  unfold tally_within. intros (H0 & H1 & H2 & H3) [->|(Hm & Hs & Hr)]; [lia|].
  rewrite Hm, Hr. destruct Hs as [-> | ->]; lia.
Qed.

(** The counters at the end of the six criteria. *)
Lemma qualify_contact_tally q c c' v :
  qualify_contact q c = Some (c', v) ->
  c' = c /\ exists t, v = verdict_of t /\ tally_within 6 t.
Proof.
  unfold qualify_contact.
  destruct (title_criterion q c (mkTally 0 0 [])) as [t1|] eqn:E1; [|discriminate].
  destruct (department_criterion q c t1) as [t2|] eqn:E2; [|discriminate].
  destruct (size_criterion q c t2) as [t3|] eqn:E3; [|discriminate].
  destruct (industry_criterion q c t3) as [t4|] eqn:E4; [|discriminate].
  destruct (location_criterion q c t4) as [t5|] eqn:E5; [|discriminate].
  destruct (email_criterion c t5) as [t6|] eqn:E6; [|discriminate].
  intros [= <- <-]. split; [reflexivity|]. exists t6. split; [reflexivity|].
  assert (H0 : tally_within 0 (mkTally 0 0 [])) by (unfold tally_within; simpl; lia).
  pose proof (tally_within_step _ _ _ H0 (title_criterion_step _ _ _ _ E1)) as H1.
  pose proof (tally_within_step _ _ _ H1 (department_criterion_step _ _ _ _ E2)) as H2.
  pose proof (tally_within_step _ _ _ H2 (size_criterion_step _ _ _ _ E3)) as H3.
  pose proof (tally_within_step _ _ _ H3 (industry_criterion_step _ _ _ _ E4)) as H4.
  pose proof (tally_within_step _ _ _ H4 (location_criterion_step _ _ _ _ E5)) as H5.
  exact (tally_within_step _ _ _ H5 (email_criterion_step _ _ _ E6)).
Qed.

Lemma verdict_of_qualified t :
  v_qualified (verdict_of t) = true
  <-> 0 < max_score t /\ 3 * max_score t <= 5 * score t.
Proof.
  unfold verdict_of. cbn [v_qualified].
  destruct (0 <? max_score t) eqn:E.
  - apply Z.ltb_lt in E. rewrite Qle_bool_iff. unfold Qle, Qmult.
    cbn [Qnum Qden]. rewrite Pos.mul_1_r, Z2Pos.id by assumption. lia.
  - apply Z.ltb_ge in E. split; [discriminate|lia].
Qed.

(** X11. The counters of [qualify_contact]: the record is returned with
    its fields as they are; at most six criteria are counted, the score
    lies between 0 and their number, and there is one reason for each
    criterion counted. *)
Theorem qualification_counts q contact_data result v :
  qualify_contact q contact_data = Some (result, v) ->
  result = contact_data
  /\ 0 <= v_score v /\ v_score v <= v_max_score v /\ v_max_score v <= 6
  /\ Z.of_nat (length (v_reasons v)) = v_max_score v.
Proof.
  intros H. destruct (qualify_contact_tally _ _ _ _ H) as (-> & t & -> & Ht).
  split; [reflexivity|]. exact Ht.
Qed.

(** X12. The threshold: a contact is qualified exactly when at least one
    criterion was counted and at least three fifths of the criteria
    counted were met; a contact to which no criterion applies is not
    qualified. *)
Theorem qualified_at_sixty_percent q contact_data result v :
  qualify_contact q contact_data = Some (result, v) ->
  (v_qualified v = true
   <-> 0 < v_max_score v /\ 3 * v_max_score v <= 5 * v_score v).
Proof.
  intros H. destruct (qualify_contact_tally _ _ _ _ H) as (_ & t & -> & _).
  apply verdict_of_qualified.
Qed.

(** X13. A [company_size] that is a number other than 0, as a numeric
    column gives it, makes [qualify_contact] raise: the test
    ["-" in company_size_str] is a [TypeError], which the handler of
    line 476 does not catch. *)
Theorem numeric_company_size_raises q contact_data n :
  Dict.get "company_size" contact_data = Some (VNum n) ->
  n <> 0 ->
  qualify_contact q contact_data = None.
Proof.
  intros Hsize Hn.
  assert (Hraise : forall t, size_criterion q contact_data t = None).
  { intros t. unfold size_criterion, with_company_fallback. rewrite Hsize.
    change (default VNone (Some (VNum n))) with (VNum n). cbn [truthy].
    apply Z.eqb_neq in Hn. rewrite Hn. cbn [negb truthy]. rewrite Hn. reflexivity. }
  unfold qualify_contact.
  destruct (title_criterion q contact_data _) as [t1|]; [|reflexivity].
  destruct (department_criterion q contact_data t1) as [t2|]; [|reflexivity].
  now rewrite Hraise.
Qed.

Lemma keyword_criterion_text keywords s hit miss t :
  exists t', keyword_criterion keywords (VStr s) hit miss t = Some t'.
Proof. unfold keyword_criterion. cbn [lower_value]. eauto. Qed.

Lemma is_text_cases o :
  is_text o = true -> o = None \/ exists s, o = Some (VStr s).
Proof. destruct o as [[]|]; try discriminate; eauto. Qed.

(** The value that the fallback to the [company] dictionary gives is a
    string or [None]. *)
Lemma with_company_fallback_text top nested c :
  is_text (Dict.get top c) = true ->
  match Dict.get "company" c with
  | Some (VDict company) => is_text (Dict.get nested company)
  | _ => true
  end = true ->
  with_company_fallback top nested c = VNone
  \/ exists s, with_company_fallback top nested c = VStr s.
Proof.
  intros Htop Hnested. unfold with_company_fallback.
  destruct (is_text_cases _ Htop) as [->|[s ->]].
  - change (default VNone None) with VNone. cbn [truthy].
    destruct (Dict.get "company" c) as [[| | | | |company]|]; auto.
    destruct (is_text_cases _ Hnested) as [->|[s ->]]; eauto.
  - change (default VNone (Some (VStr s))) with (VStr s).
    destruct (truthy (VStr s)); eauto.
    destruct (Dict.get "company" c) as [[| | | | |company]|]; eauto.
    destruct (is_text_cases _ Hnested) as [->|[s' ->]]; eauto.
Qed.

(** X14. On a record whose title, department, company size, industry,
    location and email are strings where present, in the record and in
    its [company] dictionary, [qualify_contact] returns a verdict. *)
Theorem qualify_contact_returns q contact_data :
  qualifier_fields_ok contact_data = true ->
  exists v, qualify_contact q contact_data = Some (contact_data, v).
Proof.
  unfold qualifier_fields_ok. rewrite !andb_true_iff.
  intros (((((((Ht & Hd) & Hs) & Hi) & Hl) & Hl') & He) & Hc).
  assert (Hc3 : forall nested,
             In nested ["employees"; "industry"; "location"] ->
             match Dict.get "company" contact_data with
             | Some (VDict company) => is_text (Dict.get nested company)
             | _ => true
             end = true).
  { intros nested Hin.
    destruct (Dict.get "company" contact_data) as [[| | | | |company]|]; try reflexivity.
    rewrite !andb_true_iff in Hc. destruct Hc as ((H1 & H2) & H3).
    simpl in Hin. destruct Hin as [<-|[<-|[<-|[]]]]; assumption. }
  assert (E1 : forall t, exists t', title_criterion q contact_data t = Some t').
  { intros t. unfold title_criterion.
    destruct (is_text_cases _ Ht) as [->|[s ->]]; [eauto|].
    destruct (nonempty (title_keywords q)); [apply keyword_criterion_text|eauto]. }
  assert (E2 : forall t, exists t', department_criterion q contact_data t = Some t').
  { intros t. unfold department_criterion.
    destruct (is_text_cases _ Hd) as [->|[s ->]]; [eauto|].
    destruct (nonempty (department_keywords q)); [apply keyword_criterion_text|eauto]. }
  assert (E3 : forall t, exists t', size_criterion q contact_data t = Some t').
  { intros t. unfold size_criterion.
    destruct (with_company_fallback_text "company_size" "employees" contact_data Hs)
      as [->|[s ->]]; [apply Hc3; simpl; auto|cbn [truthy]; eauto|].
    destruct (truthy (VStr s)); [|eauto]. cbn [size_criterion_on]. eauto. }
  assert (E4 : forall t, exists t', industry_criterion q contact_data t = Some t').
  { intros t. unfold industry_criterion.
    destruct (with_company_fallback_text "company_industry" "industry" contact_data Hi)
      as [->|[s ->]]; [apply Hc3; simpl; auto|cbn [truthy andb]; eauto|].
    destruct (_ && _); [apply keyword_criterion_text|eauto]. }
  assert (E5 : forall t, exists t', location_criterion q contact_data t = Some t').
  { intros t. unfold location_criterion. cbv zeta.
    destruct (with_company_fallback_text "company_location" "location" contact_data Hl)
      as [->|[s ->]]; [apply Hc3; simpl; auto| |].
    - cbn [truthy]. destruct (is_text_cases _ Hl') as [->|[s ->]].
      + change (default VNone None) with VNone. cbn [truthy andb]. eauto.
      + change (default VNone (Some (VStr s))) with (VStr s).
        destruct (_ && _); [apply keyword_criterion_text|eauto].
    - destruct (truthy (VStr s)) eqn:Es.
      + destruct (_ && _); [apply keyword_criterion_text|eauto].
      + destruct (is_text_cases _ Hl') as [->|[s' ->]].
        * change (default VNone None) with VNone. cbn [truthy andb]. eauto.
        * change (default VNone (Some (VStr s'))) with (VStr s').
          destruct (_ && _); [apply keyword_criterion_text|eauto]. }
  assert (E6 : forall t, exists t', email_criterion contact_data t = Some t').
  { intros t. unfold email_criterion.
    destruct (is_text_cases _ He) as [->|[s ->]]; [eauto|].
    destruct (truthy (VStr s)); [|eauto]. cbn [py_in]. eauto. }
  unfold qualify_contact.
  destruct (E1 (mkTally 0 0 [])) as [t1 ->]. destruct (E2 t1) as [t2 ->].
  destruct (E3 t2) as [t3 ->]. destruct (E4 t3) as [t4 ->].
  destruct (E5 t4) as [t5 ->]. destruct (E6 t5) as [t6 ->]. eauto.
Qed.


(** ** No record is lost by the orchestrators *)

Lemma returned_length e contacts w :
  length (returned (enrich_contact_batch e contacts w)) = length contacts.
Proof.
  unfold enrich_contact_batch.
  destruct (fst (fst (send_batch e contacts w))) as [[status json text|msg]|];
    cbn [returned]; try reflexivity; try apply length_map.
  destruct (status =? 200); [|apply length_map].
  destruct (reconcile_shape contacts json) as [Hkept Hout].
  destruct (reconcile contacts json) as [contacts' [outs|]]; cbn [returned fst snd] in *.
  - symmetry. exact (Forall2_length _ _ _ (Hout outs eq_refl)).
  - unfold flag_all. rewrite length_map. symmetry. exact (Forall2_length _ _ _ Hkept).
Qed.

Lemma contacts_after_length e contacts w :
  length (contacts_after (enrich_contact_batch e contacts w)) = length contacts.
Proof. symmetry. exact (Forall2_length _ _ _ (contacts_kept_or_flagged e contacts w)). Qed.

Lemma zoominfo_pairs_length batch s :
  length (combine (snd (fst (zoominfo_call batch s)))
            (returned (enrich_contact_batch (fst s) batch (snd s))))
  = length batch.
Proof.
  unfold zoominfo_call. cbn [fst snd].
  rewrite length_combine, contacts_after_length, returned_length. lia.
Qed.

Lemma rows_and_invalid pairs :
  (length (output_rows (List.map snd pairs)) + length (invalid_records pairs))%nat
  = length pairs.
Proof.
  induction pairs as [|[orig enriched] pairs IH]; [reflexivity|].
  change (output_rows (List.map snd ((orig, enriched) :: pairs)))
    with (match extract_output enriched with Some row => [row] | None => [] end
          ++ output_rows (List.map snd pairs)).
  change (invalid_records ((orig, enriched) :: pairs))
    with (match extract_output enriched with
          | Some _ => []
          | None => [(orig, validation_message)]
          end ++ invalid_records pairs).
  rewrite !length_app.
  destruct (extract_output enriched); cbn [length];
    unfold error_record, dict in IH |- *; lia.
Qed.

Lemma invalid_records_message pairs :
  Forall (fun err : error_record => snd err = validation_message) (invalid_records pairs).
Proof.
  induction pairs as [|[orig enriched] pairs IH]; [constructor|].
  unfold invalid_records in *. cbn [flat_map fst snd].
  destruct (extract_output enriched); [exact IH|].
  constructor; [reflexivity|exact IH].
Qed.

Lemma slice_length contact_list i batch_size :
  length (slice contact_list i batch_size)
  = Nat.min batch_size (length contact_list - i).
Proof. unfold slice. now rewrite length_take, length_drop. Qed.

(** One batch of [process_contact_list]: each record gives one row or one
    error record. *)
Lemma zoominfo_list_batch batch more (st : @file_state (enricher * world)) :
  exists new,
    errors (list_batch (Some zoominfo_call) zoominfo_pause batch more st)
    = errors st ++ new
    /\ Forall (fun err : error_record => snd err = validation_message) new
    /\ (length (processed_contacts
                  (list_batch (Some zoominfo_call) zoominfo_pause batch more st))
        + length new)%nat
       = (length (processed_contacts st) + length batch)%nat.
Proof.
  unfold list_batch, call_enricher.
  change (fst (fst (zoominfo_call batch (file_world st))))
    with (Returned (returned (enrich_contact_batch (fst (file_world st)) batch
                                (snd (file_world st))))).
  cbv iota. rewrite contact_steps. cbn [fst snd].
  pose proof (zoominfo_pairs_length batch (file_world st)) as Hlen.
  set (pairs := combine _ _) in *.
  exists (invalid_records pairs).
  destruct more; cbn [after_sleep errors processed_contacts];
    (split; [reflexivity|]; split; [apply invalid_records_message|]);
    rewrite length_app, <- Hlen, <- (rows_and_invalid pairs); lia.
Qed.

Lemma zoominfo_list_batches batch_size contact_list :
  (1 <= batch_size)%nat ->
  forall fuel i (st : @file_state (enricher * world)),
  (length contact_list <= i + fuel)%nat ->
  exists new,
    errors (list_batches (Some zoominfo_call) zoominfo_pause batch_size contact_list
              fuel i st)
    = errors st ++ new
    /\ Forall (fun err : error_record => snd err = validation_message) new
    /\ (length (processed_contacts
                  (list_batches (Some zoominfo_call) zoominfo_pause batch_size
                     contact_list fuel i st))
        + length new)%nat
       = (length (processed_contacts st) + (length contact_list - i))%nat.
Proof.
  intros Hsize. induction fuel as [|fuel IH]; intros i st Hfuel.
  - exists []. cbn [list_batches]. rewrite app_nil_r.
    repeat split; [constructor|cbn [length]; lia].
  - cbn [list_batches]. destruct (i <? length contact_list)%nat eqn:E.
    + apply Nat.ltb_lt in E.
      destruct (zoominfo_list_batch (slice contact_list i batch_size)
                  (i + batch_size <? length contact_list)%nat st)
        as (new1 & Herr1 & Hmsg1 & Hlen1).
      set (st1 := list_batch _ _ _ _ st) in *.
      destruct (IH (i + batch_size)%nat st1 ltac:(lia)) as (new2 & Herr2 & Hmsg2 & Hlen2).
      exists (new1 ++ new2). rewrite Herr2, Herr1, <- app_assoc.
      split; [reflexivity|]. split; [now apply Forall_app|].
      rewrite length_app. rewrite slice_length in Hlen1. lia.
    + apply Nat.ltb_ge in E. exists []. rewrite app_nil_r.
      repeat split; [constructor|cbn [length]; lia].
Qed.

Lemma extract_rows_grows pairs processed :
  (length processed <= length (fst (extract_rows pairs processed)))%nat
  /\ (snd (extract_rows pairs processed) = None ->
      length (fst (extract_rows pairs processed))
      = (length processed + length pairs)%nat).
Proof.
  revert processed. induction pairs as [|[orig enriched] pairs IH]; intros processed;
    cbn [extract_rows fst snd length].
  - split; lia.
  - destruct (extract_output enriched) as [row|].
    + destruct (IH (processed ++ [row])) as [H1 H2].
      rewrite length_app in H1, H2. cbn [length] in H1, H2.
      split; [lia|]. intros H. rewrite (H2 H). lia.
    + cbn [fst snd]. split; [lia|discriminate].
Qed.

(** One turn of [process_file] on a batch. *)
Lemma zoominfo_attempt_grows batch (st : @file_state (enricher * world)) :
  length (attempt_batch (attempt (Some zoominfo_call) batch st)) = length batch
  /\ (accounted st <= accounted (attempt_state (attempt (Some zoominfo_call) batch st)))%nat
  /\ (failure (attempt (Some zoominfo_call) batch st) = None ->
      accounted (attempt_state (attempt (Some zoominfo_call) batch st))
      = (accounted st + length batch)%nat).
Proof.
  pose proof (zoominfo_pairs_length batch (file_world st)) as Hlen.
  unfold attempt, call_enricher.
  change (fst (fst (zoominfo_call batch (file_world st))))
    with (Returned (returned (enrich_contact_batch (fst (file_world st)) batch
                                (snd (file_world st))))).
  cbv iota. set (pairs := combine _ _) in *.
  destruct (extract_rows_grows pairs (processed_contacts st)) as [Hgrow Hall].
  cbn [attempt_batch attempt_state failure].
  unfold accounted. cbn [processed_contacts errors].
  split; [apply contacts_after_length|]. split; [lia|].
  intros Hok. rewrite (Hall Hok). lia.
Qed.

Lemma zoominfo_batch_attempts_grow retries turns :
  forall batch_attempt done batch (st : @file_state (enricher * world)),
  (1 <= turns)%nat ->
  batch_attempt + Z.of_nat turns = retries + 1 ->
  (accounted st + length batch
   <= accounted (state_after (batch_attempts (Some zoominfo_call) zoominfo_pause retries
                                turns batch_attempt done batch st)))%nat.
Proof.
  induction turns as [|turns IH]; intros batch_attempt done batch st Hturns Hsum; [lia|].
  cbn [batch_attempts].
  destruct (zoominfo_attempt_grows batch st) as (Hlen & Hgrow & Hok).
  destruct (failure (attempt (Some zoominfo_call) batch st)) as [message|].
  - destruct (batch_attempt <? retries) eqn:E.
    + apply Z.ltb_lt in E.
      etransitivity; [|apply IH; lia].
      rewrite Hlen. unfold accounted in *. cbn [after_sleep processed_contacts errors].
      lia.
    + apply Z.ltb_ge in E. assert (turns = O) as -> by lia.
      cbn [batch_attempts state_after].
      unfold accounted in *. cbn [demote_batch processed_contacts errors].
      rewrite length_app, length_map, Hlen. lia.
  - cbn [state_after]. rewrite (Hok eq_refl). lia.
Qed.

Lemma zoominfo_file_batches_grow retries batch_size contact_list :
  0 <= retries -> (1 <= batch_size)%nat ->
  forall fuel i (st : @file_state (enricher * world)),
  (length contact_list <= i + fuel)%nat ->
  (accounted st + (length contact_list - i)
   <= accounted (file_batches (Some zoominfo_call) zoominfo_pause retries batch_size
                   contact_list fuel i st))%nat.
Proof.
  intros Hretries Hsize. induction fuel as [|fuel IH]; intros i st Hfuel.
  - cbn [file_batches]. lia.
  - cbn [file_batches]. destruct (i <? length contact_list)%nat eqn:E.
    + apply Nat.ltb_lt in E.
      etransitivity; [|apply IH; lia].
      pose proof (zoominfo_batch_attempts_grow retries (Z.to_nat (retries + 1)) 0 O
                    (slice contact_list i batch_size) st ltac:(lia) ltac:(lia)) as Hbatch.
      rewrite slice_length in Hbatch. fold (run_batch (Some zoominfo_call) zoominfo_pause
        retries (slice contact_list i batch_size) st) in Hbatch.
      unfold accounted in *. cbn [after_sleep processed_contacts errors]. lia.
    + apply Nat.ltb_ge in E. lia.
Qed.

Lemma zero_batch_size_turn {W : Type}
    (enricher_call : option (list dict -> W -> call_result * list dict * W))
    (pause : Z -> W -> W) retries contact_list turns attempt w :
  file_attempts enricher_call pause retries 0 contact_list (S turns) attempt w
  = if attempt <? retries
    then file_attempts enricher_call pause retries 0 contact_list turns (attempt + 1)
           (pause 2000 w)
    else (file_failure_report range_step_message contact_list, w).
Proof. reflexivity. Qed.

Lemma zero_batch_size_attempts {W : Type}
    (enricher_call : option (list dict -> W -> call_result * list dict * W))
    (pause : Z -> W -> W) retries contact_list turns :
  forall attempt w,
  attempt + Z.of_nat (S turns) = retries + 1 ->
  file_attempts enricher_call pause retries 0 contact_list (S turns) attempt w
  = (file_failure_report range_step_message contact_list,
     Nat.iter turns (pause 2000) w).
Proof.
  induction turns as [|turns IH]; intros attempt w Hsum; rewrite zero_batch_size_turn.
  - assert (E : (attempt <? retries) = false) by (apply Z.ltb_ge; lia).
    now rewrite E.
  - assert (E : (attempt <? retries) = true) by (apply Z.ltb_lt; lia).
    rewrite E, IH by lia. now rewrite Nat.iter_succ_r.
Qed.

Lemma zoominfo_pauses n e w :
  Nat.iter n (zoominfo_pause 2000) (e, w)
  = (e, mkWorld (now w + 2000 * Z.of_nat n) (inbox w) (sent w)).
Proof.
  induction n as [|n IH].
  - change (Nat.iter 0 (zoominfo_pause 2000) (e, w)) with (e, w).
    rewrite Z.mul_0_r, Z.add_0_r. now destruct w.
  - rewrite Nat.iter_succ, IH. unfold zoominfo_pause, sleep.
    cbn [fst snd now inbox sent]. do 2 f_equal. lia.
Qed.

(** X15. [process_contact_list] accounts for every record exactly once:
    with a batch size of at least 1 and the ZoomInfo enricher, the rows of
    the output and the error records it adds are together as many as the
    contacts of the list, and every error record it adds carries the
    message of line 573, never a batch error. The error records that
    [self.errors] held at the call stay in front of the new ones: the list
    is never cleared. *)
Theorem contact_list_accounting contact_list batch_size self_errors e w :
  1 <= batch_size ->
  exists st new_errors,
    process_contact_list (Some zoominfo_call) zoominfo_pause contact_list batch_size
      self_errors (e, w) = Some st
    /\ errors st = self_errors ++ new_errors
    /\ (length (processed_contacts st) + length new_errors)%nat = length contact_list
    /\ Forall (fun err : error_record => snd err = validation_message) new_errors.
Proof.
  intros Hsize. unfold process_contact_list.
  assert (E0 : (batch_size =? 0) = false) by (apply Z.eqb_neq; lia).
  assert (E1 : (batch_size <? 0) = false) by (apply Z.ltb_ge; lia).
  rewrite E0, E1.
  destruct (zoominfo_list_batches (Z.to_nat batch_size) contact_list ltac:(lia)
              (length contact_list) O (mkFileState [] self_errors (e, w)) ltac:(lia))
    as (new_errors & Herr & Hmsg & Hlen).
  eexists. exists new_errors. split; [reflexivity|].
  cbn [errors processed_contacts length] in Herr, Hlen.
  split; [exact Herr|]. split; [lia|assumption].
Qed.

(** X16. [process_file] loses no record: with a batch size of at least 1
    and a number of retries of at least 0, the rows of the output and the
    error records of a pass over the file are together at least as many
    as its contacts (more when rows of a failed turn stay in the output). *)
Theorem process_file_loses_no_record retries batch_size contact_list e w :
  0 <= retries -> 1 <= batch_size ->
  exists st,
    main_process_file retries batch_size contact_list e w = Some st
    /\ (length contact_list
        <= length (processed_contacts st) + length (errors st))%nat.
Proof.
  intros Hretries Hsize. unfold main_process_file, process_file.
  assert (E0 : (batch_size =? 0) = false) by (apply Z.eqb_neq; lia).
  assert (E1 : (batch_size <? 0) = false) by (apply Z.ltb_ge; lia).
  rewrite E0, E1. eexists. split; [reflexivity|].
  pose proof (zoominfo_file_batches_grow retries (Z.to_nat batch_size) contact_list
                Hretries ltac:(lia) (length contact_list) O
                (mkFileState [] [] (e, w)) ltac:(lia)) as H.
  unfold accounted in H. cbn [processed_contacts errors length] in H. lia.
Qed.

(** X17. A negative number of retries: the loop of line 712 has no turn;
    [process_file] enriches nothing, writes nothing and reports no
    processed record and no error, whatever the file holds. *)
Theorem negative_retries_process_nothing retries batch_size contact_list e w :
  retries < 0 ->
  main_process_file_report retries batch_size contact_list e w
  = (mkFileReport 0 0 None None, (e, w)).
Proof.
  intros H. unfold main_process_file_report, process_file_report.
  replace (Z.to_nat (retries + 1)) with O by lia. reflexivity.
Qed.

(** X18. A batch size of 0: every pass over the file raises at line 719;
    after [retries] pauses of two seconds every contact of the file is
    reported as an error with the message of [range], no request having
    been made. *)
Theorem zero_batch_size_fails_the_file retries contact_list e w :
  0 <= retries ->
  main_process_file_report retries 0 contact_list e w
  = (mkFileReport 0 (Z.of_nat (length contact_list)) None
       (Some (List.map (fun row => Dict.set "error" (VStr range_step_message) row)
                contact_list)),
     (e, mkWorld (now w + 2000 * retries) (inbox w) (sent w))).
Proof.
  intros H. unfold main_process_file_report, process_file_report.
  replace (Z.to_nat (retries + 1)) with (S (Z.to_nat retries)) by lia.
  rewrite zero_batch_size_attempts by lia.
  rewrite zoominfo_pauses, Z2Nat.id by assumption. reflexivity.
Qed.


(** ** get_company_for_contacts *)

Lemma fill_absent_other field v contact k :
  k <> field -> Dict.get k (fill_absent field v contact) = Dict.get k contact.
Proof.
  intros Hne. unfold fill_absent. destruct v as [v|]; [|reflexivity].
  destruct (Dict.mem field contact); [reflexivity|].
  apply get_set_ne. congruence.
Qed.

Lemma fill_absent_present field v contact x :
  Dict.get field contact = Some x -> fill_absent field v contact = contact.
Proof.
  intros H. unfold fill_absent, Dict.mem. rewrite H. now destruct v.
Qed.

Lemma fill_absent_kept field v contact k x :
  Dict.get k contact = Some x -> Dict.get k (fill_absent field v contact) = Some x.
Proof.
  intros H. destruct (String.eqb k field) eqn:E.
  - apply String.eqb_eq in E. subst k. now rewrite (fill_absent_present _ _ _ _ H).
  - apply String.eqb_neq in E. now rewrite fill_absent_other.
Qed.

Lemma flag_company_frame contact : company_frame contact (flag_company contact).
Proof.
  unfold flag_company. split.
  - intros k Hk. apply get_set_ne. intros <-. apply Hk. right. now left.
  - intros k v Hk Hget. rewrite get_set_ne; [assumption|].
    intros <-. unfold filled_fields in Hk. simpl in Hk.
    repeat (destruct Hk as [Hk|Hk]; [discriminate Hk|]). destruct Hk.
Qed.

Lemma attach_company_frame company_data contact :
  company_frame contact (attach_company company_data contact).
Proof.
  unfold attach_company. cbv zeta. split.
  - intros k Hk.
    assert (Hne : forall f, In f company_fields -> k <> f)
      by (intros f Hf <-; contradiction).
    rewrite !fill_absent_other
      by (apply Hne; unfold company_fields, filled_fields; simpl; auto 10).
    rewrite !get_set_ne
      by (apply not_eq_sym, Hne; unfold company_fields, filled_fields; simpl; auto 10).
    reflexivity.
  - intros k v Hk Hget.
    do 5 apply fill_absent_kept.
    rewrite !get_set_ne; [assumption| |];
      intros <-; unfold filled_fields in Hk; simpl in Hk;
      repeat (destruct Hk as [Hk|Hk]; [discriminate Hk|]); destruct Hk.
Qed.

Lemma company_frame_refl contact : company_frame contact contact.
Proof. split; auto. Qed.

Lemma company_frame_all contacts : Forall2 company_frame contacts contacts.
Proof. induction contacts; constructor; [apply company_frame_refl|assumption]. Qed.

Lemma assign_companies_frame companies_by_domain companies_by_name contacts :
  forall index,
  Forall2 company_frame contacts
    (fst (assign_companies companies_by_domain companies_by_name contacts index)).
Proof.
  induction contacts as [|contact contacts IH]; intros index; [constructor|].
  destruct index as [|[c|] index]; cbn [assign_companies].
  - apply company_frame_all.
  - destruct (find_company companies_by_domain companies_by_name c)
      as [company_data|]; [|apply company_frame_all].
    cbn [fst]. constructor; [|apply IH].
    destruct company_data as [[| | | | |d]|]; try apply flag_company_frame.
    destruct (nonempty d); [apply attach_company_frame|apply flag_company_frame].
  - cbn [fst]. constructor; [apply flag_company_frame|apply IH].
Qed.

Lemma attach_company_flagged company_data contact :
  company_flagged (attach_company company_data contact).
Proof.
  right. unfold attach_company. cbv zeta. split.
  - rewrite !fill_absent_other by discriminate. apply get_set_eq.
  - eexists. rewrite !fill_absent_other by discriminate.
    rewrite get_set_ne by discriminate. apply get_set_eq.
Qed.

Lemma flag_company_flagged contact : company_flagged (flag_company contact).
Proof. left. apply get_set_eq. Qed.

Lemma collect_companies_index contacts :
  forall companies_to_lookup lookups index,
  collect_companies contacts companies_to_lookup = Some (lookups, index) ->
  length index = length contacts.
Proof.
  induction contacts as [|contact contacts IH]; intros companies_to_lookup lookups index;
    cbn [collect_companies].
  - now intros [= _ <-].
  - destruct (identify contact) as [[c|]|]; [| |discriminate].
    + destruct (is_duplicate companies_to_lookup c) as [duplicate|]; [|discriminate].
      destruct (collect_companies contacts _) as [[l idx]|] eqn:E; [|discriminate].
      intros [= _ <-]. cbn [length fst snd]. f_equal. exact (IH _ _ _ E).
    + destruct (collect_companies contacts _) as [[l idx]|] eqn:E; [|discriminate].
      intros [= _ <-]. cbn [length fst snd]. f_equal. exact (IH _ _ _ E).
Qed.

Lemma assign_companies_flagged companies_by_domain companies_by_name contacts :
  forall index,
  length index = length contacts ->
  snd (assign_companies companies_by_domain companies_by_name contacts index) = true ->
  Forall company_flagged
    (fst (assign_companies companies_by_domain companies_by_name contacts index)).
Proof.
  induction contacts as [|contact contacts IH]; intros index Hlen; [constructor|].
  destruct index as [|[c|] index]; [discriminate Hlen| |]; cbn [assign_companies].
  - destruct (find_company companies_by_domain companies_by_name c)
      as [company_data|]; [|discriminate].
    cbn [fst snd]. intros Hok. constructor; [|apply IH; [now injection Hlen|assumption]].
    destruct company_data as [[| | | | |d]|]; try apply flag_company_flagged.
    destruct (nonempty d); [apply attach_company_flagged|apply flag_company_flagged].
  - cbn [fst snd]. intros Hok.
    constructor; [apply flag_company_flagged|apply IH; [now injection Hlen|assumption]].
Qed.

(** A contact whose email is [None], a number or a boolean makes the first
    loop raise. *)
Lemma collect_companies_raises contacts i contact :
  contacts !! i = Some contact ->
  match Dict.get "email" contact with
  | Some (VNone | VBool _ | VNum _) => True
  | _ => False
  end ->
  forall companies_to_lookup, collect_companies contacts companies_to_lookup = None.
Proof.
  revert i. induction contacts as [|c contacts IH]; intros i Hi Hemail lookups;
    [discriminate|].
  cbn [collect_companies]. destruct i as [|i]; cbn in Hi.
  - injection Hi as ->.
    assert (Hraise : identify contact = None).
    { unfold identify, email_domain.
      destruct (Dict.get "email" contact) as [[| | | | |]|]; try contradiction;
        reflexivity. }
    now rewrite Hraise.
  - destruct (identify c) as [[c0|]|]; [| |reflexivity].
    + destruct (is_duplicate lookups c0); [|reflexivity].
      now rewrite (IH i Hi Hemail).
    + now rewrite (IH i Hi Hemail).
Qed.

Lemma identify_nothing contact :
  Dict.get "email" contact = None ->
  Dict.get "company_website" contact = None ->
  truthy (default VNone (Dict.get "company_name" contact)) = false ->
  identify contact = Some None.
Proof.
  intros Hemail Hsite Hname. unfold identify, email_domain, website_domain.
  rewrite Hemail, Hsite. cbn [usable_domain]. now rewrite Hname.
Qed.

Lemma collect_companies_nothing contacts :
  (forall contact, In contact contacts ->
     Dict.get "email" contact = None
     /\ Dict.get "company_website" contact = None
     /\ truthy (default VNone (Dict.get "company_name" contact)) = false) ->
  exists index, collect_companies contacts [] = Some ([], index).
Proof.
  induction contacts as [|c contacts IH]; intros H; cbn [collect_companies]; [eauto|].
  destruct (H c (or_introl eq_refl)) as (H1 & H2 & H3).
  rewrite (identify_nothing c H1 H2 H3).
  destruct IH as [index ->]; [intros c' Hc'; apply H; now right|].
  eauto.
Qed.

(** X19. The frame of [get_company_for_contacts]: on every path, a raised
    exception included, each of the caller's records keeps every field
    other than [company], [company_enriched] and the five company fields
    that are filled in, and keeps the value of each of these five that it
    already had. *)
Theorem company_lookup_frame e contacts w :
  Forall2 company_frame contacts
    (company_contacts_after (get_company_for_contacts e contacts w)).
Proof.
  unfold get_company_for_contacts. cbv zeta.
  destruct (negb (fst (fst (authenticate e w)))); [apply company_frame_all|].
  destruct (collect_companies contacts []) as [[lookups index]|];
    [|apply company_frame_all].
  destruct (negb (nonempty lookups)); [apply company_frame_all|].
  destruct (index_companies "domain" _ []) as [companies_by_domain|];
    [|apply company_frame_all].
  destruct (index_companies "companyName" _ []) as [companies_by_name|];
    [|apply company_frame_all].
  apply assign_companies_frame.
Qed.

(** X20. When [get_company_for_contacts] returns after at least one lookup
    request, the list it returns is the caller's, and every record of it
    carries the flag [company_enriched]: [False], or [True] together with
    a [company] dictionary. *)
Theorem company_lookup_flags_every_contact e contacts w returned_list :
  company_returned (get_company_for_contacts e contacts w) = Some returned_list ->
  sent (company_world_after (get_company_for_contacts e contacts w))
  <> sent (snd (authenticate e w)) ->
  returned_list = company_contacts_after (get_company_for_contacts e contacts w)
  /\ Forall company_flagged returned_list.
Proof.
  unfold get_company_for_contacts. cbv zeta.
  destruct (negb (fst (fst (authenticate e w)))); [intros _ H; now contradiction H|].
  destruct (collect_companies contacts []) as [[lookups index]|] eqn:Hcollect;
    [|discriminate].
  destruct (negb (nonempty lookups)); [intros _ H; now contradiction H|].
  destruct (index_companies "domain" _ []) as [companies_by_domain|]; [|discriminate].
  destruct (index_companies "companyName" _ []) as [companies_by_name|]; [|discriminate].
  cbn [company_returned company_contacts_after].
  pose proof (assign_companies_flagged companies_by_domain companies_by_name contacts
                index (collect_companies_index _ _ _ _ Hcollect)) as Hflag.
  destruct (snd (assign_companies companies_by_domain companies_by_name contacts index));
    [|discriminate].
  intros [= <-] _. split; [reflexivity|]. now apply Hflag.
Qed.

(** X21. No company to look up (lines 357-359): when no contact has an
    email, a website or a company name that is true in a condition, the
    call makes no lookup request and returns the caller's list as it is,
    without the flag [company_enriched]. *)
Theorem no_company_to_look_up e contacts w :
  (forall contact, In contact contacts ->
     Dict.get "email" contact = None
     /\ Dict.get "company_website" contact = None
     /\ truthy (default VNone (Dict.get "company_name" contact)) = false) ->
  company_returned (get_company_for_contacts e contacts w) = Some contacts
  /\ company_contacts_after (get_company_for_contacts e contacts w) = contacts
  /\ company_world_after (get_company_for_contacts e contacts w)
     = snd (authenticate e w).
Proof.
  intros H. destruct (collect_companies_nothing contacts H) as [index Hcollect].
  unfold get_company_for_contacts. cbv zeta. rewrite Hcollect.
  destruct (negb (fst (fst (authenticate e w)))); cbn; auto.
Qed.

(** X22. An email that is [None], a number or a boolean: once
    authenticated, [get_company_for_contacts] raises on the test
    ["@" in contact["email"]] of line 324, which no handler covers,
    before any lookup request and without touching a record. *)
Theorem email_not_text_raises e contacts w i contact :
  fst (fst (authenticate e w)) = true ->
  contacts !! i = Some contact ->
  match Dict.get "email" contact with
  | Some (VNone | VBool _ | VNum _) => True
  | _ => False
  end ->
  company_returned (get_company_for_contacts e contacts w) = None
  /\ company_contacts_after (get_company_for_contacts e contacts w) = contacts
  /\ company_world_after (get_company_for_contacts e contacts w)
     = snd (authenticate e w).
Proof.
  intros Hauth Hi Hemail. unfold get_company_for_contacts. cbv zeta.
  rewrite Hauth, (collect_companies_raises contacts i contact Hi Hemail).
  cbn. auto.
Qed.


Lemma split_has_parts sep s : exists p ps, PyStr.split sep s = p :: ps.
Proof.
  induction s as [|c s (p & ps & IH)]; cbn [PyStr.split]; [eauto|].
  destruct (Ascii.eqb c sep); [eauto|]. rewrite IH. eauto.
Qed.

Lemma split_second sep s :
  has_char sep s = true -> exists p d ps, PyStr.split sep s = p :: d :: ps.
Proof.
  induction s as [|c s IH]; cbn [has_char PyStr.split]; [discriminate|].
  destruct (Ascii.eqb c sep); cbn [orb].
  - intros _. destruct (split_has_parts sep s) as (p & ps & ->). eauto.
  - intros H. destruct (IH H) as (p & d & ps & ->). eauto.
Qed.

Lemma identify_text contact :
  company_lookup_fields_ok contact = true ->
  exists found,
    identify contact = Some found
    /\ match found with Some c => named_by_text c | None => True end.
Proof.
  unfold company_lookup_fields_ok. rewrite andb_true_iff. intros [Hemail Hname].
  unfold identify.
  assert (He : exists d, email_domain contact = Some d).
  { unfold email_domain. destruct (is_text_cases _ Hemail) as [->|[s ->]]; [eauto|].
    cbn [py_in]. destruct (PyStr.contains "@" s) eqn:E; [|eauto].
    change "@"%string with (String "@"%char "") in E. rewrite contains_single in E.
    destruct (split_second _ _ E) as (p & d & ps & ->). eauto. }
  destruct He as [d ->].
  eexists. split; [reflexivity|].
  destruct (usable_domain (website_domain contact)); [exact I|].
  destruct (usable_domain d); [exact I|].
  destruct (is_text_cases _ Hname) as [->|[s ->]].
  - change (default VNone None) with VNone. exact I.
  - change (default VNone (Some (VStr s))) with (VStr s).
    destruct (truthy (VStr s)); [|exact I]. cbn. eauto.
Qed.

Lemma is_duplicate_text companies_to_lookup c :
  Forall named_by_text companies_to_lookup -> named_by_text c ->
  exists duplicate, is_duplicate companies_to_lookup c = Some duplicate.
Proof.
  intros Hall Hc. induction Hall as [|existing rest Hex Hall IH];
    cbn [is_duplicate]; [eauto|].
  destruct existing as [d1|v1], c as [d2|v2]; try exact IH.
  - destruct (_ && _); [eauto|exact IH].
  - destruct Hex as [s1 ->], Hc as [s2 ->].
    destruct (_ && _); [|exact IH]. cbn [lower_value].
    destruct (String.eqb _ _); [eauto|exact IH].
Qed.

Lemma collect_companies_text contacts :
  Forall (fun contact => company_lookup_fields_ok contact = true) contacts ->
  forall companies_to_lookup,
  Forall named_by_text companies_to_lookup ->
  exists lookups index,
    collect_companies contacts companies_to_lookup = Some (lookups, index)
    /\ Forall (fun found => match found with
                           | Some c => named_by_text c
                           | None => True
                           end) index.
Proof.
  induction 1 as [|contact contacts Hc Hall IH]; intros lookups Hlookups;
    cbn [collect_companies]; [eauto|].
  destruct (identify_text contact Hc) as ([c|] & -> & Hfound).
  - destruct (is_duplicate_text lookups c Hlookups Hfound) as [duplicate ->].
    destruct (IH (if duplicate then lookups else lookups ++ [c]))
      as (l & index & -> & Hindex).
    { destruct duplicate; [assumption|]. apply Forall_app. split; [assumption|].
      now constructor. }
    cbn [fst snd]. do 2 eexists. split; [reflexivity|]. now constructor.
  - destruct (IH lookups Hlookups) as (l & index & -> & Hindex).
    cbn [fst snd]. do 2 eexists. split; [reflexivity|]. now constructor.
Qed.

Lemma lookup_batches_down e batches all_company_results w :
  inbox w = [] ->
  fst (lookup_batches e batches all_company_results w) = all_company_results.
Proof.
  revert all_company_results w.
  induction batches as [|batch batches IH]; intros results w Hdown;
    cbn [lookup_batches]; [reflexivity|].
  unfold post. rewrite Hdown. cbn [fst snd company_batch_results].
  rewrite app_nil_r. now apply IH.
Qed.

Lemma assign_companies_nothing contacts :
  forall index,
  length index = length contacts ->
  Forall (fun found => match found with
                       | Some c => named_by_text c
                       | None => True
                       end) index ->
  assign_companies [] [] contacts index = (List.map flag_company contacts, true).
Proof.
  induction contacts as [|contact contacts IH]; intros index Hlen Hindex.
  - now destruct index.
  - destruct index as [|found index]; [discriminate Hlen|].
    apply Forall_cons in Hindex. destruct Hindex as [Hfound Hindex].
    cbn [assign_companies]. rewrite (IH index) by (try assumption; now injection Hlen).
    destruct found as [[d|v]|]; try reflexivity.
    destruct Hfound as [s ->]. reflexivity.
Qed.

Lemma collect_companies_grows contacts :
  forall companies_to_lookup lookups index,
  collect_companies contacts companies_to_lookup = Some (lookups, index) ->
  (length companies_to_lookup <= length lookups)%nat
  /\ (length lookups <= length companies_to_lookup + length contacts)%nat.
Proof.
  induction contacts as [|contact contacts IH]; intros l0 lookups index;
    cbn [collect_companies].
  - intros [= <- _]. cbn [length]. lia.
  - destruct (identify contact) as [[c|]|]; [| |discriminate].
    + destruct (is_duplicate l0 c) as [duplicate|]; [|discriminate].
      destruct (collect_companies contacts _) as [[l idx]|] eqn:E; [|discriminate].
      intros [= <- _]. cbn [fst length]. apply IH in E.
      destruct duplicate; [lia|]. rewrite length_app in E. cbn [length] in E. lia.
    + destruct (collect_companies contacts l0) as [[l idx]|] eqn:E; [|discriminate].
      intros [= <- _]. cbn [fst length]. apply IH in E. lia.
Qed.

Lemma collect_companies_lookup contacts :
  forall companies_to_lookup lookups index i contact c,
  collect_companies contacts companies_to_lookup = Some (lookups, index) ->
  contacts !! i = Some contact ->
  identify contact = Some (Some c) ->
  index !! i = Some (Some c) /\ lookups <> [].
Proof.
  induction contacts as [|contact0 contacts IH]; intros l0 lookups index i contact c;
    [discriminate 2|].
  cbn [collect_companies]. intros Hcollect Hi Hid. destruct i as [|i]; cbn in Hi.
  - injection Hi as ->. rewrite Hid in Hcollect.
    destruct (is_duplicate l0 c) as [duplicate|] eqn:Hdup; [|discriminate].
    destruct (collect_companies contacts _) as [[l idx]|] eqn:E; [|discriminate].
    injection Hcollect as <- <-. cbn [fst snd]. split; [reflexivity|].
    apply collect_companies_grows in E. destruct E as [E _].
    intros ->. cbn [length] in E.
    destruct duplicate.
    + destruct l0; [discriminate Hdup|cbn [length] in E; lia].
    + rewrite length_app in E. cbn [length] in E. lia.
  - destruct (identify contact0) as [[c0|]|]; [| |discriminate].
    + destruct (is_duplicate l0 c0) as [duplicate|]; [|discriminate].
      destruct (collect_companies contacts _) as [[l idx]|] eqn:E; [|discriminate].
      injection Hcollect as <- <-. cbn [fst snd]. exact (IH _ _ _ _ _ _ E Hi Hid).
    + destruct (collect_companies contacts l0) as [[l idx]|] eqn:E; [|discriminate].
      injection Hcollect as <- <-. cbn [fst snd]. exact (IH _ _ _ _ _ _ E Hi Hid).
Qed.

Lemma company_batches_single companies :
  companies <> [] -> (length companies <= 100)%nat ->
  company_batches (length companies) companies = [companies].
Proof.
  intros Hne Hlen. destruct companies as [|c companies]; [contradiction|].
  cbn [length company_batches].
  rewrite take_ge by assumption. rewrite drop_ge by assumption.
  now destruct (length companies).
Qed.

(** An entry of the response stays in the index unless a later entry has
    the same lowered field. *)
Lemma index_companies_keeps key k results :
  forall acc companies,
  index_companies key (List.map VDict results) acc = Some companies ->
  (forall j other s, results !! j = Some other ->
     Dict.get key other = Some (VStr s) -> PyStr.lower s <> k) ->
  Dict.get k companies = Dict.get k acc.
Proof.
  induction results as [|c results IH]; intros acc companies;
    cbn [List.map index_companies].
  - now intros [= <-].
  - intros Hindex Hother.
    assert (Hrest : forall j other s, results !! j = Some other ->
                      Dict.get key other = Some (VStr s) -> PyStr.lower s <> k)
      by (intros j other s Hj; apply (Hother (S j)); exact Hj).
    destruct (truthy (default VNone (Dict.get key c))) eqn:Htruthy;
      [|exact (IH _ _ Hindex Hrest)].
    unfold Dict.get_default in Hindex.
    destruct (Dict.get key c) as [[| | |s| |]|] eqn:Hget; try discriminate.
    cbn [lower_value] in Hindex.
    rewrite (IH _ _ Hindex Hrest). apply get_set_ne.
    exact (Hother O c s eq_refl Hget).
Qed.

Lemma index_companies_last key results :
  forall acc companies j company s,
  index_companies key (List.map VDict results) acc = Some companies ->
  results !! j = Some company ->
  Dict.get key company = Some (VStr s) -> s <> "" ->
  (forall j' other s', (j < j')%nat -> results !! j' = Some other ->
     Dict.get key other = Some (VStr s') -> PyStr.lower s' <> PyStr.lower s) ->
  Dict.get (PyStr.lower s) companies = Some (VDict company).
Proof.
  induction results as [|c results IH]; intros acc companies j company s;
    [discriminate 2|].
  cbn [List.map index_companies]. intros Hindex Hj Hget Hs Hlater.
  destruct j as [|j]; cbn in Hj.
  - injection Hj as ->. unfold Dict.get_default in Hindex. rewrite Hget in Hindex.
    change (default VNone (Some (VStr s))) with (VStr s) in Hindex.
    cbn [truthy lower_value] in Hindex.
    assert (E : String.eqb s "" = false) by now apply String.eqb_neq.
    rewrite E in Hindex. cbn [negb] in Hindex.
    rewrite (index_companies_keeps key (PyStr.lower s) results _ _ Hindex).
    + apply get_set_eq.
    + intros j other s' Hj. apply (Hlater (S j)); [lia|exact Hj].
  - assert (Hrest : forall j' other s', (j < j')%nat -> results !! j' = Some other ->
                      Dict.get key other = Some (VStr s') ->
                      PyStr.lower s' <> PyStr.lower s)
      by (intros j' other s' Hlt Hj'; apply (Hlater (S j')); [lia|exact Hj']).
    destruct (truthy (default VNone (Dict.get key c))).
    + destruct (lower_value (Dict.get_default key (VStr "") c)) as [k|];
        [|discriminate].
      exact (IH _ _ _ _ _ Hindex Hj Hget Hs Hrest).
    + exact (IH _ _ _ _ _ Hindex Hj Hget Hs Hrest).
Qed.

Lemma assign_companies_at companies_by_domain companies_by_name contacts :
  forall index i contact c,
  snd (assign_companies companies_by_domain companies_by_name contacts index) = true ->
  contacts !! i = Some contact ->
  index !! i = Some (Some c) ->
  exists company_data,
    find_company companies_by_domain companies_by_name c = Some company_data
    /\ fst (assign_companies companies_by_domain companies_by_name contacts index) !! i
       = Some (match company_data with
               | Some (VDict d) =>
                   if nonempty d then attach_company d contact
                   else flag_company contact
               | _ => flag_company contact
               end).
Proof.
  induction contacts as [|contact0 contacts IH]; intros index i contact c;
    [discriminate 2|].
  intros Hok Hi Hidx.
  destruct index as [|found index]; [discriminate Hidx|].
  cbn [assign_companies] in Hok |- *.
  destruct i as [|i]; cbn in Hi, Hidx.
  - injection Hi as ->. injection Hidx as ->.
    destruct (find_company companies_by_domain companies_by_name c)
      as [company_data|]; [|discriminate].
    exists company_data. split; reflexivity.
  - destruct found as [c0|].
    + destruct (find_company companies_by_domain companies_by_name c0)
        as [company_data|]; [|discriminate].
      cbn [fst snd] in Hok |- *. exact (IH _ _ _ _ Hok Hi Hidx).
    + cbn [fst snd] in Hok |- *. exact (IH _ _ _ _ Hok Hi Hidx).
Qed.

(** The last loop of a call with an API key, at most 100 contacts and a
    first answer of status 200 whose results are dictionaries. *)
Lemma company_lookup_single_batch
    e contacts w json text rest results returned_list i contact c :
  str_truthy (api_key e) = true ->
  inbox w = Reply 200 json text :: rest ->
  results_of json = Some (List.map VDict results) ->
  (length contacts <= 100)%nat ->
  company_returned (get_company_for_contacts e contacts w) = Some returned_list ->
  contacts !! i = Some contact ->
  identify contact = Some (Some c) ->
  exists companies_by_domain companies_by_name company_data,
    index_companies "domain" (List.map VDict results) [] = Some companies_by_domain
    /\ index_companies "companyName" (List.map VDict results) []
       = Some companies_by_name
    /\ find_company companies_by_domain companies_by_name c = Some company_data
    /\ returned_list !! i
       = Some (match company_data with
               | Some (VDict d) =>
                   if nonempty d then attach_company d contact
                   else flag_company contact
               | _ => flag_company contact
               end).
Proof.
  intros Hkey Hinbox Hresults Hlen Hret Hi Hid.
  destruct (authenticate_api_key e w Hkey) as (Hauth & _ & Hw).
  revert Hret. unfold get_company_for_contacts. cbv zeta. rewrite Hauth, Hw.
  cbn [negb].
  destruct (collect_companies contacts []) as [[lookups index]|] eqn:Hcollect;
    [|discriminate].
  destruct (collect_companies_lookup _ _ _ _ _ _ _ Hcollect Hi Hid) as [Hidx Hsome].
  destruct (collect_companies_grows _ _ _ _ Hcollect) as [_ Hbound].
  cbn [length] in Hbound.
  assert (Hnonempty : nonempty lookups = true)
    by (destruct lookups; [contradiction|reflexivity]).
  rewrite Hnonempty. cbn [negb].
  rewrite company_batches_single by (assumption || lia).
  cbn [lookup_batches]. unfold post. rewrite Hinbox.
  cbn [fst snd company_batch_results app].
  replace (200 =? 200) with true by reflexivity. rewrite Hresults.
  change (default [] (Some (List.map VDict results))) with (List.map VDict results).
  destruct (index_companies "domain" (List.map VDict results) [])
    as [companies_by_domain|]; [|discriminate].
  destruct (index_companies "companyName" (List.map VDict results) [])
    as [companies_by_name|]; [|discriminate].
  cbn [company_returned].
  destruct (snd (assign_companies companies_by_domain companies_by_name contacts index))
    eqn:Hok; [|discriminate].
  intros [= <-].
  destruct (assign_companies_at _ _ _ _ _ _ c Hok Hi Hidx) as (data & Hfind & Hat).
  exists companies_by_domain, companies_by_name, data. auto.
Qed.

Lemma collect_companies_none contacts :
  (forall contact, In contact contacts -> identify contact = Some None) ->
  forall companies_to_lookup,
  exists index,
    collect_companies contacts companies_to_lookup = Some (companies_to_lookup, index).
Proof.
  induction contacts as [|c contacts IH]; intros H lookups; cbn [collect_companies];
    [eauto|].
  rewrite (H c (or_introl eq_refl)).
  destruct (IH (fun c' Hc' => H c' (or_intror Hc')) lookups) as [index ->].
  eauto.
Qed.

(** X23. No answer to the lookups: with an API key and the channel down,
    on records whose email and company name are strings where present,
    [get_company_for_contacts] returns the caller's list. When no contact
    has an identifier (a usable domain of its website or of its email, or
    a company name that is true in a condition), the records are as they
    were; as soon as one contact has an identifier, every record of the
    list has [company_enriched] set to [False] and nothing else changed. *)
Theorem company_lookup_when_down e contacts w :
  str_truthy (api_key e) = true ->
  inbox w = [] ->
  Forall (fun contact => company_lookup_fields_ok contact = true) contacts ->
  company_returned (get_company_for_contacts e contacts w)
  = Some (company_contacts_after (get_company_for_contacts e contacts w))
  /\ ((forall contact, In contact contacts -> identify contact = Some None) ->
      company_contacts_after (get_company_for_contacts e contacts w) = contacts)
  /\ ((exists i contact c,
         contacts !! i = Some contact /\ identify contact = Some (Some c)) ->
      company_contacts_after (get_company_for_contacts e contacts w)
      = List.map flag_company contacts).
Proof.
  intros Hkey Hdown Hok.
  destruct (authenticate_api_key e w Hkey) as (Hauth & _ & Hw).
  destruct (collect_companies_text contacts Hok [] (List.Forall_nil _))
    as (lookups & index & Hcollect & Hindex).
  assert (Hcall : company_returned (get_company_for_contacts e contacts w)
                  = Some (if nonempty lookups
                          then List.map flag_company contacts else contacts)
                  /\ company_contacts_after (get_company_for_contacts e contacts w)
                     = if nonempty lookups
                       then List.map flag_company contacts else contacts).
  { unfold get_company_for_contacts. cbv zeta. rewrite Hauth, Hw, Hcollect.
    cbn [negb]. destruct (nonempty lookups); cbn [negb]; [|split; reflexivity].
    rewrite lookup_batches_down by assumption. cbn [index_companies].
    rewrite (assign_companies_nothing contacts index
               (collect_companies_index _ _ _ _ Hcollect) Hindex).
    split; reflexivity. }
  destruct Hcall as [Hreturned Hafter]. rewrite Hreturned, Hafter.
  split; [reflexivity|]. split.
  - intros Hnone.
    destruct (collect_companies_none contacts Hnone []) as [index' Hcollect'].
    rewrite Hcollect' in Hcollect. injection Hcollect as <- _. reflexivity.
  - intros (i & contact & c & Hi & Hid).
    destruct (collect_companies_lookup _ _ _ _ _ _ _ Hcollect Hi Hid) as [_ Hsome].
    destruct lookups; [contradiction|reflexivity].
Qed.

(** X24. A company matched by its domain (lines 379-409): with an API
    key, a batch of at most 100 contacts and a first answer of status 200
    whose results are dictionaries, when the call returns, a contact
    identified by the domain [d] (of its website or, failing that, of its
    email) gets the last result whose [domain] equals [d] up to case: the
    result's fields, in snake case, under [company], the flag
    [company_enriched] set to [True], and the company fields it lacked. *)
Theorem company_matched_by_domain
    e contacts w json text rest results returned_list i contact d j company domain :
  str_truthy (api_key e) = true ->
  inbox w = Reply 200 json text :: rest ->
  results_of json = Some (List.map VDict results) ->
  (length contacts <= 100)%nat ->
  company_returned (get_company_for_contacts e contacts w) = Some returned_list ->
  contacts !! i = Some contact ->
  identify contact = Some (Some (ByDomain d)) ->
  results !! j = Some company ->
  Dict.get "domain" company = Some (VStr domain) ->
  domain <> "" ->
  PyStr.lower domain = PyStr.lower d ->
  (forall j' other domain', (j < j')%nat -> results !! j' = Some other ->
     Dict.get "domain" other = Some (VStr domain') ->
     PyStr.lower domain' <> PyStr.lower domain) ->
  returned_list !! i = Some (attach_company company contact).
Proof.
  intros Hkey Hinbox Hresults Hlen Hret Hi Hid Hj Hdomain Hne Hlower Hlater.
  destruct (company_lookup_single_batch e contacts w json text rest results returned_list
              i contact (ByDomain d) Hkey Hinbox Hresults Hlen Hret Hi Hid)
    as (bd & bn & data & Hbd & _ & Hfind & ->).
  cbn [find_company] in Hfind. injection Hfind as <-.
  rewrite <- Hlower.
  rewrite (index_companies_last "domain" results [] bd j company domain
             Hbd Hj Hdomain Hne Hlater).
  destruct company; [discriminate Hdomain|reflexivity].
Qed.

(** X25. No fallback from the domain to the name (lines 385-388): in the
    same setting, a contact identified by a domain that no result has, up
    to case, gets [company_enriched] set to [False] and nothing else,
    whatever the company names of the results and of the contact. *)
Theorem company_domain_not_found
    e contacts w json text rest results returned_list i contact d :
  str_truthy (api_key e) = true ->
  inbox w = Reply 200 json text :: rest ->
  results_of json = Some (List.map VDict results) ->
  (length contacts <= 100)%nat ->
  company_returned (get_company_for_contacts e contacts w) = Some returned_list ->
  contacts !! i = Some contact ->
  identify contact = Some (Some (ByDomain d)) ->
  (forall j other domain, results !! j = Some other ->
     Dict.get "domain" other = Some (VStr domain) ->
     PyStr.lower domain <> PyStr.lower d) ->
  returned_list !! i = Some (flag_company contact).
Proof.
  intros Hkey Hinbox Hresults Hlen Hret Hi Hid Hnone.
  destruct (company_lookup_single_batch e contacts w json text rest results returned_list
              i contact (ByDomain d) Hkey Hinbox Hresults Hlen Hret Hi Hid)
    as (bd & bn & data & Hbd & _ & Hfind & ->).
  cbn [find_company] in Hfind. injection Hfind as <-.
  now rewrite (index_companies_keeps "domain" (PyStr.lower d) results [] bd Hbd Hnone).
Qed.

(** X26. A company matched by its name (lines 380 and 389-392): in the
    same setting, a contact that has no usable domain and is identified
    by its company name gets the last result whose [companyName] equals
    this name up to case. *)
Theorem company_matched_by_name
    e contacts w json text rest results returned_list i contact name j company
    company_name :
  str_truthy (api_key e) = true ->
  inbox w = Reply 200 json text :: rest ->
  results_of json = Some (List.map VDict results) ->
  (length contacts <= 100)%nat ->
  company_returned (get_company_for_contacts e contacts w) = Some returned_list ->
  contacts !! i = Some contact ->
  identify contact = Some (Some (ByCompanyName (VStr name))) ->
  results !! j = Some company ->
  Dict.get "companyName" company = Some (VStr company_name) ->
  company_name <> "" ->
  PyStr.lower company_name = PyStr.lower name ->
  (forall j' other name', (j < j')%nat -> results !! j' = Some other ->
     Dict.get "companyName" other = Some (VStr name') ->
     PyStr.lower name' <> PyStr.lower company_name) ->
  returned_list !! i = Some (attach_company company contact).
Proof.
  intros Hkey Hinbox Hresults Hlen Hret Hi Hid Hj Hname Hne Hlower Hlater.
  destruct (company_lookup_single_batch e contacts w json text rest results returned_list
              i contact (ByCompanyName (VStr name)) Hkey Hinbox Hresults Hlen Hret Hi Hid)
    as (bd & bn & data & _ & Hbn & Hfind & ->).
  cbn [find_company lower_value] in Hfind. injection Hfind as <-.
  rewrite <- Hlower.
  rewrite (index_companies_last "companyName" results [] bn j company company_name
             Hbn Hj Hname Hne Hlater).
  destruct company; [discriminate Hname|reflexivity].
Qed.





(** X27. On an answer of status 200 whose results are dictionaries, when
    the names and emails of the contacts and of the results are strings
    where present, no step of the reconciliation raises, and the record
    returned for each contact is the one the matching policy gives on the
    results as received: the unique result with the contact's name key;
    among several, the first with the contact's email; failing that, the
    last result with the contact's email; merged when it is a non-empty
    dictionary, and the contact flagged [False] otherwise. *)
Theorem well_typed_answer_is_reconciled e contacts w json text received :
  fst (fst (send_batch e contacts w)) = Some (Reply 200 json text) ->
  results_of json = Some (List.map VDict received) ->
  Forall (fun r => entry_fields_ok r = true) received ->
  Forall (fun c => contact_fields_ok c = true) contacts ->
  Forall2 (fun contact out => reconciled received contact = Some out)
    contacts (returned (enrich_contact_batch e contacts w)).
Proof.
  intros Hsend Hresults Hentries Hcontacts.
  destruct (reconcile_completes contacts json received Hresults Hentries Hcontacts)
    as [outs Houts].
  destruct (reconcile_policy contacts json _ outs Hresults Houts)
    as (received' & Hrec & _ & Hall).
  apply map_VDict_inj in Hrec. subst received'.
  unfold enrich_contact_batch. rewrite Hsend.
  replace (200 =? 200) with true by reflexivity.
  destruct (reconcile contacts json) as [contacts' o]. cbn [snd] in Houts. subst o.
  exact Hall.
Qed.


End LeadGen.

(** * Concrete runs *)


Example two_janes_enriched :
  returned (enrich_contact_batch simple_netloc simple_repr key_enricher [jane_x; jane_y]
              (world_answering (Reply 200 (results_body [jane_x_entry; jane_y_entry]) "")))
  = [ [("first_name", VStr "Jane"); ("last_name", VStr "Doe"); ("email", VStr "jane@x.com");
       ("job_title", VStr "CTO"); ("company", VDict [("name", VStr "Acme")]);
       ("zi_enriched", VBool true)];
      [("first_name", VStr "Jane"); ("last_name", VStr "Doe"); ("email", VStr "jd@y.com");
       ("job_title", VStr "VP"); ("zi_enriched", VBool true)] ].
Proof. vm_compute. reflexivity. Qed.

(** C2 fails on the code: [title] does not come back under its name, and
    [phone] does not come back at all. *)
Lemma round_trip_loses_title_and_phone :
  Dict.get "title" titled_contact = Some (VStr "CTO")
  /\ Dict.get "phone" titled_contact = Some (VStr "555-0100")
  /\ from_external (to_external simple_netloc titled_contact)
     = [("first_name", VStr "Jane"); ("job_title", VStr "CTO")]
  /\ Dict.get "title" (from_external (to_external simple_netloc titled_contact))
     <> Dict.get "title" titled_contact
  /\ Dict.get "phone" (from_external (to_external simple_netloc titled_contact))
     <> Dict.get "phone" titled_contact.
Proof. vm_compute. repeat split; discriminate. Qed.

(** C3 at a batch whose second record has no name, email or phone, with the
    channel down and two retries: three turns, all failing. *)
Lemma batch_retry_witness :
  0 <= 2
  /\ let r := run_batch simple_repr (Some (zoominfo_call simple_netloc simple_repr))
                zoominfo_pause 2 [jane_x; acme_only]
                (mkFileState [] [] (key_enricher, world_down)) in
     batch_success r = false
     /\ attempts r = 3%nat
     /\ errors (state_after r)
        = [(flag_unenriched jane_x, batch_error validation_message);
           (flag_unenriched acme_only, batch_error validation_message)].
Proof.
  split; [lia|].
  destruct (batch_retry simple_repr (Some (zoominfo_call simple_netloc simple_repr))
              zoominfo_pause 2 [jane_x; acme_only]
              (mkFileState [] [] (key_enricher, world_down)) ltac:(lia)) as [_ H].
  edestruct H as (H1 & H2 & H3 & H4).
  - reflexivity.
  - reflexivity.
  - cbv zeta. rewrite H1, H2, H4, H3.
    split; [reflexivity|split; [reflexivity|vm_compute; reflexivity]].
Defined.

(** C4 fails on the code: on a status 500 the caller of
    [enrich_contact_batch] gets a list back, not a failure. *)
Lemma failed_request_is_a_normal_return :
  fst (fst (send_batch simple_netloc simple_repr key_enricher [jane_x]
              (world_answering server_error)))
  = Some server_error
  /\ fst (fst (zoominfo_call simple_netloc simple_repr [jane_x]
                 (key_enricher, world_answering server_error)))
     = Returned [flag_unenriched jane_x]
  /\ ~ (exists diagnostic,
           fst (fst (zoominfo_call simple_netloc simple_repr [jane_x]
                       (key_enricher, world_answering server_error)))
           = Raised diagnostic).
Proof.
  split; [reflexivity|]. split; [reflexivity|].
  intros [diagnostic H]. discriminate H.
Qed.

Lemma failed_request_returns_flagged_witness :
  fst (fst (send_batch simple_netloc simple_repr key_enricher [jane_x]
              (world_answering server_error)))
  = Some server_error
  /\ request_failed server_error = true
  /\ contacts_after (enrich_contact_batch simple_netloc simple_repr key_enricher [jane_x]
                       (world_answering server_error))
     = flag_all [jane_x].
Proof.
  split; [reflexivity|]. split; [reflexivity|].
  apply (failed_request_returns_flagged simple_netloc simple_repr key_enricher [jane_x]
           (world_answering server_error) server_error); reflexivity.
Defined.

(** C5 fails in [process_file]: the record without name, email or phone
    makes each of the three turns of the batch fail; Jane Doe's row is
    appended at each turn, and both contacts end in the errors. In
    [process_contact_list] the same batch gives one row and one error. *)
Theorem validation_failure_fails_the_batch :
  option_map (fun st => (processed_contacts st, errors st))
    (main_process_file simple_netloc simple_repr 2 10 [jane_x; acme_only] key_enricher
       (mkWorld 0 [no_results; no_results; no_results] []))
  = Some ([jane_row; jane_row; jane_row],
          [(flag_unenriched jane_x, batch_error validation_message);
           (flag_unenriched acme_only, batch_error validation_message)])
  /\ option_map (fun st => (processed_contacts st, errors st))
       (main_process_contact_list simple_netloc simple_repr [jane_x; acme_only] 10
          key_enricher (mkWorld 0 [no_results] []))
     = Some ([jane_row], [(flag_unenriched acme_only, validation_message)]).
Proof. split; vm_compute; reflexivity. Qed.

(** C6 fails on the code: the one entry with the contact's name key is the
    empty dictionary, which [if enriched] takes for no match; the contact
    is then matched by email to another entry. *)
Lemma empty_entry_is_not_matched :
  results_of (results_body [[]; other_entry]) = Some [VDict []; VDict other_entry]
  /\ contact_key email_only = Some ("", "")
  /\ entry_key [] = Some ("", "")
  /\ entry_key other_entry <> Some ("", "")
  /\ snd (reconcile [email_only] (results_body [[]; other_entry]))
     = Some [merge_enriched email_only (from_external other_entry)]
  /\ merge_enriched email_only (from_external other_entry)
     <> merge_enriched email_only (from_external []).
Proof. vm_compute. repeat split; discriminate. Qed.

Lemma unique_name_match_witness :
  results_of (results_body [other_entry; jane_x_entry])
  = Some [VDict other_entry; VDict jane_x_entry]
  /\ contact_key jane_ab = Some ("jane", "doe")
  /\ entry_key jane_x_entry = Some ("jane", "doe")
  /\ Dict.get "email" other_entry = Dict.get "email" jane_ab
  /\ exists outs,
       snd (reconcile [jane_ab] (results_body [other_entry; jane_x_entry])) = Some outs
       /\ outs !! O = Some (merge_enriched jane_ab (from_external jane_x_entry)).
Proof.
  split; [reflexivity|]. split; [reflexivity|]. split; [reflexivity|].
  split; [reflexivity|].
  exists [merge_enriched jane_ab (from_external jane_x_entry)].
  split; [reflexivity|].
  apply (unique_name_match [jane_ab] (results_body [other_entry; jane_x_entry])
           [VDict other_entry; VDict jane_x_entry]
           [merge_enriched jane_ab (from_external jane_x_entry)]
           O jane_ab 1%nat jane_x_entry ("jane", "doe")); try reflexivity.
  intros [|[|j']] other Hne Hj; simpl in Hj.
  - injection Hj as <-. vm_compute. discriminate.
  - contradiction.
  - discriminate.
Defined.

(** C7 fails on the code: after a status 500 the caller's record has a
    field it did not have. *)
Lemma failed_request_flags_the_input :
  contacts_after (enrich_contact_batch simple_netloc simple_repr key_enricher [jane_x]
                    (world_answering server_error))
  = [jane_x ++ [("zi_enriched", VBool false)]]
  /\ contacts_after (enrich_contact_batch simple_netloc simple_repr key_enricher [jane_x]
                       (world_answering server_error))
     <> [jane_x].
Proof. vm_compute. split; [reflexivity|discriminate]. Qed.

(** C8 fails on the code: the credentials are refused, and the contact is
    emitted as a success row all the same. *)
Lemma unauthenticated_contacts_are_emitted :
  fst (fst (authenticate simple_repr login_enricher (world_answering unauthorized))) = false
  /\ option_map (fun st => (processed_contacts st, errors st))
       (main_process_file simple_netloc simple_repr 2 10 [jane_x] login_enricher
          (world_answering unauthorized))
     = Some ([jane_row], []).
Proof. split; vm_compute; reflexivity. Qed.

(** The credentials are refused for a batch whose second record has a
    company and nothing else: the list comes back as it is, Jane Doe is
    emitted, and the turn fails at the second record. *)
Lemma unauthenticated_run_continues_witness :
  fst (fst (authenticate simple_repr login_enricher (world_answering unauthorized))) = false
  /\ 0 <= 2
  /\ fst (zoominfo_call simple_netloc simple_repr [jane_x; acme_only; jane_y]
            (login_enricher, world_answering unauthorized))
     = (Returned [jane_x; acme_only; jane_y], [jane_x; acme_only; jane_y])
  /\ exists emitted rest,
       [jane_x; acme_only; jane_y] = emitted ++ rest
       /\ Forall (fun c => extract_output simple_repr c <> None) emitted
       /\ attempt_batch
            (attempt simple_repr (Some (zoominfo_call simple_netloc simple_repr))
               [jane_x; acme_only; jane_y]
               (mkFileState [] [] (login_enricher, world_answering unauthorized)))
          = [jane_x; acme_only; jane_y]
       /\ processed_contacts
            (attempt_state
               (attempt simple_repr (Some (zoominfo_call simple_netloc simple_repr))
                  [jane_x; acme_only; jane_y]
                  (mkFileState [] [] (login_enricher, world_answering unauthorized))))
          = [] ++ output_rows simple_repr emitted
       /\ errors
            (attempt_state
               (attempt simple_repr (Some (zoominfo_call simple_netloc simple_repr))
                  [jane_x; acme_only; jane_y]
                  (mkFileState [] [] (login_enricher, world_answering unauthorized))))
          = []
       /\ match rest with
          | [] =>
              failure
                (attempt simple_repr (Some (zoominfo_call simple_netloc simple_repr))
                   [jane_x; acme_only; jane_y]
                   (mkFileState [] [] (login_enricher, world_answering unauthorized)))
              = None
          | c :: _ =>
              extract_output simple_repr c = None
              /\ failure
                   (attempt simple_repr (Some (zoominfo_call simple_netloc simple_repr))
                      [jane_x; acme_only; jane_y]
                      (mkFileState [] [] (login_enricher, world_answering unauthorized)))
                 = Some validation_message
          end.
Proof.
  split; [reflexivity|]. split; [lia|].
  destruct (unauthenticated_run_continues simple_netloc simple_repr login_enricher
              (world_answering unauthorized) 2 [jane_x; acme_only; jane_y]
              (mkFileState [] [] (login_enricher, world_answering unauthorized))
              eq_refl ltac:(lia) eq_refl)
    as (Hcall & Hturn & _).
  split; [exact Hcall|exact Hturn].
Defined.

(** C9 at the size of the specification's example. *)
Lemma company_size_scoring_witness :
  Dict.get "company_size" large_company = Some (VStr "1,200+")
  /\ "1,200+" <> ""
  /\ size_number "1,200" = true
  /\ parse_company_size "1,200+" = Some 1200.
Proof.
  split; [reflexivity|]. split; [discriminate|]. split; [reflexivity|].
  destruct (company_size_scoring simple_repr (new_qualifier [] [] 50 1000 [] [])
              large_company "1,200+" (mkTally 0 0 []) eq_refl ltac:(discriminate))
    as [Hparse _].
  apply (Hparse "1,200" "" eq_refl (or_intror (or_introl eq_refl))).
Defined.

Example large_company_not_scored :
  option_map snd (qualify_contact simple_repr (new_qualifier [] [] 50 1000 [] []) large_company)
  = Some (mkVerdict 0 1 (0 # 1) ["Company size (1200) is outside target range"] false).
Proof. vm_compute. reflexivity. Qed.

(** C10 at Jane Doe followed by a record without name, email or phone,
    with two retries. *)
Lemma success_rows_repeat_witness :
  1 <= 2
  /\ extract_output simple_repr jane_x = Some jane_row
  /\ extract_output simple_repr acme_only = None
  /\ exists st,
       main_process_file simple_netloc simple_repr 2 10 [jane_x; acme_only]
         key_enricher world_down = Some st
       /\ processed_contacts st = [jane_row; jane_row; jane_row].
Proof.
  split; [lia|]. split; [reflexivity|]. split; [reflexivity|].
  destruct (success_rows_repeat_across_retries simple_netloc simple_repr
              jane_x acme_only jane_row [] eq_refl eq_refl 2 10 key_enricher world_down
              ltac:(lia) ltac:(simpl; lia) eq_refl eq_refl)
    as (st & Hst & Hrows & _).
  exists st. split; [exact Hst|exact Hrows].
Defined.

(** ** The matching policy at work *)

(** Jane Doe twice in a batch and alone in another: the same record,
    although her entry has been hoisted in place by the first match. *)
Lemma reconciliation_independent_of_batch_witness :
  exists outs1 outs2,
    snd (reconcile [jane_x; jane_x] (results_body [jane_x_entry; jane_y_entry])) = Some outs1
    /\ snd (reconcile [jane_x] (results_body [jane_x_entry; jane_y_entry])) = Some outs2
    /\ outs1 !! 1%nat = outs2 !! O.
Proof.
  eexists. eexists.
  split; [vm_compute; reflexivity|]. split; [vm_compute; reflexivity|].
  apply (reconciliation_independent_of_batch [jane_x; jane_x] [jane_x]
           (results_body [jane_x_entry; jane_y_entry])
           [VDict jane_x_entry; VDict jane_y_entry] _ _ 1%nat O jane_x);
    reflexivity.
Defined.

(** Two entries for Jane Doe: the contact with the second entry's email
    gets the second entry. *)
Lemma shared_name_resolved_by_email_witness :
  contact_key jane_y = Some ("jane", "doe")
  /\ entry_key jane_x_entry = Some ("jane", "doe")
  /\ entry_key jane_y_entry = Some ("jane", "doe")
  /\ exists outs,
       snd (reconcile [jane_y] (results_body [jane_x_entry; jane_y_entry])) = Some outs
       /\ outs !! O = Some (merge_enriched jane_y (from_external jane_y_entry)).
Proof.
  split; [reflexivity|]. split; [reflexivity|]. split; [reflexivity|].
  eexists. split; [vm_compute; reflexivity|].
  apply (shared_name_resolved_by_email [jane_y]
           (results_body [jane_x_entry; jane_y_entry])
           [VDict jane_x_entry; VDict jane_y_entry] _ O jane_y ("jane", "doe")
           "jd@y.com" 1%nat jane_y_entry O jane_x_entry); try reflexivity.
  - discriminate.
  - intros [|j'] other Hlt Hj _; [|lia].
    injection Hj as <-. vm_compute. discriminate.
  - discriminate.
Defined.

(** Two entries for Jane Doe, neither with the contact's email, which is
    Xavier's: the contact gets Xavier's entry. *)
Lemma email_fallback_takes_last_entry_witness :
  contact_key jane_ab = Some ("jane", "doe")
  /\ entry_key other_entry = Some ("xavier", "")
  /\ exists outs,
       snd (reconcile [jane_ab] (results_body [other_entry; jane_x_entry; jane_y_entry]))
       = Some outs
       /\ outs !! O = Some (merge_enriched jane_ab (from_external other_entry)).
Proof.
  split; [reflexivity|]. split; [reflexivity|].
  eexists. split; [vm_compute; reflexivity|].
  apply (email_fallback_takes_last_entry [jane_ab]
           (results_body [other_entry; jane_x_entry; jane_y_entry])
           [VDict other_entry; VDict jane_x_entry; VDict jane_y_entry] _ O jane_ab
           ("jane", "doe") "a@b.com" O other_entry); try reflexivity.
  - discriminate.
  - intros [|[|[|j1]]] other Hj Hk; simpl in Hj; try discriminate.
    + injection Hj as <-. vm_compute in Hk. discriminate.
    + exists 2%nat, jane_y_entry. repeat split. lia.
    + exists 1%nat, jane_x_entry. repeat split. lia.
  - intros [|[|[|j1]]] other Hj Hk; simpl in Hj; try discriminate.
    + injection Hj as <-. vm_compute in Hk. discriminate.
    + injection Hj as <-. vm_compute. discriminate.
    + injection Hj as <-. vm_compute. discriminate.
  - intros [|[|[|j']]] other Hlt Hj; simpl in Hj; try discriminate; try lia.
    + injection Hj as <-. vm_compute. discriminate.
    + injection Hj as <-. vm_compute. discriminate.
Defined.

(** Two entries for Jane Doe and an email that no entry has: no match. *)
Lemma unmatched_contact_is_flagged_witness :
  exists outs,
    snd (reconcile [jane_ab] (results_body [jane_x_entry; jane_y_entry])) = Some outs
    /\ outs !! O = Some (jane_ab ++ [("zi_enriched", VBool false)]).
Proof.
  eexists. split; [vm_compute; reflexivity|].
  apply (unmatched_contact_is_flagged [jane_ab]
           (results_body [jane_x_entry; jane_y_entry])
           [VDict jane_x_entry; VDict jane_y_entry] _ O jane_ab
           ("jane", "doe") "a@b.com"); try reflexivity.
  - intros [|[|j1]] other Hj Hk; simpl in Hj; try discriminate.
    + exists 1%nat, jane_y_entry. repeat split. lia.
    + exists O, jane_x_entry. repeat split. lia.
  - right. intros [|[|j1]] other Hj; simpl in Hj; try discriminate.
    + injection Hj as <-. vm_compute. discriminate.
    + injection Hj as <-. vm_compute. discriminate.
Defined.

(** Jane Doe's entry names her company: after the match the name sits in
    the entry's [company] dictionary. *)
Lemma company_fields_are_nested_witness :
  exists company_info,
    Dict.get "company" (hoist_company jane_x_entry) = Some (VDict company_info)
    /\ Dict.get "name" company_info = Some (VStr "Acme")
    /\ Dict.get "companyName" (hoist_company jane_x_entry) = None.
Proof.
  apply (company_fields_are_nested jane_x_entry "companyName" "name" (VStr "Acme"));
    [simpl; auto|reflexivity].
Defined.

(** A login good for an hour, and a call half an hour later. *)
Lemma login_token_is_reused_witness :
  fst (fst (authenticate simple_repr login_enricher (world_answering login_granted))) = true
  /\ headers (snd (fst (authenticate simple_repr login_enricher
                          (world_answering login_granted))))
     = Some (String.append "Bearer " "T0")
  /\ authenticate simple_repr
       (snd (fst (authenticate simple_repr login_enricher (world_answering login_granted))))
       (mkWorld 1800000 [] [])
     = (true,
        snd (fst (authenticate simple_repr login_enricher (world_answering login_granted))),
        mkWorld 1800000 [] []).
Proof.
  apply (login_token_is_reused simple_repr login_enricher (world_answering login_granted)
           [("token", VStr "T0"); ("expiresIn", VNum 3600)] "" [] (VStr "T0") 3600
           (mkWorld 1800000 [] [])); try reflexivity.
  lia.
Defined.

(** The login is answered with an empty body. *)
Lemma login_without_token_is_accepted_witness :
  fst (fst (authenticate simple_repr login_enricher (world_answering login_without_token)))
  = true
  /\ headers (snd (fst (authenticate simple_repr login_enricher
                          (world_answering login_without_token))))
     = Some "Bearer None"
  /\ sent (snd (authenticate simple_repr
                  (snd (fst (authenticate simple_repr login_enricher
                               (world_answering login_without_token))))
                  world_down))
     = sent world_down ++ [auth_request login_enricher].
Proof.
  apply (login_without_token_is_accepted simple_repr login_enricher
           (world_answering login_without_token) [] "" [] world_down); reflexivity.
Defined.

(** A phone number is not sent: nothing is asked, nothing is flagged. *)
Lemma nothing_to_send_no_request_witness :
  returned (enrich_contact_batch simple_netloc simple_repr key_enricher [phone_only]
              (world_answering no_results))
  = [phone_only]
  /\ contacts_after (enrich_contact_batch simple_netloc simple_repr key_enricher
                       [phone_only] (world_answering no_results))
     = [phone_only]
  /\ world_after (enrich_contact_batch simple_netloc simple_repr key_enricher
                    [phone_only] (world_answering no_results))
     = snd (authenticate simple_repr key_enricher (world_answering no_results)).
Proof.
  apply (nothing_to_send_no_request simple_netloc simple_repr key_enricher [phone_only]
           (world_answering no_results)).
  intros contact [<-|[]] k Hk. unfold payload_fields in Hk. simpl in Hk.
  repeat (destruct Hk as [<-|Hk]; [reflexivity|]). destruct Hk.
Defined.

(** ** The qualifier at work *)

(** Jane Doe, CTO of a company of 5,000, for a qualifier that looks for
    chief officers in companies of 50 to 1000: three criteria, two met. *)
Lemma qualification_counts_witness :
  exists v,
    qualify_contact simple_repr (new_qualifier ["CTO"; "Chief"] [] 50 1000 [] []) jane_cto
    = Some (jane_cto, v)
    /\ v_score v = 2 /\ v_max_score v = 3
    /\ (jane_cto = jane_cto
        /\ 0 <= v_score v /\ v_score v <= v_max_score v /\ v_max_score v <= 6
        /\ Z.of_nat (length (v_reasons v)) = v_max_score v).
Proof.
  eexists. split; [vm_compute; reflexivity|].
  split; [reflexivity|]. split; [reflexivity|].
  apply (qualification_counts simple_repr (new_qualifier ["CTO"; "Chief"] [] 50 1000 [] [])
           jane_cto jane_cto).
  vm_compute. reflexivity.
Defined.

(** Two criteria of three make her qualified. *)
Lemma qualified_at_sixty_percent_witness :
  exists v,
    qualify_contact simple_repr (new_qualifier ["CTO"; "Chief"] [] 50 1000 [] []) jane_cto
    = Some (jane_cto, v)
    /\ v_qualified v = true
    /\ (v_qualified v = true
        <-> 0 < v_max_score v /\ 3 * v_max_score v <= 5 * v_score v).
Proof.
  eexists. split; [vm_compute; reflexivity|]. split; [reflexivity|].
  apply (qualified_at_sixty_percent simple_repr
           (new_qualifier ["CTO"; "Chief"] [] 50 1000 [] []) jane_cto jane_cto).
  vm_compute. reflexivity.
Defined.

Lemma numeric_company_size_raises_witness :
  qualify_contact simple_repr (new_qualifier ["CTO"; "Chief"] [] 50 1000 [] [])
    sized_by_number
  = None.
Proof.
  apply (numeric_company_size_raises simple_repr
           (new_qualifier ["CTO"; "Chief"] [] 50 1000 [] []) sized_by_number 500);
    [reflexivity|lia].
Defined.

Lemma qualify_contact_returns_witness :
  exists v,
    qualify_contact simple_repr (new_qualifier ["CTO"; "Chief"] [] 50 1000 [] []) jane_cto
    = Some (jane_cto, v).
Proof.
  apply (qualify_contact_returns simple_repr
           (new_qualifier ["CTO"; "Chief"] [] 50 1000 [] []) jane_cto).
  reflexivity.
Defined.

(** ** The orchestrators at work *)

(** Jane Doe and a record with a company only, the channel down, on a
    [LeadGenerator] that holds an error record from an earlier list: one
    row and one more error record. *)
Lemma contact_list_accounting_witness :
  exists st new_errors,
    process_contact_list simple_repr (Some (zoominfo_call simple_netloc simple_repr))
      zoominfo_pause
      [jane_x; acme_only] 10 [(phone_only, validation_message)]
      (key_enricher, world_down) = Some st
    /\ errors st = [(phone_only, validation_message)] ++ new_errors
    /\ (length (processed_contacts st) + length new_errors)%nat
       = length [jane_x; acme_only]
    /\ Forall (fun err : error_record => snd err = validation_message) new_errors.
Proof.
  apply (contact_list_accounting simple_netloc simple_repr [jane_x; acme_only] 10
           [(phone_only, validation_message)] key_enricher world_down).
  lia.
Defined.

(** The same file through [process_file] with two retries. *)
Lemma process_file_loses_no_record_witness :
  exists st,
    main_process_file simple_netloc simple_repr 2 10 [jane_x; acme_only]
      key_enricher world_down = Some st
    /\ (length [jane_x; acme_only]
        <= length (processed_contacts st) + length (errors st))%nat.
Proof.
  apply (process_file_loses_no_record simple_netloc simple_repr 2 10 [jane_x; acme_only]
           key_enricher world_down); lia.
Defined.

Lemma negative_retries_process_nothing_witness :
  main_process_file_report simple_netloc simple_repr (-1) 10 [jane_x; acme_only]
    key_enricher (world_answering no_results)
  = (mkFileReport 0 0 None None, (key_enricher, world_answering no_results)).
Proof.
  apply (negative_retries_process_nothing simple_netloc simple_repr (-1) 10
           [jane_x; acme_only] key_enricher (world_answering no_results)).
  lia.
Defined.

Lemma zero_batch_size_fails_the_file_witness :
  main_process_file_report simple_netloc simple_repr 2 0 [jane_x]
    key_enricher (world_answering no_results)
  = (mkFileReport 0 1 None
       (Some [jane_x ++ [("error", VStr "range() arg 3 must not be zero")]]),
     (key_enricher, mkWorld 4000 [no_results] [])).
Proof.
  apply (zero_batch_size_fails_the_file simple_netloc simple_repr 2 [jane_x]
           key_enricher (world_answering no_results)).
  lia.
Defined.

(** ** The company lookup at work *)

(** Jane Doe's email names the domain x.com; the lookup returns X Corp. *)
Lemma company_lookup_flags_every_contact_witness :
  exists returned_list,
    company_returned (get_company_for_contacts simple_netloc simple_repr key_enricher
                        [jane_x; phone_only] (world_answering company_found))
    = Some returned_list
    /\ returned_list
       = company_contacts_after
           (get_company_for_contacts simple_netloc simple_repr key_enricher
              [jane_x; phone_only] (world_answering company_found))
    /\ Forall company_flagged returned_list.
Proof.
  eexists. split; [vm_compute; reflexivity|].
  apply (company_lookup_flags_every_contact simple_netloc simple_repr key_enricher
           [jane_x; phone_only] (world_answering company_found)).
  - vm_compute. reflexivity.
  - vm_compute. discriminate.
Defined.

Lemma no_company_to_look_up_witness :
  company_returned (get_company_for_contacts simple_netloc simple_repr key_enricher
                      [phone_only] (world_answering company_found))
  = Some [phone_only]
  /\ company_contacts_after
       (get_company_for_contacts simple_netloc simple_repr key_enricher
          [phone_only] (world_answering company_found))
     = [phone_only]
  /\ company_world_after
       (get_company_for_contacts simple_netloc simple_repr key_enricher
          [phone_only] (world_answering company_found))
     = snd (authenticate simple_repr key_enricher (world_answering company_found)).
Proof.
  apply (no_company_to_look_up simple_netloc simple_repr key_enricher [phone_only]
           (world_answering company_found)).
  intros contact [<-|[]]. repeat split.
Defined.

(** An empty email cell in the second record of the batch. *)
Lemma email_not_text_raises_witness :
  company_returned (get_company_for_contacts simple_netloc simple_repr key_enricher
                      [jane_x; jane_without_email] (world_answering company_found))
  = None
  /\ company_contacts_after
       (get_company_for_contacts simple_netloc simple_repr key_enricher
          [jane_x; jane_without_email] (world_answering company_found))
     = [jane_x; jane_without_email]
  /\ company_world_after
       (get_company_for_contacts simple_netloc simple_repr key_enricher
          [jane_x; jane_without_email] (world_answering company_found))
     = snd (authenticate simple_repr key_enricher (world_answering company_found)).
Proof.
  apply (email_not_text_raises simple_netloc simple_repr key_enricher
           [jane_x; jane_without_email] (world_answering company_found)
           1%nat jane_without_email); [reflexivity|reflexivity|exact I].
Defined.

(** Jane Doe has an email, hence a domain to look up: with the channel
    down both records of the batch are flagged. *)
Lemma company_lookup_when_down_witness :
  identify simple_netloc jane_x = Some (Some (ByDomain "x.com"))
  /\ company_returned (get_company_for_contacts simple_netloc simple_repr key_enricher
                         [jane_x; phone_only] world_down)
     = Some (company_contacts_after
               (get_company_for_contacts simple_netloc simple_repr key_enricher
                  [jane_x; phone_only] world_down))
  /\ company_contacts_after
       (get_company_for_contacts simple_netloc simple_repr key_enricher
          [jane_x; phone_only] world_down)
     = List.map flag_company [jane_x; phone_only].
Proof.
  split; [reflexivity|].
  destruct (company_lookup_when_down simple_netloc simple_repr key_enricher
              [jane_x; phone_only] world_down eq_refl eq_refl)
    as (Hreturned & _ & Hflagged); [repeat constructor|].
  split; [exact Hreturned|].
  apply Hflagged. exists O, jane_x, (ByDomain "x.com"). split; reflexivity.
Defined.

(** Jane Doe, of x.com, gets the company whose domain is X.com. *)
Lemma company_matched_by_domain_witness :
  identify simple_netloc jane_x = Some (Some (ByDomain "x.com"))
  /\ exists returned_list,
       company_returned (get_company_for_contacts simple_netloc simple_repr key_enricher
                           [jane_x] (world_answering company_found))
       = Some returned_list
       /\ returned_list !! O = Some (attach_company simple_repr company_x jane_x).
Proof.
  split; [reflexivity|].
  eexists. split; [vm_compute; reflexivity|].
  apply (company_matched_by_domain simple_netloc simple_repr key_enricher [jane_x]
           (world_answering company_found) (results_body [company_x]) "" []
           [company_x] _ O jane_x "x.com" O company_x "X.com");
    try reflexivity.
  - simpl. lia.
  - discriminate.
  - intros [|j'] other domain' Hlt Hj; [lia|discriminate Hj].
Defined.

(** Her domain is not X Corp's: no company, although the name is there. *)
Lemma company_domain_not_found_witness :
  identify simple_netloc jane_y_of_x = Some (Some (ByDomain "y.com"))
  /\ exists returned_list,
       company_returned (get_company_for_contacts simple_netloc simple_repr key_enricher
                           [jane_y_of_x] (world_answering company_found))
       = Some returned_list
       /\ returned_list !! O = Some (flag_company jane_y_of_x).
Proof.
  split; [reflexivity|].
  eexists. split; [vm_compute; reflexivity|].
  apply (company_domain_not_found simple_netloc simple_repr key_enricher [jane_y_of_x]
           (world_answering company_found) (results_body [company_x]) "" []
           [company_x] _ O jane_y_of_x "y.com");
    try reflexivity.
  - simpl. lia.
  - intros [|j] other domain Hj Hdomain; [|discriminate Hj].
    injection Hj as <-. injection Hdomain as <-. vm_compute. discriminate.
Defined.

Lemma company_matched_by_name_witness :
  identify simple_netloc acme_only = Some (Some (ByCompanyName (VStr "Acme")))
  /\ exists returned_list,
       company_returned (get_company_for_contacts simple_netloc simple_repr key_enricher
                           [acme_only]
                           (world_answering (Reply 200 (results_body [company_acme]) "")))
       = Some returned_list
       /\ returned_list !! O = Some (attach_company simple_repr company_acme acme_only).
Proof.
  split; [reflexivity|].
  eexists. split; [vm_compute; reflexivity|].
  apply (company_matched_by_name simple_netloc simple_repr key_enricher [acme_only]
           (world_answering (Reply 200 (results_body [company_acme]) ""))
           (results_body [company_acme]) "" [] [company_acme] _ O acme_only
           "Acme" O company_acme "ACME");
    try reflexivity.
  - simpl. lia.
  - discriminate.
  - intros [|j'] other name' Hlt Hj; [lia|discriminate Hj].
Defined.

(** Jane Doe under her own email and under Xavier's, against Xavier's
    entry and hers. *)
Lemma well_typed_answer_is_reconciled_witness :
  Forall2 (fun contact out => reconciled [other_entry; jane_x_entry] contact = Some out)
    [jane_x; jane_ab]
    (returned (enrich_contact_batch simple_netloc simple_repr key_enricher
                 [jane_x; jane_ab]
                 (world_answering
                    (Reply 200 (results_body [other_entry; jane_x_entry]) "")))).
Proof.
  apply (well_typed_answer_is_reconciled simple_netloc simple_repr key_enricher
           [jane_x; jane_ab]
           (world_answering (Reply 200 (results_body [other_entry; jane_x_entry]) ""))
           (results_body [other_entry; jane_x_entry]) "" [other_entry; jane_x_entry]);
    [vm_compute; reflexivity|reflexivity|repeat constructor|repeat constructor].
Defined.
